(** * auto_tdl: invoice line-item extraction and GL reconciliation

    A shallow embedding of [process_tdl_invoice] (auto_tdl_v1.1_stable.py).

    Conventions of the embedding.
    - Python [str] values are lists of characters restricted to the Latin-1
      range (one [ascii] per code point 0..255).  On that range [\d] is
      exactly '0'..'9' and [\s] / [str.split()] whitespace is
      9..13, 28..32, 133 and 160.
    - Python [float] is IEEE binary64, modelled with the Standard Library's
      [spec_float] at precision 53 and maximal exponent 1024.
    - Python exceptions are explicit: a computation returns [Ok v] or
      [Raise e].
    - The [dict] named [summary] keeps insertion order, so it is an
      association list.
    - [sorted] is the [list.sort] of CPython 3.11, written out step by
      step: what it does with keys that [<] does not order (NaN) depends
      on these steps.
    - [pdfplumber] and [pandas.read_excel] are outside the program: the page
      texts and the loaded table rows are inputs.  Every page has a text,
      the table has its three columns, and its GL Description column holds
      text. *)

From Stdlib Require Import String Ascii.
From Stdlib Require Import ZArith List Bool Lia Arith.
From Stdlib Require Import SpecFloat DecimalString Permutation.
From Stdlib Require DecimalPos DecimalFacts Nnat.
From AAC_tactics Require Import AAC.
Import ListNotations.

Set Implicit Arguments.
Local Open Scope nat_scope.

(* ================================================================== *)
(** ** Python strings *)

Module Str.

Definition str := list ascii.

(** A literal of the source, written as a Rocq string. *)
Definition chars (s : string) : str := list_ascii_of_string s.

Definition code (c : ascii) : nat := nat_of_ascii c.

(** [str.isdecimal] on one Latin-1 character, the class [\d]. *)
Definition isdigit (c : ascii) : bool :=
  (48 <=? code c) && (code c <=? 57).

(** [str.isspace] on one Latin-1 character: the class [\s], and the
    separators of [str.split()]. *)
Definition isspace (c : ascii) : bool :=
  let n := code c in
  ((9 <=? n) && (n <=? 13)) || ((28 <=? n) && (n <=? 32))
  || (n =? 133) || (n =? 160).

Definition eqb (a b : str) : bool :=
  if list_eq_dec ascii_dec a b then true else false.

(** [s.split()]: the maximal runs of non-whitespace characters. *)
Fixpoint split_aux (cur : str) (s : str) : list str :=
  match s with
  | [] => match cur with [] => [] | _ => [rev cur] end
  | c :: s' =>
      if isspace c
      then match cur with
           | [] => split_aux [] s'
           | _ => rev cur :: split_aux [] s'
           end
      else split_aux (c :: cur) s'
  end.

Definition split (s : str) : list str := split_aux [] s.

(** [s.split(sep)] for a one-character separator: empty pieces are kept. *)
Fixpoint split_on_aux (sep : ascii) (cur : str) (s : str) : list str :=
  match s with
  | [] => [rev cur]
  | c :: s' =>
      if Ascii.eqb c sep
      then rev cur :: split_on_aux sep [] s'
      else split_on_aux sep (c :: cur) s'
  end.

Definition split_on (sep : ascii) (s : str) : list str :=
  split_on_aux sep [] s.

(** [s.zfill(width)]: zeros go after a leading sign. *)
Definition zfill (s : str) (width : nat) : str :=
  let pad := repeat "0"%char (width - length s) in
  match s with
  | c :: s' =>
      if Ascii.eqb c "+" || Ascii.eqb c "-" then c :: pad ++ s'
      else pad ++ s
  | [] => pad
  end.

(** [s[b:e]] for [0 <= b <= e]. *)
Definition slice (s : str) (b e : nat) : str := firstn (e - b) (skipn b s).

(** [str(n)] for an [int]. *)
Definition of_int (z : Z) : str :=
  chars (NilZero.string_of_int (Z.to_int z)).

End Str.
Import Str.

(* ================================================================== *)
(** ** The fragment of [re] the program uses

    Every pattern of the source is a sequence of single-character atoms
    (a literal, [\d] or [\s]) under a greedy quantifier, with at most one
    capturing group and the anchors [^] and [$].  The matcher backtracks
    like [sre]: a quantifier first takes as many characters as it can and
    gives them back one at a time while the rest of the pattern fails. *)

Module Re.

Inductive atom : Type :=
| Lit (c : ascii)      (* the character itself *)
| Digit                (* \d *)
| Space.               (* \s *)

Inductive node : Type :=
| Rep (a : atom) (lo : nat) (hi : option nat)  (* a{lo,hi}; [None]: no bound *)
| Open                 (* "(" of group 1 *)
| Close                (* ")" of group 1 *)
| Bol                  (* ^ *)
| Eol.                 (* $ *)

Definition regex := list node.

Definition one (a : atom) : node := Rep a 1 (Some 1).      (* a  *)
Definition plus (a : atom) : node := Rep a 1 None.         (* a+ *)
Definition star (a : atom) : node := Rep a 0 None.         (* a* *)
Definition opt (a : atom) : node := Rep a 0 (Some 1).      (* a? *)

(** A run of literal characters. *)
Definition lits (s : string) : regex := map (fun c => one (Lit c)) (chars s).

Definition atom_matches (a : atom) (c : ascii) : bool :=
  match a with
  | Lit c' => Ascii.eqb c c'
  | Digit => isdigit c
  | Space => isspace c
  end.

Definition may_take (hi : option nat) : bool :=
  match hi with Some 0 => false | _ => true end.

(** The span of group 1, as positions in the searched text. *)
Definition span := (nat * nat)%type.

Section Matcher.
Variable R : Type.

(** Greedy [a{lo,hi}] followed by the continuation [k]; [p] is the
    position of [s] in the searched text. *)
Fixpoint rep (a : atom) (lo : nat) (hi : option nat)
         (k : nat -> str -> option R) (p : nat) (s : str) : option R :=
  let stop := match lo with 0 => k p s | S _ => None end in
  match s with
  | c :: s' =>
      if atom_matches a c && may_take hi
      then match rep a (pred lo) (option_map pred hi) k (S p) s' with
           | Some r => Some r
           | None => stop
           end
      else stop
  | [] => stop
  end.
End Matcher.

(** [$] without MULTILINE: the end of the text, or just before a final
    newline. *)
Definition at_eol (s : str) : bool :=
  match s with
  | [] => true
  | [c] => Ascii.eqb c "010"
  | _ => false
  end.

(** Match [ns] at position [p], where [s] is the text from [p] on and
    [g] the group span recorded so far. *)
Fixpoint exec (ns : regex) (g : span) (p : nat) (s : str) : option span :=
  match ns with
  | [] => Some g
  | Rep a lo hi :: ns' => rep a lo hi (exec ns' g) p s
  | Open :: ns' => exec ns' (p, p) p s
  | Close :: ns' => exec ns' (fst g, p) p s
  | Bol :: ns' => if p =? 0 then exec ns' g p s else None
  | Eol :: ns' => if at_eol s then exec ns' g p s else None
  end.

(** Leftmost match starting at [p] or later. *)
Fixpoint search_from (ns : regex) (p : nat) (s : str) : option span :=
  match exec ns (0, 0) p s with
  | Some g => Some g
  | None =>
      match s with
      | [] => None
      | _ :: s' => search_from ns (S p) s'
      end
  end.

(** [re.match(pattern, text)], giving [group(1)] of the match. *)
Definition re_match (ns : regex) (text : str) : option str :=
  match exec ns (0, 0) 0 text with
  | Some (b, e) => Some (slice text b e)
  | None => None
  end.

(** [re.search(pattern, text)], giving [group(1)] of the match. *)
Definition re_search (ns : regex) (text : str) : option str :=
  match search_from ns 0 text with
  | Some (b, e) => Some (slice text b e)
  | None => None
  end.

End Re.
Import Re.

(** The patterns of the source. *)

(** [r'^(\d{5,8})\s'] *)
Definition item_code_re : regex :=
  [Bol; Open; Rep Digit 5 (Some 8); Close; one Space].

(** [r'^\d+\.?\d*$'] *)
Definition decimal_re : regex :=
  [Bol; plus Digit; opt (Lit "."); star Digit; Eol].

(** [r'^\d+$'] *)
Definition integer_re : regex := [Bol; plus Digit; Eol].

(** [r'Invoice Number\s*:\s*(\d+)'] *)
Definition invoice_re : regex :=
  lits "Invoice Number" ++ [star Space; one (Lit ":"); star Space;
                            Open; plus Digit; Close].

(** [\d+\.\d+] *)
Definition amount : regex := [plus Digit; one (Lit "."); plus Digit].

(** [r'Tariff Allocation\s+(\d+\.\d+)'] *)
Definition tariff_re : regex :=
  lits "Tariff Allocation" ++ [plus Space; Open] ++ amount ++ [Close].

(** [r'Fuel Surcharge\s+\d+\.\d+\s+0\.00\s+(\d+\.\d+)'] *)
Definition fuel_re : regex :=
  lits "Fuel Surcharge" ++ [plus Space] ++ amount ++ [plus Space]
  ++ lits "0.00" ++ [plus Space; Open] ++ amount ++ [Close].

(** [r'Fuel Surcharge\s+(\d+\.\d+)'] *)
Definition fuel_alt_re : regex :=
  lits "Fuel Surcharge" ++ [plus Space; Open] ++ amount ++ [Close].

(** [r'GST/HST/VAT\s+(\d+\.\d+)'] *)
Definition gst_re : regex :=
  lits "GST/HST/VAT" ++ [plus Space; Open] ++ amount ++ [Close].

(* ================================================================== *)
(** ** Python exceptions *)

Inductive exn : Type := IndexError | ValueError | OverflowError.

Inductive result (A : Type) : Type :=
| Ok (a : A)
| Raise (e : exn).
Arguments Ok {A} a.
Arguments Raise {A} e.

Definition bind {A B : Type} (m : result A) (f : A -> result B) : result B :=
  match m with
  | Ok a => f a
  | Raise e => Raise e
  end.

Notation "x <- m ;; k" := (bind m (fun x => k))
  (at level 61, m at next level, right associativity).

(** [l[i]] *)
Definition index {A : Type} (l : list A) (i : nat) : result A :=
  match nth_error l i with
  | Some a => Ok a
  | None => Raise IndexError
  end.

(* ================================================================== *)
(** ** Python floats: IEEE binary64 *)

Module Float64.

Definition prec : Z := 53.
Definition emax : Z := 1024.

Definition float := spec_float.

Definition zero : float := S754_zero false.             (* 0.0 *)
Definition add : float -> float -> float := SFadd prec emax.
Definition mul : float -> float -> float := SFmul prec emax.
Definition ltb : float -> float -> bool := SFltb.       (* x < y *)
Definition leb : float -> float -> bool := SFleb.       (* x <= y *)
Definition eqb : float -> float -> bool := SFeqb.       (* x == y *)

(** The integer [x * 2^k] for a finite [x] whose exponent is at least
    [-k]: the exact value of [x], in units of [2^-k]. *)
Definition scaled (k : Z) (x : float) : Z :=
  match x with
  | S754_finite s m e => (if s then -1 else 1) * Zpos m * 2 ^ (e + k)
  | _ => 0
  end.

Definition is_nan (x : float) : bool :=
  match x with S754_nan => true | _ => false end.

Definition is_finite (x : float) : bool :=
  match x with S754_zero _ | S754_finite _ _ _ => true | _ => false end.

(** The binary64 nearest (ties to even) to the quotient [n / d] of two
    positive integers, with the sign [s]. *)
Definition of_ratio (s : bool) (n d : positive) : float :=
  SFdiv prec emax (S754_finite s n 0) (S754_finite false d 0).

(** The conversion of an [int] operand of a float operation, as in
    [qty * unit_price]: the nearest binary64, ties to even, and
    [OverflowError] beyond the binary64 range. *)
Definition of_int (z : Z) : result float :=
  let x := binary_normalize prec emax z 0 false in
  match x with
  | S754_infinity _ => Raise OverflowError
  | _ => Ok x
  end.

(** [int(x)]: truncation toward zero. *)
Definition to_int (x : float) : result Z :=
  match x with
  | S754_zero _ => Ok 0%Z
  | S754_finite s m e =>
      let a := match e with
               | Zneg k => Z.shiftr (Zpos m) (Zpos k)
               | _ => Z.shiftl (Zpos m) e
               end in
      Ok (if s then Z.opp a else a)
  | S754_infinity _ => Raise OverflowError
  | S754_nan => Raise ValueError
  end.

(** The integer nearest to [n / d], ties to even ([0 < d]). *)
Definition div_half_even (n d : Z) : Z :=
  let q := Z.div n d in
  let r := Z.modulo n d in
  match Z.compare (2 * r) d with
  | Lt => q
  | Gt => (q + 1)%Z
  | Eq => if Z.even q then q else (q + 1)%Z
  end.

(** [round(x, 2)]: the exact value of [x] is rounded to two decimals,
    ties to even, and the decimal result converted back to binary64. *)
Definition round2 (x : float) : float :=
  match x with
  | S754_finite s m e =>
      let c := match e with
               | Zneg k => div_half_even (Zpos m * 100) (Z.pow 2 (Zpos k))
               | _ => (Zpos m * 100 * Z.pow 2 e)%Z
               end in
      match c with
      | Zpos n => of_ratio s n 100
      | _ => S754_zero s
      end
  | _ => x
  end.

(** *** [float(s)] on unsigned decimal literals

    The program calls [float] only on text that one of its patterns has
    accepted: digits with an optional point.  Outside this fragment
    (signs, exponents, [inf], [nan], underscores, blanks) the model
    answers [ValueError]; no call of the program gets there. *)

Definition digit_val (c : ascii) : Z := Z.of_nat (code c) - 48.

(** The value of a run of digits, [None] at a character that is no digit. *)
Fixpoint digits_val (acc : Z) (s : str) : option Z :=
  match s with
  | [] => Some acc
  | c :: s' =>
      if isdigit c then digits_val (10 * acc + digit_val c) s' else None
  end.

(** The text before the first point, and the text after it if there is
    a point. *)
Fixpoint cut_point (s : str) : str * option str :=
  match s with
  | [] => ([], None)
  | c :: s' =>
      if Ascii.eqb c "." then ([], Some s')
      else let '(a, b) := cut_point s' in (c :: a, b)
  end.

(** The binary64 nearest to [n / 10^k], for [0 <= n]. *)
Definition of_decimal (n : Z) (k : nat) : float :=
  match n with
  | Zpos m => of_ratio false m (Z.to_pos (Z.pow 10 (Z.of_nat k)))
  | _ => zero
  end.

Definition of_str (s : str) : result float :=
  let '(ip, fp) := cut_point s in
  let fp := match fp with Some f => f | None => [] end in
  match ip ++ fp with
  | [] => Raise ValueError
  | ds =>
      match digits_val 0 ds with
      | Some n => Ok (of_decimal n (List.length fp))
      | None => Raise ValueError
      end
  end.

End Float64.

Abbreviation float := Float64.float.

(* ================================================================== *)
(** ** The reference table (the DataFrame [db]) *)

Module Db.

(** A cell as [read_excel] delivers it: an integer or text.  (A column
    read as floats, as one with empty cells is, is not modelled.) *)
Inductive cell : Type :=
| CInt (z : Z)
| CStr (s : str).

(** The three columns the program requires; the GL Description column
    holds text. *)
Record row : Type := mkrow {
  Item_Code : cell;
  GL_Code : cell;
  GL_Description : str
}.

Definition table := list row.

(** [str(v)] of one cell. *)
Definition cell_str (c : cell) : str :=
  match c with
  | CInt z => Str.of_int z
  | CStr s => s
  end.

(** [db["Item Code"] = db["Item Code"].astype(str)] *)
Definition astype_str (db : table) : table :=
  map (fun r => mkrow (CStr (cell_str (Item_Code r)))
                      (GL_Code r) (GL_Description r)) db.

(** [v == item_code] for a cell [v] and a string: a number never equals
    a string. *)
Definition cell_eq (c : cell) (s : str) : bool :=
  match c with
  | CInt _ => false
  | CStr t => Str.eqb t s
  end.

(** [db[db["Item Code"] == item_code]] *)
Definition select (db : table) (item_code : str) : table :=
  filter (fun r => cell_eq (Item_Code r) item_code) db.

End Db.

(* ================================================================== *)
(** ** Sorting, as [sorted] does it

    [sorted] copies its argument into a list and calls [list.sort]; the
    key function is applied once to every element, and the elements are
    compared by their keys with [<] only ([lt] below is that comparison).
    [list.sort] is written out as CPython 3.11 has it (Objects/listobject.c):
    natural runs found by [count_run], short runs extended to [minrun]
    elements by [binarysort], the runs merged by [merge_lo] and [merge_hi]
    with their galloping mode, in the order the powersort rule of
    [found_new_run] gives.  The algorithm matters when [<] does not order
    the keys, as with NaN: the result is then what these steps leave, and
    not given by the keys alone.  With [reverse=True] the list is reversed,
    sorted ascending and reversed again.

    The arrays of the C code are lists: a run is the list of its elements,
    the pending runs are a list with the last run first, and a merge
    returns the merged run where the C code writes it in place. *)

Section Sorting.
Variable A : Type.
Variable lt : A -> A -> bool.

(** [count_run]: the length of the run the list starts with, and whether
    it is descending.  A run is descending when its second element is
    smaller than its first; it then goes on as long as each element is
    smaller than the one before.  Otherwise it goes on as long as no
    element is smaller than the one before.  [run_ascending prev l] and
    [run_descending prev l] count how far the run goes on into [l] after
    [prev]. *)
Fixpoint run_ascending (prev : A) (l : list A) : nat :=
  match l with
  | x :: l' => if lt x prev then 0 else S (run_ascending x l')
  | [] => 0
  end.

Fixpoint run_descending (prev : A) (l : list A) : nat :=
  match l with
  | x :: l' => if lt x prev then S (run_descending x l') else 0
  | [] => 0
  end.

Definition count_run (l : list A) : nat * bool :=
  match l with
  | [] => (0, false)
  | [_] => (1, false)
  | x :: (y :: l') as t =>
      if lt y x then (2 + run_descending y l', true)
      else (2 + run_ascending y l', false)
  end.

(** [binarysort]: each element of [rest] in turn is the pivot, put into
    the sorted elements [pre] before it at the index [l] that the loop
    [while l < r: p = l + ((r - l) >> 1); if pivot < pre[p]: r = p
    else: l = p + 1] ends with.  The loop halves [r - l], which is
    [length pre] at first, so [length pre] turns are enough. *)
Fixpoint bisect (fuel : nat) (pivot : A) (pre : list A) (l r : nat) : nat :=
  match fuel with
  | 0 => l
  | S fuel' =>
      if l <? r then
        let p := l + (r - l) / 2 in
        match nth_error pre p with
        | Some x => if lt pivot x then bisect fuel' pivot pre l p
                    else bisect fuel' pivot pre (S p) r
        | None => l
        end
      else l
  end.

Definition binary_insert (pre : list A) (pivot : A) : list A :=
  let l := bisect (length pre) pivot pre 0 (length pre) in
  firstn l pre ++ pivot :: skipn l pre.

Definition binarysort (sorted rest : list A) : list A :=
  fold_left binary_insert rest sorted.

(** [gallop_left] and [gallop_right] look for the place of a key in a
    sorted run [a], starting at the index [hint]: first in steps that
    double, then by bisection.

    The gallop loop: [ofs] runs through 1, 3, 7, ... below [maxofs] as
    long as [probe] holds, and [lastofs] is the value of [ofs] before. *)
Fixpoint gallop_out (fuel : nat) (probe : nat -> bool)
         (maxofs lastofs ofs : nat) : nat * nat :=
  match fuel with
  | 0 => (lastofs, ofs)
  | S fuel' =>
      if (ofs <? maxofs) && probe ofs
      then gallop_out fuel' probe maxofs ofs (2 * ofs + 1)
      else (lastofs, ofs)
  end.

(** The bisection [while lastofs < ofs: m = lastofs + ((ofs - lastofs)
    >> 1); if T(a[m]): lastofs = m + 1 else: ofs = m]. *)
Fixpoint gallop_bisect (fuel : nat) (T : A -> bool) (a : list A)
         (lastofs ofs : nat) : nat :=
  match fuel with
  | 0 => ofs
  | S fuel' =>
      if lastofs <? ofs then
        let m := lastofs + (ofs - lastofs) / 2 in
        match nth_error a m with
        | Some x => if T x then gallop_bisect fuel' T a (S m) ofs
                    else gallop_bisect fuel' T a lastofs m
        | None => ofs
        end
      else ofs
  end.

Definition probe_at (T : A -> bool) (a : list A) (i : nat) : bool :=
  match nth_error a i with
  | Some x => T x
  | None => false
  end.

(** [gallop_left] and [gallop_right] are one search, for the number of
    elements at the front of [a] that satisfy a test [T]: [a[i] < key]
    for [gallop_left], [not (key < a[i])] for [gallop_right].  When
    [a[hint]] satisfies [T] the gallop goes to the right of [hint], else
    to the left; the offsets it ends with are turned into indices of [a]
    and the bisection runs between them. *)
Definition gallop (T : A -> bool) (a : list A) (hint : nat) : nat :=
  let n := length a in
  if probe_at T a hint then
    let maxofs := n - hint in
    let '(lastofs, ofs) :=
      gallop_out maxofs (fun ofs => probe_at T a (hint + ofs)) maxofs 0 1 in
    let ofs := Nat.min ofs maxofs in
    gallop_bisect n T a (lastofs + hint + 1) (ofs + hint)
  else
    let maxofs := hint + 1 in
    let '(lastofs, ofs) :=
      gallop_out maxofs (fun ofs => negb (probe_at T a (hint - ofs)))
                 maxofs 0 1 in
    let ofs := Nat.min ofs maxofs in
    gallop_bisect n T a (hint + 1 - ofs) (hint - lastofs).

Definition gallop_left (key : A) (a : list A) (hint : nat) : nat :=
  gallop (fun x => lt x key) a hint.

Definition gallop_right (key : A) (a : list A) (hint : nat) : nat :=
  gallop (fun x => negb (lt key x)) a hint.

Definition MIN_GALLOP : nat := 7.

(** The two loops of a merge: one pair of elements at a time, counting
    how often in a row each run has won ([acount], [bcount]), or
    galloping. *)
Inductive phase : Type :=
| Linear (acount bcount : nat)
| Galloping.

(** A merge returns the merged run and the new value of
    [ms->min_gallop]; [emit pre r] is [r] with [pre] put before its
    run. *)
Definition emit (pre : list A) (r : list A * nat) : list A * nat :=
  (pre ++ fst r, snd r).

Definition length_is_1 (l : list A) : bool :=
  match l with [_] => true | _ => false end.

Definition is_nil (l : list A) : bool :=
  match l with [] => true | _ => false end.

(** [merge_lo a b] merges from the left: [a] is the run in the
    temporary array, [b] the rest of the right run, and the result the
    elements written to the list.  The C code leaves through [Succeed]
    when [b] is used up (the rest of [a] follows) and through [CopyB]
    when one element of [a] is left (the rest of [b] goes before it).
    [merge_lo_loop] is the function after the first element of [b] has
    been copied; every turn writes an element, so [length a + length b]
    turns are enough. *)
Fixpoint merge_lo_loop (fuel : nat) (ph : phase) (min_gallop ms_min_gallop : nat)
         (a b : list A) : list A * nat :=
  match fuel with
  | 0 => (a ++ b, ms_min_gallop)
  | S fuel' =>
      match ph, a, b with
      | Linear acount bcount, x :: a', y :: b' =>
          if lt y x then
            if is_nil b' then (y :: a, ms_min_gallop)
            else if min_gallop <=? S bcount
            then emit [y] (merge_lo_loop fuel' Galloping (S min_gallop)
                                         ms_min_gallop a b')
            else emit [y] (merge_lo_loop fuel' (Linear 0 (S bcount)) min_gallop
                                         ms_min_gallop a b')
          else
            if length_is_1 a' then (x :: b ++ a', ms_min_gallop)
            else if min_gallop <=? S acount
            then emit [x] (merge_lo_loop fuel' Galloping (S min_gallop)
                                         ms_min_gallop a' b)
            else emit [x] (merge_lo_loop fuel' (Linear (S acount) 0) min_gallop
                                         ms_min_gallop a' b)
      | Galloping, _ :: _, y :: b' =>
          let min_gallop := min_gallop - (if 1 <? min_gallop then 1 else 0) in
          let k := gallop_right y a 0 in
          let out1 := firstn k a in
          let a1 := skipn k a in
          if negb (k =? 0) && length_is_1 a1 then (out1 ++ b ++ a1, min_gallop)
          else if negb (k =? 0) && is_nil a1 then (out1 ++ b, min_gallop)
          else if is_nil b' then (out1 ++ y :: a1, min_gallop)
          else
            match a1 with
            | x :: a1' =>
                let k2 := gallop_left x b' 0 in
                let out2 := firstn k2 b' in
                let b2 := skipn k2 b' in
                if negb (k2 =? 0) && is_nil b2
                then (out1 ++ y :: out2 ++ a1, min_gallop)
                else if length_is_1 a1'
                then (out1 ++ y :: out2 ++ x :: b2 ++ a1', min_gallop)
                else if (MIN_GALLOP <=? k) || (MIN_GALLOP <=? k2)
                then emit (out1 ++ y :: out2 ++ [x])
                          (merge_lo_loop fuel' Galloping min_gallop min_gallop
                                         a1' b2)
                else emit (out1 ++ y :: out2 ++ [x])
                          (merge_lo_loop fuel' (Linear 0 0) (S min_gallop)
                                         (S min_gallop) a1' b2)
            | [] => (out1 ++ b, min_gallop)
            end
      | _, _, _ => (a ++ b, ms_min_gallop)
      end
  end.

Definition merge_lo (a b : list A) (ms_min_gallop : nat) : list A * nat :=
  match b with
  | [] => (a, ms_min_gallop)
  | y :: b' =>
      if is_nil b' then (y :: a, ms_min_gallop)
      else if length_is_1 a then (b ++ a, ms_min_gallop)
      else emit [y] (merge_lo_loop (length a + length b) (Linear 0 0)
                                   ms_min_gallop ms_min_gallop a b')
  end.

(** [merge_hi a b] merges from the right, with [b] in the temporary
    array.  [merge_hi_loop] is the function after the last element of
    [a] has been copied: [ra] and [rb] are what is left of the two runs,
    last element first, and so is the result. *)
Fixpoint merge_hi_loop (fuel : nat) (ph : phase) (min_gallop ms_min_gallop : nat)
         (ra rb : list A) : list A * nat :=
  match fuel with
  | 0 => (rb ++ ra, ms_min_gallop)
  | S fuel' =>
      match ph, ra, rb with
      | Linear acount bcount, x :: ra', y :: rb' =>
          if lt y x then
            if is_nil ra' then (x :: rb, ms_min_gallop)
            else if min_gallop <=? S acount
            then emit [x] (merge_hi_loop fuel' Galloping (S min_gallop)
                                         ms_min_gallop ra' rb)
            else emit [x] (merge_hi_loop fuel' (Linear (S acount) 0) min_gallop
                                         ms_min_gallop ra' rb)
          else
            if length_is_1 rb' then (y :: ra ++ rb', ms_min_gallop)
            else if min_gallop <=? S bcount
            then emit [y] (merge_hi_loop fuel' Galloping (S min_gallop)
                                         ms_min_gallop ra rb')
            else emit [y] (merge_hi_loop fuel' (Linear 0 (S bcount)) min_gallop
                                         ms_min_gallop ra rb')
      | Galloping, _ :: _, y :: rb' =>
          let min_gallop := min_gallop - (if 1 <? min_gallop then 1 else 0) in
          let na := length ra in
          let k := na - gallop_right y (rev ra) (na - 1) in
          let out1 := firstn k ra in
          let ra1 := skipn k ra in
          if negb (k =? 0) && is_nil ra1 then (out1 ++ rb, min_gallop)
          else if length_is_1 rb' then (out1 ++ y :: ra1 ++ rb', min_gallop)
          else
            match ra1 with
            | x :: ra1' =>
                let nb := length rb' in
                let k2 := nb - gallop_left x (rev rb') (nb - 1) in
                let out2 := firstn k2 rb' in
                let rb2 := skipn k2 rb' in
                if negb (k2 =? 0) && length_is_1 rb2
                then (out1 ++ y :: out2 ++ ra1 ++ rb2, min_gallop)
                else if negb (k2 =? 0) && is_nil rb2
                then (out1 ++ y :: out2 ++ ra1, min_gallop)
                else if is_nil ra1'
                then (out1 ++ y :: out2 ++ x :: rb2, min_gallop)
                else if (MIN_GALLOP <=? k) || (MIN_GALLOP <=? k2)
                then emit (out1 ++ y :: out2 ++ [x])
                          (merge_hi_loop fuel' Galloping min_gallop min_gallop
                                         ra1' rb2)
                else emit (out1 ++ y :: out2 ++ [x])
                          (merge_hi_loop fuel' (Linear 0 0) (S min_gallop)
                                         (S min_gallop) ra1' rb2)
            | [] => (out1 ++ rb, min_gallop)
            end
      | _, _, _ => (rb ++ ra, ms_min_gallop)
      end
  end.

Definition merge_hi (a b : list A) (ms_min_gallop : nat) : list A * nat :=
  match rev a with
  | [] => (b, ms_min_gallop)
  | x :: ra' =>
      let rb := rev b in
      let r :=
        if is_nil ra' then (x :: rb, ms_min_gallop)
        else if length_is_1 rb then (x :: ra' ++ rb, ms_min_gallop)
        else emit [x] (merge_hi_loop (length a + length b) (Linear 0 0)
                                     ms_min_gallop ms_min_gallop ra' rb) in
      (rev (fst r), snd r)
  end.

(** [merge_at]: the two runs [a] and [b], adjacent in the list, become
    one.  The elements of [a] that are already in place ([gallop_right]
    of the first element of [b]) and the elements of [b] that are
    already in place ([gallop_left] of the last element of [a]) are left
    out of the merge, which goes from the left when what is left of [a]
    is not longer than what is left of [b]. *)
Definition merge_at (a b : list A) (ms_min_gallop : nat) : list A * nat :=
  match b with
  | [] => (a, ms_min_gallop)
  | y :: _ =>
      let k := gallop_right y a 0 in
      let a1 := skipn k a in
      match rev a1 with
      | [] => (a ++ b, ms_min_gallop)
      | z :: _ =>
          let nb := gallop_left z b (length b - 1) in
          if nb =? 0 then (a ++ b, ms_min_gallop)
          else
            let b1 := firstn nb b in
            let r := if length a1 <=? length b1
                     then merge_lo a1 b1 ms_min_gallop
                     else merge_hi a1 b1 ms_min_gallop in
            (firstn k a ++ fst r ++ skipn nb b, snd r)
      end
  end.

(** [powerloop]: the power of the boundary between a run of [n1]
    elements at index [s1] and the next run of [n2] elements, in a list
    of [n] elements. *)
Fixpoint powerloop_aux (fuel : nat) (a b n result : nat) : nat :=
  match fuel with
  | 0 => result
  | S fuel' =>
      if n <=? a then powerloop_aux fuel' (2 * (a - n)) (2 * (b - n)) n (S result)
      else if n <=? b then S result
      else powerloop_aux fuel' (2 * a) (2 * b) n (S result)
  end.

Definition powerloop (s1 n1 n2 n : nat) : nat :=
  powerloop_aux (S n) (2 * s1 + n1) (2 * s1 + n1 + n1 + n2) n 0.

(** The pending runs, the last one first, each with its power. *)
Definition pending : Type := list (list A * nat).

Definition pending_length (p : pending) : nat :=
  fold_right (fun r n => length (fst r) + n) 0 p.

(** [found_new_run]: before a new run of [n2] elements is pushed, the
    runs whose power is above the power of the new boundary are merged;
    the last run then gets that power. *)
Fixpoint collapse (fuel : nat) (power : nat) (p : pending) (mg : nat)
  : pending * nat :=
  match fuel with
  | 0 => (p, mg)
  | S fuel' =>
      match p with
      | (r1, _) :: (r2, p2) :: rest =>
          if power <? p2 then
            let '(m, mg') := merge_at r2 r1 mg in
            collapse fuel' power ((m, p2) :: rest) mg'
          else (p, mg)
      | _ => (p, mg)
      end
  end.

Definition found_new_run (listlen : nat) (p : pending) (mg : nat) (n2 : nat)
  : pending * nat :=
  match p with
  | [] => (p, mg)
  | (r1, _) :: rest =>
      let power := powerloop (pending_length rest) (length r1) n2 listlen in
      let '(p', mg') := collapse (length p) power p mg in
      match p' with
      | (r, _) :: rest' => ((r, power) :: rest', mg')
      | [] => (p', mg')
      end
  end.

(** [merge_force_collapse]: the runs that are left are merged, the last
    two first unless the third from the end is shorter than the last. *)
Fixpoint merge_force_collapse (fuel : nat) (p : pending) (mg : nat) : pending :=
  match fuel with
  | 0 => p
  | S fuel' =>
      match p with
      | (r1, p1) :: (r2, p2) :: rest =>
          match rest with
          | (r3, p3) :: rest' =>
              if length r3 <? length r1 then
                let '(m, mg') := merge_at r3 r2 mg in
                merge_force_collapse fuel' ((r1, p1) :: (m, p3) :: rest') mg'
              else
                let '(m, mg') := merge_at r2 r1 mg in
                merge_force_collapse fuel' ((m, p2) :: rest) mg'
          | [] =>
              let '(m, mg') := merge_at r2 r1 mg in
              merge_force_collapse fuel' ((m, p2) :: rest) mg'
          end
      | _ => p
      end
  end.

(** [merge_compute_minrun]: [while n >= 64: r |= n & 1; n >>= 1], then
    [n + r]. *)
Fixpoint merge_compute_minrun_aux (fuel n r : nat) : nat :=
  match fuel with
  | 0 => n + r
  | S fuel' =>
      if 64 <=? n
      then merge_compute_minrun_aux fuel' (n / 2) (if Nat.odd n then 1 else r)
      else n + r
  end.

Definition merge_compute_minrun (n : nat) : nat :=
  merge_compute_minrun_aux n n 0.

(** The loop of [list.sort] over [rest], what is left of the list: the
    next run is counted, reversed if it is descending, extended by
    [binarysort] to [minrun] elements (or to the end of the list) if it
    is shorter, and pushed on the pending runs.  Every turn takes an
    element at least, so [length l] turns are enough. *)
Fixpoint sort_runs (fuel : nat) (listlen minrun : nat) (p : pending) (mg : nat)
         (rest : list A) : pending * nat :=
  match fuel with
  | 0 => ((rest, 0) :: p, mg)
  | S fuel' =>
      match rest with
      | [] => (p, mg)
      | _ =>
          let '(n, descending) := count_run rest in
          let run := firstn n rest in
          let run := if descending then rev run else run in
          let force := Nat.min (length rest) minrun in
          let n' := if n <? minrun then force else n in
          let run := if n <? minrun
                     then binarysort run (firstn (force - n) (skipn n rest))
                     else run in
          let '(p', mg') := found_new_run listlen p mg n' in
          sort_runs fuel' listlen minrun ((run, 0) :: p') mg' (skipn n' rest)
      end
  end.

(** [list.sort()]: a list of fewer than two elements is left as it is. *)
Definition list_sort (l : list A) : list A :=
  if length l <? 2 then l
  else
    let n := length l in
    let '(p, mg) := sort_runs (S n) n (merge_compute_minrun n) [] MIN_GALLOP l in
    let p := merge_force_collapse (length p) p mg in
    concat (rev (map fst p)).

(** [sorted(l, reverse=True)] *)
Definition sorted_reverse (l : list A) : list A := rev (list_sort (rev l)).
End Sorting.

(* ================================================================== *)
(** ** The program *)

Definition NOT_FOUND : str := chars "NOT_FOUND".

(** The dictionaries appended to [items]. *)
Record item : Type := mkitem {
  Item_Code : str;
  Quantity : Z;
  Unit_Price : float;
  Line_Total : float;
  GL_Code : Db.cell;
  GL_Description : str
}.

(** Truth value of a match object. *)
Definition matched (m : option str) : bool :=
  match m with Some _ => true | None => false end.

(** The test of line 116: the part is kept as a number. *)
Definition is_numeric_token (part : str) : bool :=
  matched (re_match decimal_re part) || matched (re_match integer_re part).

(** Lines 105-108: the code of a line that starts like an item line. *)
Definition item_code_of (line : str) : option str :=
  match re_match item_code_re line with
  | Some item_code =>
      Some (if List.length item_code <? 8 then zfill item_code 8
            else item_code)
  | None => None
  end.

(** Lines 114-117. *)
Definition numbers_of (line : str) : list str :=
  filter is_numeric_token (split line).

(** Lines 130-136. *)
Definition lookup (db : Db.table) (item_code : str) : Db.cell * str :=
  match Db.select db item_code with
  | [] => (Db.CStr NOT_FOUND, NOT_FOUND)
  | r :: _ => (Db.GL_Code r, Db.GL_Description r)
  end.

(** Lines 125-146: the body of the [try]. *)
Definition line_item (db : Db.table) (item_code : str) (numbers : list str)
  : result item :=
  n1 <- index numbers 1 ;;
  f1 <- Float64.of_str n1 ;;
  qty <- Float64.to_int f1 ;;
  n3 <- index numbers 3 ;;
  unit_price <- Float64.of_str n3 ;;
  fq <- Float64.of_int qty ;;
  let line_total := Float64.round2 (Float64.mul fq unit_price) in
  let '(gl_code, gl_desc) := lookup db item_code in
  Ok (mkitem item_code qty unit_price line_total gl_code gl_desc).

(** Lines 103-148: one turn of the loop over the lines.  [IndexError] and
    [ValueError] are swallowed by the handler of line 147; any other
    exception leaves the loop. *)
Definition process_line (db : Db.table) (items : list item) (line : str)
  : result (list item) :=
  match item_code_of line with
  | None => Ok items
  | Some item_code =>
      let numbers := numbers_of line in
      if List.length numbers <? 4 then Ok items
      else match line_item db item_code numbers with
           | Ok it => Ok (items ++ [it])
           | Raise IndexError | Raise ValueError => Ok items
           | Raise e => Raise e
           end
  end.

Fixpoint process_lines (db : Db.table) (items : list item) (lines : list str)
  : result (list item) :=
  match lines with
  | [] => Ok items
  | line :: rest =>
      items' <- process_line db items line ;;
      process_lines db items' rest
  end.

(** The variables the loop over the pages updates. *)
Record state : Type := mkstate {
  items : list item;
  invoice_number : option str;
  tariff_amount : float;
  fuel_surcharge : float;
  gst_hst_vat : float
}.

Definition initial : state :=
  mkstate [] None Float64.zero Float64.zero Float64.zero.

(** [not invoice_number] *)
Definition unset (v : option str) : bool :=
  match v with
  | None | Some [] => true
  | Some _ => false
  end.

(** Lines 93-97. *)
Definition extract_invoice_number (page_num : nat) (text : str)
           (invoice_number : option str) : option str :=
  if (page_num =? 0) && unset invoice_number
  then match re_search invoice_re text with
       | Some g => Some g
       | None => invoice_number
       end
  else invoice_number.

(** Lines 153-155 and 168-170: [float] of the group when the pattern is
    found, else the value is left as it is. *)
Definition extract_amount (re : regex) (text : str) (current : float)
  : result float :=
  match re_search re text with
  | Some g => Float64.of_str g
  | None => Ok current
  end.

(** Lines 158-165. *)
Definition extract_fuel_surcharge (text : str) (current : float)
  : result float :=
  match re_search fuel_re text with
  | Some g => Float64.of_str g
  | None =>
      match re_search fuel_alt_re text with
      | Some g => Float64.of_str g
      | None => Ok current
      end
  end.

(** Lines 89-170: one turn of the loop over the pages. *)
Definition process_page (db : Db.table) (n_pages : nat) (st : state)
           (page_num : nat) (text : str) : result state :=
  let inv := extract_invoice_number page_num text (invoice_number st) in
  its <- process_lines db (items st) (split_on "010" text) ;;
  if page_num =? n_pages - 1
  then
    tariff <- extract_amount tariff_re text (tariff_amount st) ;;
    fuel <- extract_fuel_surcharge text (fuel_surcharge st) ;;
    gst <- extract_amount gst_re text (gst_hst_vat st) ;;
    Ok (mkstate its inv tariff fuel gst)
  else Ok (mkstate its inv (tariff_amount st) (fuel_surcharge st)
                   (gst_hst_vat st)).

Fixpoint process_pages (db : Db.table) (n_pages : nat) (st : state)
         (page_num : nat) (pages : list str) : result state :=
  match pages with
  | [] => Ok st
  | text :: rest =>
      st' <- process_page db n_pages st page_num text ;;
      process_pages db n_pages st' (S page_num) rest
  end.

(** Lines 76-174. *)
Definition extract (db : Db.table) (pages : list str) : result state :=
  process_pages db (List.length pages) initial 0 pages.

(** *** The summary (lines 190-207)

    The two loops are written once for any item type and any arithmetic,
    and used by the program with its items and with binary64. *)

Section Grouping.
Variables I T : Type.
Variable key : I -> str.        (* item['GL Description'] *)
Variable amount : I -> T.       (* item['Line Total'] *)
Variable add : T -> T -> T.     (* + *)
Variable zero : T.              (* the 0 the sums start from *)

(** A dict with text keys, in insertion order. *)
Definition dict := list (str * T).

(** [d.get(k, default)] *)
Fixpoint get (d : dict) (k : str) (default : T) : T :=
  match d with
  | [] => default
  | (k', v) :: d' => if Str.eqb k' k then v else get d' k default
  end.

(** [d[k] = v]: an existing key keeps its place. *)
Fixpoint set (d : dict) (k : str) (v : T) : dict :=
  match d with
  | [] => [(k, v)]
  | (k', v') :: d' =>
      if Str.eqb k' k then (k', v) :: d' else (k', v') :: set d' k v
  end.

(** Lines 191-194. *)
Definition group_sums (items : list I) : dict :=
  fold_left
    (fun summary it =>
       set summary (key it) (add (get summary (key it) zero) (amount it)))
    items [].

(** Lines 199-202: [total_amount] after the loop. *)
Definition total_of (groups : dict) : T :=
  fold_left (fun total_amount g => add total_amount (snd g)) groups zero.
End Grouping.

(** The dict [summary] of the program. *)
Definition summarize (items : list item) : dict float :=
  group_sums GL_Description Line_Total Float64.add Float64.zero items.

(** [sorted(summary.items(), key=lambda x: x[1], reverse=True)] *)
Definition by_amount (x y : str * float) : bool :=
  Float64.ltb (snd x) (snd y).

Definition sorted_summary (summary : dict float) : dict float :=
  sorted_reverse by_amount summary.

(** What the program prints after the extraction.  [Total_Amount] is the
    "Total Amount" line and [Grand_Total] the "Grand Total" line, which
    includes the charges. *)
Record report : Type := mkreport {
  rep_items : list item;
  rep_invoice_number : option str;
  rep_tariff_amount : float;
  rep_fuel_surcharge : float;
  rep_gst_hst_vat : float;
  Summary : dict float;
  Total_Amount : float;
  Additional_Charges : float;
  Grand_Total : float
}.

Definition summary_report (st : state) : report :=
  let groups := sorted_summary (summarize (items st)) in
  let total_amount := total_of Float64.add Float64.zero groups in
  let t := tariff_amount st in
  let f := fuel_surcharge st in
  let g := gst_hst_vat st in
  mkreport (items st) (invoice_number st) t f g groups total_amount
           (Float64.add (Float64.add t f) g)
           (Float64.add (Float64.add (Float64.add total_amount t) f) g).

(** The whole function, once the table is loaded and the pages are read:
    an exception during the extraction ends it without a report. *)
Definition process_tdl_invoice (db : Db.table) (pages : list str)
  : result report :=
  st <- extract (Db.astype_str db) pages ;;
  Ok (summary_report st).

(* ================================================================== *)
(** ** Notions used in the statements *)

(** [n] respects the upper bound of a quantifier. *)
Definition within (hi : option nat) (n : nat) : Prop :=
  match hi with Some h => n <= h | None => True end.

(** The digits a text starts with. *)
Fixpoint digit_run (s : str) : str :=
  match s with
  | c :: s' => if isdigit c then c :: digit_run s' else []
  | [] => []
  end.

(** The texts of the pattern [\d+]. *)
Definition integer_literal (t : str) : Prop :=
  t <> [] /\ forallb isdigit t = true.

(** The texts of the pattern [\d+\.\d*]. *)
Definition decimal_literal (t : str) : Prop :=
  exists a b, t = a ++ "."%char :: b /\ a <> [] /\
              forallb isdigit a = true /\ forallb isdigit b = true.

(** A text without whitespace, as [split] produces them. *)
Definition is_token (t : str) : Prop :=
  forallb (fun c => negb (isspace c)) t = true.

(** The characters of a sign, a thousands separator and an exponent. *)
Definition sign_or_separator (c : ascii) : Prop :=
  In c ["+"; "-"; ","; "e"; "E"]%char.

(** A binary64 value that is not negative and not NaN: [+0.0], [+inf],
    or a positive number with a mantissa of at most 53 bits and an
    exponent of at most 971. *)
Definition nonneg (x : float) : Prop :=
  match x with
  | S754_zero false | S754_infinity false => True
  | S754_finite false m e =>
      (Zpos (digits2_pos m) <= Float64.prec)%Z
      /\ (e <= Float64.emax - Float64.prec)%Z
  | _ => False
  end.

(** Some binary64 values, as mantissa and exponent. *)
Definition f_2_50 : float := S754_finite false 5629499534213120 (-51).
Definition f_25_00 : float := S754_finite false 7036874417766400 (-48).
Definition f_3_75 : float := S754_finite false 8444249301319680 (-51).
Definition f_4_20 : float := S754_finite false 4728779608739021 (-50).

(** The line of scenario A. *)
Definition scenario_A : str := chars "00012345   10   0.00   2.50   25.00".

(** The digits of 2 * 10^308, a number above the binary64 range. *)
Definition huge : str := "2"%char :: repeat "0"%char 308.

(** An item line with the quantity [huge]. *)
Definition huge_line : str := chars "12345 " ++ huge ++ chars " 1 1.50".

(** The keys of a list in the order of their first occurrence. *)
Definition first_seen (l : list str) : list str :=
  fold_left
    (fun acc k => if existsb (Str.eqb k) acc then acc else acc ++ [k]) l [].

(** The position of the first occurrence of [k] in [l]. *)
Fixpoint first_index (k : str) (l : list str) : nat :=
  match l with
  | [] => 0
  | x :: l' => if Str.eqb x k then 0 else S (first_index k l')
  end.

(** The amounts of the items with the key [k], added one after the other
    in item order, starting from zero. *)
Definition group_total (I T : Type) (key : I -> str) (amount : I -> T)
           (add : T -> T -> T) (zero : T) (k : str) (items : list I) : T :=
  fold_left add
            (map amount (filter (fun it => Str.eqb (key it) k) items)) zero.

(** The sum of the line totals of the items described by [k]. *)
Definition line_total_of (k : str) (items : list item) : float :=
  group_total GL_Description Line_Total Float64.add Float64.zero k items.

Definition f_10_00 : float := S754_finite false 5629499534213120 (-49).
Definition f_15_00 : float := S754_finite false 8444249301319680 (-49).

(** Scenario F with a tie: Food 10.00 + 15.00 and Paper 25.00. *)
Definition scenario_F : list item :=
  [mkitem (chars "00000001") 1 f_10_00 f_10_00 (Db.CInt 5000) (chars "Food");
   mkitem (chars "00000002") 1 f_25_00 f_25_00 (Db.CInt 6000) (chars "Paper");
   mkitem (chars "00000003") 1 f_15_00 f_15_00 (Db.CInt 5000) (chars "Food")].

(** A table that holds its item codes as numbers of eight digits. *)
Definition ledger_db : Db.table :=
  [Db.mkrow (Db.CInt 10000001) (Db.CInt 5000) (chars "Food");
   Db.mkrow (Db.CInt 10000002) (Db.CInt 6000) (chars "Paper");
   Db.mkrow (Db.CInt 10000003) (Db.CInt 7000) (chars "Other")].

(** A page of item lines. *)
Definition page_of (lines : list str) : str :=
  concat (map (fun line => line ++ ["010"%char]) lines).

(** Food 10.00 + 15.00, Paper 25.00 and Other 40.00. *)
Definition tie_page : str :=
  page_of [chars "10000001 1 0.00 10.00 10.00";
           chars "10000002 1 0.00 25.00 25.00";
           chars "10000003 2 0.00 20.00 40.00";
           chars "10000001 1 0.00 15.00 15.00"].

(** Food 1.00, Paper with the quantity 0 and the unit price [huge], and
    Other 2.00. *)
Definition nan_page : str :=
  page_of [chars "10000001 1 0.00 1.00 1.00";
           chars "10000002 0 0.00 " ++ huge ++ chars " 0.00";
           chars "10000003 1 0.00 2.00 2.00"].

Definition f_1_00 : float := S754_finite false 4503599627370496 (-52).
Definition f_2_00 : float := S754_finite false 4503599627370496 (-51).
Definition f_40_00 : float := S754_finite false 5629499534213120 (-47).

(** [x] may stand before [y] in the result of a stable ascending sort of
    a list whose elements come in the order [first]: [y] is not smaller,
    and if [x] is not smaller either, [x] came first. *)
Definition ascending_stable (A : Type) (lt : A -> A -> bool)
           (first : A -> A -> Prop) (x y : A) : Prop :=
  lt y x = false /\ (lt x y = false -> first x y).

(** The line total of an item is an amount whenever its unit price is
    within the binary64 range. *)
Definition amount_ok (it : item) : Prop :=
  Float64.is_finite (Unit_Price it) = true -> nonneg (Line_Total it).

(** Case analysis for the comparisons of binary64 values. *)
Ltac float_cases :=
  unfold Float64.ltb, Float64.leb, Float64.eqb, SFltb, SFleb, SFeqb,
    SFcompare;
  repeat match goal with
         | x : float |- _ => destruct x as [[|]|[|]| |[|] ? ?]
         | x : spec_float |- _ => destruct x as [[|]|[|]| |[|] ? ?]
         end;
  simpl; try discriminate; try reflexivity;
  repeat match goal with
         | |- context [Z.compare ?x ?y] => destruct (Z.compare_spec x y)
         | |- context [Pos.compare_cont Eq ?x ?y] =>
             change (Pos.compare_cont Eq x y) with (Pos.compare x y);
             destruct (Pos.compare_spec x y)
         end;
  simpl; intros; try discriminate; try reflexivity; try lia.

(** *** Notions used in the further properties *)

(** All the lines of all the pages, in document order. *)
Definition all_lines (pages : list str) : list str :=
  concat (map (split_on "010") pages).

(** A line the loop builds an item from: it starts like an item line and
    has at least 4 numbers. *)
Definition is_item_line (line : str) : bool :=
  match item_code_of line with
  | Some _ => 4 <=? List.length (numbers_of line)
  | None => false
  end.

(** The item codes of the item lines, one per line, in order. *)
Definition codes_of_lines (lines : list str) : list str :=
  flat_map (fun line => match item_code_of line with
                        | Some item_code => [item_code]
                        | None => []
                        end)
           (filter is_item_line lines).

(** [float(numbers[1])] is an infinity: the 2nd number of the line is
    beyond the binary64 range. *)
Definition quantity_overflows (line : str) : bool :=
  match nth_error (numbers_of line) 1 with
  | Some n1 => match Float64.of_str n1 with
               | Ok (S754_infinity _) => true
               | _ => false
               end
  | None => false
  end.

(** [it] is the item lines 125-146 build from [line]. *)
Definition item_of (db : Db.table) (line : str) (it : item) : Prop :=
  exists item_code, item_code_of line = Some item_code /\
                    line_item db item_code (numbers_of line) = Ok it.

(** What every item of a report satisfies. *)
Definition item_wf (it : item) : Prop :=
  List.length (Item_Code it) = 8
  /\ forallb isdigit (Item_Code it) = true
  /\ (0 <= Quantity it)%Z
  /\ nonneg (Unit_Price it)
  /\ exists fq, Float64.of_int (Quantity it) = Ok fq /\
                Line_Total it
                = Float64.round2 (Float64.mul fq (Unit_Price it)).

(** A binary64 value that is an amount or NaN: never negative, never
    [-0.0]. *)
Definition nonneg_or_nan (x : float) : Prop := x = S754_nan \/ nonneg x.

(** Two pages, and the same lines on one page. *)
Definition first_page : str :=
  chars "Invoice Number: 77" ++ "010"%char :: scenario_A.

Definition last_page : str :=
  chars "12345 3 0 1.50 4.50" ++ "010"%char :: chars "Fuel Surcharge 4.20".

Definition two_pages : list str := [first_page; last_page].

Definition one_page : list str :=
  [chars "Invoice Number: 77" ++ "010"%char :: scenario_A
   ++ "010"%char :: chars "12345 3 0 1.50 4.50" ++ "010"%char
     :: chars "Fuel Surcharge 4.20"].

(** A table whose first row holds the code as a number. *)
Definition sample_db : Db.table :=
  [Db.mkrow (Db.CInt 12345) (Db.CInt 4000) (chars "Number");
   Db.mkrow (Db.CStr (chars "00012345")) (Db.CInt 5000) (chars "Food")].

(** *** Notions used in the properties of the totals *)

(** [float(n)] for an [int] within the binary64 range. *)
Definition exact_int (n : Z) : float :=
  binary_normalize Float64.prec Float64.emax n 0 false.

(** Whole amounts: Food 25.00 + 3.00 and Paper 12.00, with a fuel
    surcharge. *)
Definition whole_page : str :=
  page_of [chars "10000001 10 0.00 2.50 25.00";
           chars "10000002 3 0.00 4.00 12.00";
           chars "10000001 2 0.00 1.50 3.00";
           chars "Fuel Surcharge 4.20"].

(** 0.10, 0.20 and 0.30 in one group. *)
Definition food_page : str :=
  page_of [chars "10000001 1 0.00 0.10 0.10";
           chars "10000001 1 0.00 0.20 0.20";
           chars "10000001 1 0.00 0.30 0.30"].

(** 0.10, 0.20 and 0.30 in three groups. *)
Definition drift_page : str :=
  page_of [chars "10000001 1 0.00 0.10 0.10";
           chars "10000002 1 0.00 0.20 0.20";
           chars "10000003 1 0.00 0.30 0.30"].

(** Paper 1.00, Food 10^16, Paper 1.00. *)
Definition absorb_page : str :=
  page_of [chars "10000002 1 0.00 1.00 1.00";
           chars "10000001 1 0.00 10000000000000000 0.00";
           chars "10000002 1 0.00 1.00 1.00"].

(** The largest binary64 number, and three quarters of the half of its
    last place. *)
Definition f_12_00 : float := S754_finite false 6755399441055744 (-49).

Definition max_float : Z := 2 ^ 1024 - 2 ^ 971.
Definition small_part : Z := 3 * 2 ^ 968.

(** Paper [small_part], Food [max_float], Paper [small_part]. *)
Definition overflow_page : str :=
  page_of [chars "10000002 1 0.00 " ++ Str.of_int small_part ++ chars " 0.00";
           chars "10000001 1 0.00 " ++ Str.of_int max_float ++ chars " 0.00";
           chars "10000002 1 0.00 " ++ Str.of_int small_part ++ chars " 0.00"].

(** Paper [small_part], Other [small_part], Food [max_float]. *)
Definition overflow_items_page : str :=
  page_of [chars "10000002 1 0.00 " ++ Str.of_int small_part ++ chars " 0.00";
           chars "10000003 1 0.00 " ++ Str.of_int small_part ++ chars " 0.00";
           chars "10000001 1 0.00 " ++ Str.of_int max_float ++ chars " 0.00"].

(** *** Notions used in the properties of the sort *)

(** Keys for examples: the numbers from 1 on stand for floats, and 0
    for NaN, which is not smaller than any key and has no smaller
    key. *)
Definition nan_lt (x y : nat) : bool :=
  negb (x =? 0) && negb (y =? 0) && (x <? y).

Definition nan_keys (n : nat) : list nat :=
  map (fun i => if i mod 9 =? 4 then 0 else (i * 37) mod 101 + 1) (seq 0 n).

Definition f_3_00 : float := S754_finite false 6755399441055744 (-51).

Section SortingNotions.
Variable A : Type.
Variable lt : A -> A -> bool.
Variable ok : A -> Prop.
Variable first : A -> A -> Prop.
Variable R : A -> A -> Prop.

Definition single (x : A) : list A := [x].

(** The list the pending runs stand for. *)
Definition flat (p : pending A) : list A := concat (rev (map fst p)).

(** [c] is made of [a] and [b], each in its order, and every element
    that stands before an element of the other list may do so. *)
Inductive vmerge : list A -> list A -> list A -> Prop :=
| vm_nil_l b : vmerge [] b b
| vm_nil_r a : vmerge a [] a
| vm_a x a b c :
    (forall y, In y b -> R x y) -> vmerge a b c -> vmerge (x :: a) b (x :: c)
| vm_b y a b c :
    (forall x, In x a -> R y x) -> vmerge a b c -> vmerge a (y :: b) (y :: c).

(** Every element of [a] came before every element of [b]. *)
Definition cross (a b : list A) : Prop :=
  forall x y, In x a -> In y b -> first x y.

(** The last element of [a] is above all of [b]. *)
Definition last_above (a b : list A) : Prop :=
  forall a0 z, a = a0 ++ [z] -> forall y, In y b -> lt y z = true.

(** The first element of [b] is below all of [a]. *)
Definition first_below (a b : list A) : Prop :=
  forall y b0, b = y :: b0 -> forall x, In x a -> lt y x = true.

(** The same for two runs given from their ends. *)
Definition cross' (ra rb : list A) : Prop :=
  forall x y, In x ra -> In y rb -> first x y.

Definition first_below' (ra rb : list A) : Prop :=
  forall rb0 y1, rb = rb0 ++ [y1] -> forall x, In x ra -> lt y1 x = true.

(** Every pending run is sorted, and the runs follow each other as in
    the list to sort. *)
Definition runs_ok (p : pending A) : Prop :=
  Forall (fun r => ForallOrdPairs (ascending_stable lt first) (fst r) /\
                   Forall ok (fst r)) p /\
  ForallOrdPairs (fun later earlier => cross (fst earlier) (fst later)) p.
End SortingNotions.

(* ================================================================== *)
(** * Properties *)

(** ** Characters *)

Lemma isdigit_not_space c : isdigit c = true -> isspace c = false.
Proof.
  unfold isdigit, isspace. intros H.
  apply andb_true_iff in H as [H1 H2].
  apply Nat.leb_le in H1. apply Nat.leb_le in H2.
  repeat rewrite orb_false_iff. repeat rewrite andb_false_iff.
  repeat rewrite Nat.leb_gt. repeat rewrite Nat.eqb_neq. lia.
Qed.

Lemma isspace_not_digit c : isspace c = true -> isdigit c = false.
Proof.
  intros H. destruct (isdigit c) eqn:E; [|reflexivity].
  apply isdigit_not_space in E. congruence.
Qed.

Lemma str_eqb_eq a b : Str.eqb a b = true <-> a = b.
Proof.
  unfold Str.eqb. destruct (list_eq_dec ascii_dec a b); split; congruence.
Qed.

Lemma str_eqb_refl a : Str.eqb a a = true.
Proof. apply str_eqb_eq. reflexivity. Qed.

Lemma str_eqb_neq a b : Str.eqb a b = false <-> a <> b.
Proof.
  unfold Str.eqb. destruct (list_eq_dec ascii_dec a b); split; congruence.
Qed.

(** ** The matcher *)

Section RepFacts.
Variable R : Type.
Implicit Types (k : nat -> str -> option R) (u v s : str).

Lemma rep_zero a k p s : rep a 0 (Some 0) k p s = k p s.
Proof. destruct s; simpl; [reflexivity|]. now rewrite andb_false_r. Qed.

Lemma rep_one a k p s :
  rep a 1 (Some 1) k p s =
  match s with
  | c :: s' => if atom_matches a c then k (S p) s' else None
  | [] => None
  end.
Proof.
  destruct s as [|c s']; simpl; [reflexivity|].
  rewrite andb_true_r. destruct (atom_matches a c); [|reflexivity].
  rewrite rep_zero. now destruct (k (S p) s').
Qed.

(** A successful quantifier took a run [u] of matching characters, of a
    length within its bounds, and the continuation succeeded behind
    it. *)
Lemma rep_sound a k s : forall lo hi p r,
  rep a lo hi k p s = Some r ->
  exists u v, s = u ++ v /\ forallb (atom_matches a) u = true /\
              lo <= List.length u /\ within hi (List.length u) /\
              k (p + List.length u) v = Some r.
Proof.
  induction s as [|c s IH]; intros lo hi p r H; simpl in H.
  - destruct lo; [|discriminate].
    exists [], []. simpl. rewrite Nat.add_0_r.
    repeat split; auto. destruct hi; simpl; lia.
  - assert (Hstop : match lo with 0 => k p (c :: s) | S _ => None end
                    = Some r ->
            exists u v, c :: s = u ++ v /\
              forallb (atom_matches a) u = true /\
              lo <= List.length u /\ within hi (List.length u) /\
              k (p + List.length u) v = Some r).
    { intros E. destruct lo; [|discriminate].
      exists [], (c :: s). simpl. rewrite Nat.add_0_r.
      repeat split; auto. destruct hi; simpl; lia. }
    destruct (atom_matches a c && may_take hi) eqn:E; [|auto].
    apply andb_true_iff in E as [Ec Eh].
    destruct (rep a (pred lo) (option_map pred hi) k (S p) s) eqn:E';
      [|auto].
    injection H as ->.
    apply IH in E' as (u & v & -> & Hu & Hlo & Hhi & Hk).
    exists (c :: u), v. simpl. rewrite Ec, Hu.
    replace (p + S (List.length u)) with (S p + List.length u) by lia.
    repeat split; auto; [lia|].
    destruct hi as [[|h]|]; simpl in *; try discriminate; auto; lia.
Qed.

(** Any admissible run behind which the continuation succeeds makes the
    quantifier succeed (with that run or a longer one). *)
Lemma rep_complete a k u : forall v lo hi p,
  forallb (atom_matches a) u = true ->
  lo <= List.length u -> within hi (List.length u) ->
  k (p + List.length u) v <> None ->
  rep a lo hi k p (u ++ v) <> None.
Proof.
  induction u as [|c u IH]; intros v lo hi p Hu Hlo Hhi Hk; simpl in *.
  - rewrite Nat.add_0_r in Hk.
    assert (lo = 0) as -> by lia.
    destruct v as [|c v]; simpl; [assumption|].
    destruct (atom_matches a c && may_take hi); [|assumption].
    destruct (rep a 0 (option_map pred hi) k (S p) v); congruence.
  - apply andb_true_iff in Hu as [Hc Hu]. rewrite Hc. simpl.
    assert (may_take hi = true) as ->.
    { destruct hi as [[|h]|]; simpl in *; auto; lia. }
    pose proof (IH v (pred lo) (option_map pred hi) (S p) Hu) as IH'.
    destruct (rep a (pred lo) (option_map pred hi) k (S p) (u ++ v));
      [congruence|].
    exfalso. apply IH'; auto; [lia| |].
    + destruct hi as [h|]; simpl in *; auto; lia.
    + now replace (S p + List.length u) with (p + S (List.length u)) by lia.
Qed.
End RepFacts.

(** ** Item codes (C4) *)

Lemma digit_run_app u c v :
  forallb isdigit u = true -> isdigit c = false ->
  digit_run (u ++ c :: v) = u.
Proof.
  intros Hu Hc. induction u as [|d u IH]; simpl in *.
  - now rewrite Hc.
  - apply andb_true_iff in Hu as [Hd Hu]. rewrite Hd. f_equal. auto.
Qed.

Lemma slice_prefix (u v : str) : slice (u ++ v) 0 (List.length u) = u.
Proof.
  unfold slice. simpl. rewrite Nat.sub_0_r, firstn_app, Nat.sub_diag.
  simpl. rewrite firstn_all. apply app_nil_r.
Qed.

(** What a match of [^(\d{5,8})\s] says about the line. *)
Lemma item_code_re_sound line g :
  exec item_code_re (0, 0) 0 line = Some g ->
  exists u c v, line = u ++ c :: v /\ forallb isdigit u = true /\
                5 <= List.length u <= 8 /\ isspace c = true /\
                g = (0, List.length u).
Proof.
  unfold item_code_re. simpl. intros H.
  apply rep_sound in H as (u & v & -> & Hu & Hlo & Hhi & Hk).
  simpl in Hhi, Hk. unfold one in Hk. rewrite rep_one in Hk.
  destruct v as [|c v]; [discriminate|].
  simpl in Hk. destruct (isspace c) eqn:Hc; [|discriminate].
  exists u, c, v. repeat split; auto. congruence.
Qed.

Lemma item_code_re_complete u c v :
  forallb isdigit u = true -> 5 <= List.length u <= 8 ->
  isspace c = true ->
  exec item_code_re (0, 0) 0 (u ++ c :: v) <> None.
Proof.
  intros Hu Hlen Hc. unfold item_code_re. simpl.
  apply rep_complete.
  - exact Hu.
  - lia.
  - simpl. lia.
  - cbn [exec one]. rewrite rep_one. simpl. rewrite Hc. discriminate.
Qed.

(** [re.match(r'^(\d{5,8})\s', line)] succeeds exactly on the lines whose
    leading digits number 5 to 8 and are followed by whitespace, and its
    group is that run of digits. *)
Lemma item_code_match line d :
  re_match item_code_re line = Some d <->
  d = digit_run line /\ 5 <= List.length d <= 8 /\
  exists c v, line = d ++ c :: v /\ isspace c = true.
Proof.
  unfold re_match. split.
  - destruct (exec item_code_re (0, 0) 0 line) as [[b e]|] eqn:E;
      [|discriminate].
    apply item_code_re_sound in E as (u & c & v & -> & Hu & Hlen & Hc & Hg).
    injection Hg as -> ->. rewrite slice_prefix. intros [= <-].
    rewrite digit_run_app; auto using isspace_not_digit. eauto 6.
  - intros (Hd & Hlen & c & v & Hline & Hc).
    assert (Hu : forallb isdigit d = true).
    { rewrite Hd. clear. induction line as [|x l IH]; simpl; auto.
      destruct (isdigit x) eqn:E; simpl; auto. now rewrite E. }
    pose proof (@item_code_re_complete d c v Hu Hlen Hc) as Hne.
    rewrite <- Hline in Hne.
    destruct (exec item_code_re (0, 0) 0 line) as [[b e]|] eqn:E;
      [|congruence].
    apply item_code_re_sound in E as (u' & c' & v' & E1 & Hu' & _ & Hc' & Hg).
    injection Hg as -> ->. f_equal.
    rewrite E1 at 1. rewrite slice_prefix.
    rewrite Hd, E1. apply eq_sym, digit_run_app; auto using isspace_not_digit.
Qed.

Lemma digit_not_sign c s :
  isdigit c = true ->
  zfill (c :: s) 8 = repeat "0"%char (8 - List.length (c :: s)) ++ c :: s.
Proof.
  intros H. unfold zfill.
  destruct (Ascii.eqb c "+") eqn:E1.
  { apply Ascii.eqb_eq in E1. subst. discriminate. }
  destruct (Ascii.eqb c "-") eqn:E2.
  { apply Ascii.eqb_eq in E2. subst. discriminate. }
  reflexivity.
Qed.

(** The code the program builds for a line that starts like an item. *)
Lemma item_code_of_digits d c rest :
  forallb isdigit d = true -> 5 <= List.length d <= 8 ->
  isspace c = true ->
  item_code_of (d ++ c :: rest)
  = Some (repeat "0"%char (8 - List.length d) ++ d).
Proof.
  intros Hd Hlen Hc. unfold item_code_of.
  assert (E : re_match item_code_re (d ++ c :: rest) = Some d).
  { apply item_code_match. split; [|split; eauto].
    symmetry. apply digit_run_app; auto using isspace_not_digit. }
  rewrite E. f_equal.
  destruct (List.length d <? 8) eqn:E8.
  - destruct d as [|x d]; [simpl in Hlen; lia|].
    simpl in Hd. apply andb_true_iff in Hd as [Hx _].
    now apply digit_not_sign.
  - apply Nat.ltb_ge in E8. now replace (8 - List.length d) with 0 by lia.
Qed.

Lemma item_code_of_none line :
  List.length (digit_run line) < 5 \/ 8 < List.length (digit_run line) ->
  item_code_of line = None.
Proof.
  intros H. unfold item_code_of.
  destruct (re_match item_code_re line) as [d|] eqn:E; [|reflexivity].
  apply item_code_match in E as (-> & Hlen & _). lia.
Qed.

(** C4. A run of 5 to 8 digits at the start of a line, followed by
    whitespace, gives an item code of exactly 8 characters: the digits
    behind as many ['0'] as are missing, and the digits themselves when
    there are 8.  A line whose leading run of digits is shorter than 5 or
    longer than 8 has no item code, and the loop leaves [items] as it
    was. *)
Theorem C4_item_code_canonical :
  (forall d c rest,
      forallb isdigit d = true -> 5 <= List.length d <= 8 ->
      isspace c = true ->
      item_code_of (d ++ c :: rest)
      = Some (repeat "0"%char (8 - List.length d) ++ d)
      /\ List.length (repeat "0"%char (8 - List.length d) ++ d) = 8
      /\ (List.length d = 8 -> item_code_of (d ++ c :: rest) = Some d))
  /\ (forall line,
         List.length (digit_run line) < 5
         \/ 8 < List.length (digit_run line) ->
         item_code_of line = None
         /\ forall db items, process_line db items line = Ok items).
Proof.
  split.
  - intros d c rest Hd Hlen Hc.
    pose proof (@item_code_of_digits d c rest Hd Hlen Hc) as E.
    split; [exact E|]. split.
    + rewrite length_app, repeat_length. lia.
    + intros H8. rewrite E, H8. reflexivity.
  - intros line H. pose proof (item_code_of_none line H) as E.
    split; [exact E|]. intros db its. unfold process_line. now rewrite E.
Qed.

Lemma C4_witness :
  (item_code_of (chars "12345" ++ " "%char :: chars "2 5.00 1.00 7")
   = Some (chars "00012345")
   /\ List.length (chars "00012345") = 8
   /\ (List.length (chars "12345") = 8 ->
       item_code_of (chars "12345" ++ " "%char :: chars "2 5.00 1.00 7")
       = Some (chars "12345")))
  /\ (item_code_of (chars "123 2 5.00 1.00") = None
      /\ forall db items,
          process_line db items (chars "123 2 5.00 1.00") = Ok items).
Proof.
  split.
  - apply (proj1 C4_item_code_canonical (chars "12345") " "%char
                 (chars "2 5.00 1.00 7")).
    + reflexivity.
    + simpl. lia.
    + reflexivity.
  - apply (proj2 C4_item_code_canonical (chars "123 2 5.00 1.00")).
    left. simpl. lia.
Defined.

(** ** Numeric tokens (C7) *)

Lemma split_aux_tokens s : forall cur t,
  is_token cur -> In t (split_aux cur s) -> is_token t.
Proof.
  unfold is_token.
  assert (Hrev : forall cur, forallb (fun c => negb (isspace c)) cur = true ->
                 forallb (fun c => negb (isspace c)) (rev cur) = true).
  { intros cur H. rewrite forallb_forall in *. intros x Hx.
    apply H. now apply in_rev. }
  induction s as [|c s IH]; intros cur t Hcur Hin; simpl in Hin.
  - destruct cur as [|x cur]; [contradiction|].
    destruct Hin as [<-|[]]. now apply (Hrev (x :: cur)).
  - destruct (isspace c) eqn:Ec.
    + destruct cur as [|x cur].
      * apply (IH [] t); auto.
      * destruct Hin as [<-|Hin]; [now apply (Hrev (x :: cur))|].
        apply (IH [] t); auto.
    + apply (IH (c :: cur) t); auto. simpl. now rewrite Ec.
Qed.

Lemma split_tokens line t : In t (split line) -> is_token t.
Proof. apply split_aux_tokens. reflexivity. Qed.

Lemma token_no_newline (u v : str) :
  is_token (u ++ v) -> at_eol v = true -> v = [].
Proof.
  unfold is_token. rewrite forallb_app. intros H Hv.
  apply andb_true_iff in H as [_ H].
  destruct v as [|c [|c' v]]; simpl in *; try discriminate; auto.
  apply Ascii.eqb_eq in Hv. subst c. discriminate.
Qed.

Lemma forallb_dot (u : str) :
  forallb (atom_matches (Lit ".")) u = true -> List.length u <= 1 ->
  u = [] \/ u = ["."%char].
Proof.
  destruct u as [|c [|c' u]]; simpl; auto; [|lia].
  rewrite andb_true_r. intros H _. apply Ascii.eqb_eq in H. subst. auto.
Qed.

(** What a match of [^\d+\.?\d*$] says about the text. *)
Lemma decimal_re_sound t g :
  exec decimal_re (0, 0) 0 t = Some g ->
  exists a b v, t = a ++ b ++ v /\ a <> [] /\ forallb isdigit a = true /\
    (b = [] \/ exists d, b = "."%char :: d /\ forallb isdigit d = true) /\
    at_eol v = true.
Proof.
  unfold decimal_re. simpl. intros H.
  apply rep_sound in H as (u1 & v1 & -> & Hu1 & Hlo1 & _ & H).
  cbn [exec opt] in H.
  apply rep_sound in H as (u2 & v2 & -> & Hu2 & _ & Hhi2 & H).
  cbn [exec star] in H.
  apply rep_sound in H as (u3 & v3 & -> & Hu3 & _ & _ & H).
  cbn [exec] in H. destruct (at_eol v3) eqn:Hv; [|discriminate].
  assert (Ha : u1 <> []) by (destruct u1; simpl in *; [lia|discriminate]).
  simpl in Hhi2. destruct (forallb_dot u2 Hu2 Hhi2) as [->| ->].
  - exists (u1 ++ u3), [], v3. simpl. rewrite <- app_assoc.
    repeat split; auto.
    + intros E. apply app_eq_nil in E as [? _]. auto.
    + rewrite forallb_app. apply andb_true_iff. auto.
  - exists u1, ("."%char :: u3), v3. simpl.
    repeat split; eauto.
Qed.

Lemma integer_re_sound t g :
  exec integer_re (0, 0) 0 t = Some g ->
  exists a v, t = a ++ v /\ a <> [] /\ forallb isdigit a = true /\
              at_eol v = true.
Proof.
  unfold integer_re. simpl. intros H.
  apply rep_sound in H as (u1 & v1 & -> & Hu1 & Hlo1 & _ & H).
  cbn [exec] in H. destruct (at_eol v1) eqn:Hv; [|discriminate].
  exists u1, v1. repeat split; auto.
  destruct u1; simpl in *; [lia|discriminate].
Qed.

Lemma matched_exec ns t :
  matched (re_match ns t) = true <-> exec ns (0, 0) 0 t <> None.
Proof.
  unfold matched, re_match.
  destruct (exec ns (0, 0) 0 t) as [[b e]|]; split; congruence.
Qed.

(** The shape of every text the test of line 116 accepts. *)
Lemma numeric_shape t :
  is_numeric_token t = true ->
  exists a b v, t = a ++ b ++ v /\ a <> [] /\ forallb isdigit a = true /\
    (b = [] \/ exists d, b = "."%char :: d /\ forallb isdigit d = true) /\
    at_eol v = true.
Proof.
  unfold is_numeric_token. intros H. apply orb_true_iff in H as [H|H];
    apply matched_exec in H.
  - destruct (exec decimal_re (0, 0) 0 t) eqn:E; [|congruence].
    eapply decimal_re_sound; eauto.
  - destruct (exec integer_re (0, 0) 0 t) eqn:E; [|congruence].
    apply integer_re_sound in E as (a & v & -> & Ha & Hd & Hv).
    exists a, [], v. simpl. repeat split; auto.
Qed.

Lemma decimal_re_integer t :
  integer_literal t -> exec decimal_re (0, 0) 0 t <> None.
Proof.
  intros [Hne Hd]. unfold decimal_re. simpl.
  rewrite <- (app_nil_r t). apply rep_complete; simpl; auto.
  - destruct t; simpl; [congruence|lia].
  - discriminate.
Qed.

Lemma decimal_re_decimal t :
  decimal_literal t -> exec decimal_re (0, 0) 0 t <> None.
Proof.
  intros (a & b & -> & Hne & Ha & Hb). unfold decimal_re. simpl.
  apply rep_complete; auto.
  - destruct a; simpl; [congruence|lia].
  - exact I.
  - cbn [exec opt].
    change ("."%char :: b) with (["."%char] ++ b).
    apply rep_complete; simpl; auto.
    rewrite <- (app_nil_r b). apply rep_complete; simpl; auto; [lia|].
    discriminate.
Qed.

(** The test of line 116 on a token: it holds exactly for the texts of
    [\d+] and of [\d+\.\d*]. *)
Lemma is_numeric_token_iff t :
  is_token t ->
  (is_numeric_token t = true <-> integer_literal t \/ decimal_literal t).
Proof.
  intros Ht. split.
  - intros H. apply numeric_shape in H as (a & b & v & E & Hne & Ha & Hb & Hv).
    assert (v = []) as ->.
    { subst t. rewrite app_assoc in Ht. eapply token_no_newline; eauto. }
    rewrite app_nil_r in E. destruct Hb as [->|(d & -> & Hd)].
    + left. rewrite app_nil_r in E. subst. split; auto.
    + right. exists a, d. auto.
  - unfold is_numeric_token. intros [H|H]; apply orb_true_iff; left;
      apply matched_exec.
    + now apply decimal_re_integer.
    + now apply decimal_re_decimal.
Qed.

Lemma numeric_chars t c :
  is_numeric_token t = true -> In c t ->
  isdigit c = true \/ c = "."%char \/ c = "010"%char.
Proof.
  intros H Hin.
  apply numeric_shape in H as (a & b & v & -> & _ & Ha & Hb & Hv).
  rewrite forallb_forall in Ha.
  apply in_app_or in Hin as [Hin|Hin]; [auto|].
  apply in_app_or in Hin as [Hin|Hin].
  - destruct Hb as [->|(d & -> & Hd)]; [contradiction|].
    rewrite forallb_forall in Hd. destruct Hin as [<-|Hin]; auto.
  - destruct v as [|x [|y v]]; simpl in *; try discriminate;
      [contradiction|].
    apply Ascii.eqb_eq in Hv. destruct Hin as [<-|[]]. auto.
Qed.

(** C7. On a whitespace-delimited token the test of line 116 holds if and
    only if the token is a text of [\d+] or of [\d+\.\d*].  A text with a
    sign, a thousands separator or an exponent letter fails the test, so
    it is never among the numbers of a line. *)
Theorem C7_numeric_token :
  (forall t, is_token t ->
     (is_numeric_token t = true <-> integer_literal t \/ decimal_literal t))
  /\ (forall t c, In c t -> sign_or_separator c ->
        is_numeric_token t = false
        /\ forall line, ~ In t (numbers_of line)).
Proof.
  split; [exact is_numeric_token_iff|].
  intros t c Hin Hc.
  assert (E : is_numeric_token t = false).
  { destruct (is_numeric_token t) eqn:E; [|reflexivity].
    destruct (numeric_chars t c E Hin) as [H|[H|H]];
      unfold sign_or_separator in Hc; simpl in Hc;
      repeat (destruct Hc as [<-|Hc]; [discriminate|]); contradiction. }
  split; [exact E|]. intros line H. unfold numbers_of in H.
  apply filter_In in H as [_ H]. congruence.
Qed.

Lemma C7_witness :
  (is_numeric_token (chars "2.50") = true <->
   integer_literal (chars "2.50") \/ decimal_literal (chars "2.50"))
  /\ is_numeric_token (chars "1,250.00") = false
  /\ is_numeric_token (chars "-3") = false
  /\ is_numeric_token (chars "1e5") = false.
Proof.
  split; [|split; [|split]].
  - apply (proj1 C7_numeric_token (chars "2.50")). reflexivity.
  - apply (proj2 C7_numeric_token (chars "1,250.00") ","%char);
      [simpl; auto | unfold sign_or_separator; simpl; auto].
  - apply (proj2 C7_numeric_token (chars "-3") "-"%char);
      [simpl; auto | unfold sign_or_separator; simpl; auto].
  - apply (proj2 C7_numeric_token (chars "1e5") "e"%char);
      [simpl; auto | unfold sign_or_separator; simpl; auto 6].
Defined.

(** ** Binary64 arithmetic *)

Local Open Scope Z_scope.

Lemma digits2_lt p : Zpos p < 2 ^ Zpos (digits2_pos p).
Proof.
  induction p as [p IH|p IH|]; simpl digits2_pos;
    rewrite ?Pos2Z.inj_succ, ?Z.pow_succ_r by lia; lia.
Qed.

Lemma digits2_ge p : 2 ^ (Zpos (digits2_pos p) - 1) <= Zpos p.
Proof.
  induction p as [p IH|p IH|]; simpl digits2_pos;
    rewrite ?Pos2Z.inj_succ;
    try (replace (Z.succ (Zpos (digits2_pos p)) - 1)
           with (Z.succ (Zpos (digits2_pos p) - 1)) by lia;
         rewrite Z.pow_succ_r by lia; lia).
  simpl. lia.
Qed.

Lemma digits2_le_of_lt p k : 0 <= k -> Zpos p < 2 ^ k ->
  Zpos (digits2_pos p) <= k.
Proof.
  intros Hk H. pose proof (digits2_ge p) as Hge.
  destruct (Z.le_gt_cases (Zpos (digits2_pos p)) k) as [|Hgt]; [assumption|].
  exfalso.
  assert (2 ^ k <= 2 ^ (Zpos (digits2_pos p) - 1))
    by (apply Z.pow_le_mono_r; lia).
  lia.
Qed.

Lemma iter_pos_nat (A : Type) (f : A -> A) p : forall x,
  iter_pos f p x = Nat.iter (Pos.to_nat p) f x.
Proof.
  induction p as [p IH|p IH|]; intros x; simpl iter_pos.
  - rewrite !IH, Pos2Nat.inj_xI.
    replace (S (2 * Pos.to_nat p))%nat
      with (Pos.to_nat p + S (Pos.to_nat p))%nat by lia.
    now rewrite Nat.iter_add, Nat.iter_succ_r.
  - rewrite !IH, Pos2Nat.inj_xO.
    replace (2 * Pos.to_nat p)%nat
      with (Pos.to_nat p + Pos.to_nat p)%nat by lia.
    now rewrite Nat.iter_add.
  - reflexivity.
Qed.

Lemma shr_1_m mrs : 0 <= shr_m mrs -> shr_m (shr_1 mrs) = shr_m mrs / 2.
Proof.
  destruct mrs as [m r s]. cbn [shr_m]. intros Hm.
  destruct m as [|[p|p|]|p]; cbn [shr_1 shr_m]; try lia; try reflexivity.
  - apply (Z.div_unique _ _ _ 1); lia.
  - apply (Z.div_unique _ _ _ 0); lia.
Qed.

Lemma shr_m_iter n : forall mrs, 0 <= shr_m mrs ->
  shr_m (Nat.iter n shr_1 mrs) = shr_m mrs / 2 ^ Z.of_nat n.
Proof.
  induction n as [|n IH]; intros mrs Hm.
  - simpl. now rewrite Z.div_1_r.
  - rewrite Nat2Z.inj_succ, Z.pow_succ_r by lia. simpl Nat.iter.
    assert (H0 : 0 <= shr_m (Nat.iter n shr_1 mrs)).
    { rewrite IH by assumption. apply Z.div_pos; [assumption|].
      apply Z.pow_pos_nonneg; lia. }
    rewrite shr_1_m by assumption. rewrite IH by assumption.
    rewrite Z.div_div by (try apply Z.pow_pos_nonneg; lia).
    f_equal. lia.
Qed.

(** The mantissa and the exponent after [shr]. *)
Lemma shr_spec mrs e n : 0 <= shr_m mrs ->
  shr_m (fst (shr mrs e n)) = shr_m mrs / 2 ^ Z.max 0 n
  /\ snd (shr mrs e n) = e + Z.max 0 n.
Proof.
  intros Hm. destruct n as [|p|p]; simpl.
  - rewrite Z.div_1_r. lia.
  - rewrite iter_pos_nat, shr_m_iter by assumption.
    now rewrite positive_nat_Z.
  - rewrite Z.div_1_r. lia.
Qed.

Lemma round_nearest_even_nonneg m l : 0 <= m -> 0 <= round_nearest_even m l.
Proof.
  intros H. unfold round_nearest_even.
  destruct l as [|[| |]]; try destruct (Z.even m); lia.
Qed.

Lemma shr_record_of_loc_m m l : shr_m (shr_record_of_loc m l) = m.
Proof. now destruct l as [|[| |]]. Qed.

(** Rounding a magnitude gives [+0.0], [+inf] or a positive number in the
    format. *)
Lemma binary_round_aux_nonneg mx ex lx : 0 <= mx ->
  nonneg (binary_round_aux Float64.prec Float64.emax false mx ex lx).
Proof.
  intros Hmx. unfold binary_round_aux, shr_fexp.
  set (n1 := fexp _ _ _ - ex).
  pose proof (@shr_spec (shr_record_of_loc mx lx) ex n1) as H1.
  rewrite shr_record_of_loc_m in H1. destruct (H1 Hmx) as [Hm1 He1].
  destruct (shr (shr_record_of_loc mx lx) ex n1) as [mrs' e'].
  cbn [fst snd] in Hm1, He1.
  set (m2 := round_nearest_even (shr_m mrs') (loc_of_shr_record mrs')).
  assert (Hm2 : 0 <= m2).
  { apply round_nearest_even_nonneg. rewrite Hm1.
    apply Z.div_pos; [assumption|]. apply Z.pow_pos_nonneg; lia. }
  set (n2 := fexp _ _ _ - e').
  pose proof (@shr_spec (shr_record_of_loc m2 loc_Exact) e' n2) as H2.
  rewrite shr_record_of_loc_m in H2. destruct (H2 Hm2) as [Hm3 He3].
  destruct (shr (shr_record_of_loc m2 loc_Exact) e' n2) as [mrs'' e''].
  cbn [fst snd] in Hm3, He3.
  assert (Hpow : 0 < 2 ^ Z.max 0 n2) by (apply Z.pow_pos_nonneg; lia).
  destruct (shr_m mrs'') as [|m|m] eqn:Em; simpl; auto.
  - destruct (e'' <=? 971) eqn:Ee; simpl; auto.
    apply Z.leb_le in Ee. split; [|exact Ee].
    apply digits2_le_of_lt; [unfold Float64.prec; lia|].
    rewrite Hm3.
    destruct m2 as [|q|q]; [rewrite Z.div_0_l in Hm3 by lia; lia| |lia].
    apply Z.div_lt_upper_bound; [assumption|].
    rewrite <- Z.pow_add_r by (unfold Float64.prec; lia).
    eapply Z.lt_le_trans; [apply digits2_lt|].
    apply Z.pow_le_mono_r; [lia|].
    subst n2. unfold fexp, Float64.prec, Zdigits2. lia.
  - assert (0 <= m2 / 2 ^ Z.max 0 n2) by (apply Z.div_pos; lia). lia.
Qed.

Lemma of_ratio_nonneg n d : nonneg (Float64.of_ratio false n d).
Proof.
  unfold Float64.of_ratio, SFdiv.
  destruct (SFdiv_core_binary _ _ _ _ _ _) as [[mz ez] lz] eqn:E.
  simpl xorb. apply binary_round_aux_nonneg.
  unfold SFdiv_core_binary in E.
  match type of E with
  | (let '(q, r) := Z.div_eucl ?a ?b in _) = _ =>
      pose proof (Z_div_mod a b) as Hdm;
      assert (Ha : 0 <= a);
      [| destruct (Z.div_eucl a b) as [q r] eqn:Ed ]
  end.
  - destruct (_ - _ - _) eqn:Es; try lia. rewrite Z.shiftl_mul_pow2; lia.
  - injection E as <- _ _.
    destruct Hdm as [Hq Hr]; [lia|]. nia.
Qed.

(** *** Integers that are binary64 numbers convert without overflow *)

Lemma digits2_shift k : forall m,
  Zpos (digits2_pos (Nat.iter k xO m)) = Zpos (digits2_pos m) + Z.of_nat k.
Proof.
  induction k as [|k IH]; intros m.
  - simpl. lia.
  - cbn [Nat.iter nat_rect]. cbn [digits2_pos].
    change (nat_rect (fun _ => positive) m (fun _ => xO) k)
      with (Nat.iter k xO m).
    rewrite Pos2Z.inj_succ, IH. lia.
Qed.

Lemma pos_iter_nat (A : Type) (f : A -> A) x p :
  Pos.iter f x p = Nat.iter (Pos.to_nat p) f x.
Proof. apply Pos2Nat.inj_iter. Qed.

Lemma shr_iter_exact n : forall q,
  Nat.iter n shr_1 (Build_shr_record (Zpos (Nat.iter n xO q)) false false)
  = Build_shr_record (Zpos q) false false.
Proof.
  induction n as [|n IH]; intros q; [reflexivity|].
  rewrite Nat.iter_succ_r. cbn [Nat.iter nat_rect shr_1 orb].
  apply IH.
Qed.

(** No shift is needed on a mantissa of 53 bits. *)
Lemma shr_fexp_id m e l :
  Zpos (digits2_pos m) = 53 -> -1074 <= e ->
  shr_fexp Float64.prec Float64.emax (Zpos m) e l
  = (shr_record_of_loc (Zpos m) l, e).
Proof.
  intros Hd He. unfold shr_fexp, fexp, emin, Float64.prec, Float64.emax.
  cbn [Zdigits2]. rewrite Hd.
  replace (Z.max (53 + e - 53) (3 - 1024 - 53) - e) with 0 by lia.
  reflexivity.
Qed.

(** A mantissa of 53 bits is kept as it is. *)
Lemma binary_round_aux_exact m e :
  Zpos (digits2_pos m) = 53 -> -1074 <= e ->
  binary_round_aux Float64.prec Float64.emax false (Zpos m) e loc_Exact
  = if e <=? 971 then S754_finite false m e else S754_infinity false.
Proof.
  intros Hd He. unfold binary_round_aux.
  rewrite shr_fexp_id by assumption.
  cbn [shr_record_of_loc shr_m loc_of_shr_record round_nearest_even].
  rewrite shr_fexp_id by assumption.
  reflexivity.
Qed.

(** The integer [m * 2^k], for a mantissa [m] of at most 53 bits, is a
    binary64 number as long as it has at most 1024 bits. *)
Lemma binary_round_shifted m k :
  Zpos (digits2_pos m) <= 53 ->
  Zpos (digits2_pos m) + Z.of_nat k <= 1024 ->
  exists m' e',
    binary_round Float64.prec Float64.emax false (Nat.iter k xO m) 0
    = S754_finite false m' e'.
Proof.
  intros Hm Hk. set (q := Nat.iter k xO m).
  pose proof (digits2_shift k m) as Hq. fold q in Hq.
  assert (Hpos : 0 < Zpos (digits2_pos m)) by lia.
  unfold binary_round, shl_align.
  replace (fexp Float64.prec Float64.emax (Zpos (digits2_pos q) + 0))
    with (Zpos (digits2_pos q) - 53)
    by (unfold fexp, emin, Float64.prec, Float64.emax; lia).
  destruct (Zpos (digits2_pos q) - 53 - 0) as [|p|p] eqn:Ed.
  - (* exactly 53 bits *)
    rewrite binary_round_aux_exact by lia.
    exists q, 0. reflexivity.
  - (* more than 53 bits: the low bits are all zero *)
    set (n := Pos.to_nat p).
    assert (Hn : (n <= k)%nat) by (subst n; lia).
    set (q' := Nat.iter (k - n) xO m).
    assert (Eq : q = Nat.iter n xO q').
    { subst q q'. rewrite <- Nat.iter_add. f_equal. lia. }
    assert (Hq' : Zpos (digits2_pos q') = 53).
    { subst q'. rewrite digits2_shift. subst n. lia. }
    unfold binary_round_aux.
    assert (E1 : shr_fexp Float64.prec Float64.emax (Zpos q) 0 loc_Exact
                 = (Build_shr_record (Zpos q') false false, Zpos p)).
    { unfold shr_fexp, fexp, emin, Float64.prec, Float64.emax.
      cbn [Zdigits2].
      replace (Z.max (Zpos (digits2_pos q) + 0 - 53) (3 - 1024 - 53) - 0)
        with (Zpos p) by lia.
      cbn [shr shr_record_of_loc]. rewrite iter_pos_nat. fold n.
      rewrite Eq, shr_iter_exact. reflexivity. }
    rewrite E1.
    cbn [shr_m loc_of_shr_record round_nearest_even].
    rewrite shr_fexp_id by lia.
    cbn [shr_record_of_loc shr_m].
    assert ((Zpos p <=? Float64.emax - Float64.prec) = true) as ->.
    { apply Z.leb_le. unfold Float64.prec, Float64.emax. lia. }
    eauto.
  - (* fewer than 53 bits: the mantissa is shifted left *)
    rewrite pos_iter_nat.
    rewrite binary_round_aux_exact.
    + assert ((Zpos (digits2_pos q) - 53 <=? 971) = true) as ->
        by (apply Z.leb_le; lia).
      eauto.
    + rewrite digits2_shift. lia.
    + lia.
Qed.

Lemma shiftl_pos m p :
  Z.shiftl (Zpos m) (Zpos p) = Zpos (Nat.iter (Pos.to_nat p) xO m).
Proof.
  cbn [Z.shiftl]. rewrite pos_iter_nat.
  induction (Pos.to_nat p) as [|n IH]; [reflexivity|].
  rewrite !Nat.iter_succ, IH. reflexivity.
Qed.

(** [int(x)] of a finite value that is not negative is an integer that
    [float] takes back without overflow. *)
Lemma to_int_of_int f :
  nonneg f -> Float64.is_finite f = true ->
  exists z x, Float64.to_int f = Ok z /\ 0 <= z /\ Float64.of_int z = Ok x.
Proof.
  destruct f as [[|]|[|]| |[|] m e]; simpl; try contradiction;
    try discriminate; intros Hf _.
  - exists 0, (S754_zero false). repeat split; auto; lia.
  - unfold Float64.prec, Float64.emax in Hf. destruct Hf as [Hm He].
    assert (Hcase : forall q k, Zpos (digits2_pos q) <= 53 ->
              Zpos (digits2_pos q) + Z.of_nat k <= 1024 ->
              exists x, Float64.of_int (Zpos (Nat.iter k xO q)) = Ok x).
    { intros q k H1 H2. unfold Float64.of_int. cbn [binary_normalize].
      destruct (binary_round_shifted q k H1 H2) as (m' & e' & ->). eauto. }
    destruct e as [|p|p].
    + exists (Zpos m). destruct (Hcase m 0%nat) as [x Hx]; try lia.
      exists x. repeat split; auto; lia.
    + rewrite shiftl_pos.
      destruct (Hcase m (Pos.to_nat p)) as [x Hx]; try lia.
      eexists _, x. repeat split; eauto; lia.
    + rewrite Z.shiftr_div_pow2 by lia.
      assert (Hpow : 0 < 2 ^ Zpos p) by (apply Z.pow_pos_nonneg; lia).
      assert (Hz : 0 <= Zpos m / 2 ^ Zpos p) by (apply Z.div_pos; lia).
      destruct (Zpos m / 2 ^ Zpos p) as [|q|q] eqn:Eq; [| |lia].
      * exists 0, (S754_zero false). repeat split; auto; lia.
      * assert (Hq : Zpos (digits2_pos q) <= 53).
        { apply digits2_le_of_lt; [lia|].
          assert (Zpos q <= Zpos m).
          { rewrite <- Eq. apply Z.div_le_upper_bound; [lia|]. nia. }
          pose proof (digits2_lt m).
          assert (2 ^ Zpos (digits2_pos m) <= 2 ^ 53)
            by (apply Z.pow_le_mono_r; lia).
          lia. }
        destruct (Hcase q 0%nat) as [x Hx]; try lia.
        exists (Zpos q), x. repeat split; auto; lia.
Qed.

Local Open Scope nat_scope.

(** *** [float] on the texts the program gives it *)

Lemma of_decimal_nonneg n k : nonneg (Float64.of_decimal n k).
Proof.
  unfold Float64.of_decimal. destruct n; simpl; auto.
  apply of_ratio_nonneg.
Qed.

Lemma of_str_nonneg s f : Float64.of_str s = Ok f -> nonneg f.
Proof.
  unfold Float64.of_str. destruct (Float64.cut_point s) as [ip fp].
  destruct (ip ++ _) as [|c ds]; [discriminate|].
  destruct (Float64.digits_val 0 (c :: ds)); [|discriminate].
  intros [= <-]. apply of_decimal_nonneg.
Qed.

Lemma digit_not_point c : isdigit c = true -> Ascii.eqb c "." = false.
Proof.
  intros H. destruct (Ascii.eqb c ".") eqn:E; [|reflexivity].
  apply Ascii.eqb_eq in E. subst. discriminate.
Qed.

Lemma cut_point_digits a :
  forallb isdigit a = true -> Float64.cut_point a = (a, None).
Proof.
  induction a as [|c a IH]; simpl; [reflexivity|]. intros H.
  apply andb_true_iff in H as [Hc Ha].
  now rewrite (digit_not_point c Hc), (IH Ha).
Qed.

Lemma cut_point_decimal a b :
  forallb isdigit a = true ->
  Float64.cut_point (a ++ "."%char :: b) = (a, Some b).
Proof.
  induction a as [|c a IH]; simpl; [reflexivity|]. intros H.
  apply andb_true_iff in H as [Hc Ha].
  now rewrite (digit_not_point c Hc), (IH Ha).
Qed.

Lemma digits_val_some s : forallb isdigit s = true ->
  forall acc, exists n, Float64.digits_val acc s = Some n.
Proof.
  induction s as [|c s IH]; simpl; intros H acc; [eauto|].
  apply andb_true_iff in H as [Hc Hs]. rewrite Hc. auto.
Qed.

(** [float] accepts every text of [\d+] and of [\d+\.\d*]. *)
Lemma of_str_literal t :
  integer_literal t \/ decimal_literal t ->
  exists f, Float64.of_str t = Ok f.
Proof.
  unfold Float64.of_str. intros [[Hne Hd]|(a & b & -> & Hne & Ha & Hb)].
  - rewrite (cut_point_digits t Hd), app_nil_r.
    destruct t as [|c t]; [congruence|].
    destruct (digits_val_some (c :: t) Hd 0%Z) as [n ->]. eauto.
  - rewrite (cut_point_decimal a b Ha).
    assert (Hab : forallb isdigit (a ++ b) = true)
      by (rewrite forallb_app, Ha, Hb; reflexivity).
    destruct (digits_val_some (a ++ b) Hab 0%Z) as [n Hn].
    destruct (a ++ b) as [|c ds] eqn:E.
    + apply app_eq_nil in E as [? _]. congruence.
    + rewrite Hn. eauto.
Qed.

(** Every number of a line is a text [float] accepts, and its value is
    not negative and not NaN. *)
Lemma numbers_parse line t :
  In t (numbers_of line) ->
  exists f, Float64.of_str t = Ok f /\ nonneg f.
Proof.
  unfold numbers_of. intros H. apply filter_In in H as [Hin Hnum].
  apply split_tokens in Hin.
  apply (is_numeric_token_iff Hin) in Hnum.
  destruct (of_str_literal Hnum) as [f Hf].
  exists f. split; [assumption|]. eapply of_str_nonneg; eauto.
Qed.

Lemma nth_error_some (A : Type) (l : list A) i :
  i < List.length l -> exists a, nth_error l i = Some a /\ In a l.
Proof.
  intros H. destruct (nth_error l i) as [a|] eqn:E.
  - exists a. split; [reflexivity|]. eapply nth_error_In; eauto.
  - apply nth_error_None in E. lia.
Qed.

(** The body of the [try] on a line with at least 4 numbers: it builds the
    item from the 2nd and the 4th number, unless the 2nd number is too
    large for binary64, and then [int] raises [OverflowError]. *)
Lemma line_item_cases db item_code line :
  4 <= List.length (numbers_of line) ->
  exists n1 n3 f1 unit_price,
    nth_error (numbers_of line) 1 = Some n1 /\
    nth_error (numbers_of line) 3 = Some n3 /\
    Float64.of_str n1 = Ok f1 /\ Float64.of_str n3 = Ok unit_price /\
    ((Float64.is_finite f1 = true /\
      exists qty fq,
        Float64.to_int f1 = Ok qty /\ (0 <= qty)%Z /\
        Float64.of_int qty = Ok fq /\
        line_item db item_code (numbers_of line)
        = Ok (mkitem item_code qty unit_price
                     (Float64.round2 (Float64.mul fq unit_price))
                     (fst (lookup db item_code))
                     (snd (lookup db item_code))))
     \/ (Float64.is_finite f1 = false /\
         line_item db item_code (numbers_of line) = Raise OverflowError)).
Proof.
  intros Hlen.
  destruct (@nth_error_some _ (numbers_of line) 1) as (n1 & E1 & In1); [lia|].
  destruct (@nth_error_some _ (numbers_of line) 3) as (n3 & E3 & In3); [lia|].
  destruct (numbers_parse line n1 In1) as (f1 & Hf1 & Hn1).
  destruct (numbers_parse line n3 In3) as (f3 & Hf3 & _).
  exists n1, n3, f1, f3. repeat (split; [assumption|]).
  unfold line_item, index. rewrite E1, E3. cbn [bind]. rewrite Hf1.
  cbn [bind].
  destruct (Float64.is_finite f1) eqn:Efin.
  - left. split; [reflexivity|].
    destruct (to_int_of_int f1 Hn1 Efin) as (qty & fq & Hq & Hpos & Hfq).
    exists qty, fq. rewrite Hq. cbn [bind]. rewrite Hf3. cbn [bind].
    rewrite Hfq. cbn [bind]. destruct (lookup db item_code). auto.
  - right. split; [reflexivity|].
    destruct f1 as [[|]|[|]| |[|] m e]; simpl in *; try contradiction;
      try discriminate. reflexivity.
Qed.

(** ** Line items (C3, C8) *)

Lemma process_line_short db items line :
  List.length (numbers_of line) < 4 -> process_line db items line = Ok items.
Proof.
  intros H. unfold process_line.
  destruct (item_code_of line); [|reflexivity].
  apply Nat.ltb_lt in H. now rewrite H.
Qed.

(** C3. A line that starts with 5 to 8 digits and whitespace and has at
    least 4 numbers, the 2nd of them within the binary64 range, adds
    exactly one item: its quantity is [int(float(.))] of the 2nd number,
    its unit price [float(.)] of the 4th, its line total their rounded
    product.  The line of scenario A gives 00012345, 10, 2.50 and 25.00.
    A line with fewer than 4 numbers adds nothing. *)
Theorem C3_line_item_recognition :
  (forall db items d c rest,
      forallb isdigit d = true -> 5 <= List.length d <= 8 ->
      isspace c = true ->
      4 <= List.length (numbers_of (d ++ c :: rest)) ->
      (forall n1 f1, nth_error (numbers_of (d ++ c :: rest)) 1 = Some n1 ->
                     Float64.of_str n1 = Ok f1 ->
                     Float64.is_finite f1 = true) ->
      exists n1 n3 f1 qty fq unit_price,
        nth_error (numbers_of (d ++ c :: rest)) 1 = Some n1 /\
        nth_error (numbers_of (d ++ c :: rest)) 3 = Some n3 /\
        Float64.of_str n1 = Ok f1 /\ Float64.to_int f1 = Ok qty /\
        Float64.of_int qty = Ok fq /\
        Float64.of_str n3 = Ok unit_price /\
        process_line db items (d ++ c :: rest)
        = Ok (items ++
              [mkitem (repeat "0"%char (8 - List.length d) ++ d)
                      qty unit_price
                      (Float64.round2 (Float64.mul fq unit_price))
                      (fst (lookup db
                              (repeat "0"%char (8 - List.length d) ++ d)))
                      (snd (lookup db
                              (repeat "0"%char (8 - List.length d) ++ d)))]))
  /\ process_line [] [] scenario_A
     = Ok [mkitem (chars "00012345") 10 f_2_50 f_25_00
                  (Db.CStr NOT_FOUND) NOT_FOUND]
  /\ (forall db items line,
         List.length (numbers_of line) < 4 ->
         process_line db items line = Ok items).
Proof.
  split; [|split].
  - intros db its d c rest Hd Hlen Hc Hnum Hfin.
    set (line := d ++ c :: rest) in *.
    set (code := repeat "0"%char (8 - List.length d) ++ d).
    destruct (line_item_cases db code line Hnum)
      as (n1 & n3 & f1 & f3 & E1 & E3 & Hf1 & Hf3 & Hcase).
    destruct Hcase as [(_ & qty & fq & Hq & _ & Hfq & Hbody)|(Hinf & _)].
    + exists n1, n3, f1, qty, fq, f3. repeat (split; [assumption|]).
      unfold process_line. subst line.
      rewrite (@item_code_of_digits d c rest Hd Hlen Hc).
      fold code.
      assert ((List.length (numbers_of (d ++ c :: rest)) <? 4) = false) as ->
        by (apply Nat.ltb_ge; exact Hnum).
      now rewrite Hbody.
    + rewrite (Hfin n1 f1 E1 Hf1) in Hinf. discriminate.
  - vm_compute. reflexivity.
  - exact process_line_short.
Qed.

Lemma C3_witness :
  exists n1 n3 f1 qty fq unit_price,
    nth_error (numbers_of scenario_A) 1 = Some n1 /\
    nth_error (numbers_of scenario_A) 3 = Some n3 /\
    Float64.of_str n1 = Ok f1 /\ Float64.to_int f1 = Ok qty /\
    Float64.of_int qty = Ok fq /\
    Float64.of_str n3 = Ok unit_price /\
    process_line [] [] scenario_A
    = Ok ([] ++ [mkitem (chars "00012345") qty unit_price
                        (Float64.round2 (Float64.mul fq unit_price))
                        (Db.CStr NOT_FOUND) NOT_FOUND]).
Proof.
  apply (proj1 C3_line_item_recognition [] [] (chars "00012345") " "%char
               (chars "  10   0.00   2.50   25.00")).
  - reflexivity.
  - simpl. lia.
  - reflexivity.
  - vm_compute. lia.
  - intros n1 f1 H1 H2. vm_compute in H1. injection H1 as <-.
    vm_compute in H2. injection H2 as <-. reflexivity.
Defined.

(** The statement of C3 without the bound on the 2nd number fails on
    [huge_line]: [int] raises [OverflowError], which the handler of line
    147 does not catch. *)
Lemma C3_counterexample :
  ~ (forall db items d c rest,
        forallb isdigit d = true -> 5 <= List.length d <= 8 ->
        isspace c = true ->
        4 <= List.length (numbers_of (d ++ c :: rest)) ->
        exists it, process_line db items (d ++ c :: rest)
                   = Ok (items ++ [it])).
Proof.
  intros H.
  destruct (H [] [] (chars "12345") " "%char (huge ++ chars " 1 1.50"))
    as [it Hit].
  - reflexivity.
  - simpl. lia.
  - reflexivity.
  - vm_compute. lia.
  - change (chars "12345" ++ " "%char :: huge ++ chars " 1 1.50")
      with huge_line in Hit.
    assert (E : process_line [] [] huge_line = Raise OverflowError)
      by (vm_compute; reflexivity).
    rewrite E in Hit. discriminate Hit.
Qed.

(** Such a line ends the whole run: the exception leaves both loops and
    no report is printed, whatever the lines before it were. *)
Lemma overflow_abandons_invoice :
  process_tdl_invoice [] [scenario_A ++ "010"%char :: huge_line]
  = Raise OverflowError.
Proof. vm_compute. reflexivity. Qed.

(** C8. Every token that passes the test of line 116 is a text [float]
    accepts.  So on a line with at least 4 numbers [float] succeeds on the
    2nd and on the 4th number, and the body of the [try] raises neither
    [IndexError] nor [ValueError]: the handler of line 147 is never
    entered.  When the 2nd number is within the binary64 range, nothing in
    the body fails and it returns the item. *)
Theorem C8_numeric_tokens_parse :
  (forall t, is_token t -> is_numeric_token t = true ->
             exists f, Float64.of_str t = Ok f)
  /\ (forall db item_code line,
         4 <= List.length (numbers_of line) ->
         (exists n1 n3 f1 f3,
             nth_error (numbers_of line) 1 = Some n1 /\
             nth_error (numbers_of line) 3 = Some n3 /\
             Float64.of_str n1 = Ok f1 /\ Float64.of_str n3 = Ok f3 /\
             (Float64.is_finite f1 = true ->
              exists it, line_item db item_code (numbers_of line) = Ok it))
         /\ line_item db item_code (numbers_of line) <> Raise IndexError
         /\ line_item db item_code (numbers_of line) <> Raise ValueError).
Proof.
  split.
  - intros t Ht Hnum. apply of_str_literal.
    now apply is_numeric_token_iff.
  - intros db code line Hlen.
    destruct (line_item_cases db code line Hlen)
      as (n1 & n3 & f1 & f3 & E1 & E3 & Hf1 & Hf3 & Hcase).
    split.
    + exists n1, n3, f1, f3. repeat (split; [assumption|]).
      intros Hfin.
      destruct Hcase as [(_ & qty & fq & _ & _ & _ & ->)|(Hinf & _)];
        [eauto|congruence].
    + destruct Hcase as [(_ & qty & fq & _ & _ & _ & ->)|(_ & ->)];
        split; discriminate.
Qed.

Lemma C8_witness :
  (exists f, Float64.of_str (chars "2.50") = Ok f)
  /\ (exists n1 n3 f1 f3,
         nth_error (numbers_of scenario_A) 1 = Some n1 /\
         nth_error (numbers_of scenario_A) 3 = Some n3 /\
         Float64.of_str n1 = Ok f1 /\ Float64.of_str n3 = Ok f3 /\
         (Float64.is_finite f1 = true ->
          exists it,
            line_item [] (chars "00012345") (numbers_of scenario_A) = Ok it))
  /\ line_item [] (chars "00012345") (numbers_of scenario_A)
     <> Raise IndexError
  /\ line_item [] (chars "00012345") (numbers_of scenario_A)
     <> Raise ValueError.
Proof.
  split.
  - apply (proj1 C8_numeric_tokens_parse (chars "2.50")); reflexivity.
  - apply (proj2 C8_numeric_tokens_parse [] (chars "00012345") scenario_A).
    vm_compute. lia.
Defined.

(** Converting the quantity can fail all the same: on [huge_line] the 2nd
    number parses to [+inf] and [int] raises [OverflowError]. *)
Lemma C8_counterexample :
  ~ (forall line, 4 <= List.length (numbers_of line) ->
       forall n1 f1, nth_error (numbers_of line) 1 = Some n1 ->
                     Float64.of_str n1 = Ok f1 ->
                     exists qty, Float64.to_int f1 = Ok qty).
Proof.
  intros H.
  destruct (H huge_line) with (n1 := huge) (f1 := S754_infinity false)
    as [qty Hq].
  - vm_compute. lia.
  - vm_compute. reflexivity.
  - vm_compute. reflexivity.
  - discriminate Hq.
Qed.

(** ** The reference table (C1, C2) *)

Lemma lookup_cons r db code :
  lookup (Db.astype_str (r :: db)) code =
  if Str.eqb (Db.cell_str (Db.Item_Code r)) code
  then (Db.GL_Code r, Db.GL_Description r)
  else lookup (Db.astype_str db) code.
Proof.
  unfold lookup, Db.select. simpl.
  destruct (Str.eqb (Db.cell_str (Db.Item_Code r)) code); reflexivity.
Qed.

(** A code no row has as its text is not found. *)
Lemma lookup_absent db code :
  (forall r, In r db -> Db.cell_str (Db.Item_Code r) <> code) ->
  lookup (Db.astype_str db) code = (Db.CStr NOT_FOUND, NOT_FOUND).
Proof.
  induction db as [|r db IH]; intros H; [reflexivity|].
  rewrite lookup_cons.
  assert (E : Str.eqb (Db.cell_str (Db.Item_Code r)) code = false).
  { apply str_eqb_neq. apply H. now left. }
  rewrite E. apply IH. intros r' Hr'. apply H. now right.
Qed.

(** The first row that has the code as its text answers the lookup,
    whatever the rows behind it are. *)
Lemma lookup_first pre r post code :
  (forall r', In r' pre -> Db.cell_str (Db.Item_Code r') <> code) ->
  Db.cell_str (Db.Item_Code r) = code ->
  lookup (Db.astype_str (pre ++ r :: post)) code
  = (Db.GL_Code r, Db.GL_Description r).
Proof.
  induction pre as [|r0 pre IH]; intros Hpre Hr; simpl app;
    rewrite lookup_cons.
  - apply str_eqb_eq in Hr. now rewrite Hr.
  - assert (E : Str.eqb (Db.cell_str (Db.Item_Code r0)) code = false).
    { apply str_eqb_neq. apply Hpre. now left. }
    rewrite E. apply IH; auto. intros r' Hr'. apply Hpre. now right.
Qed.

(** C1. The table is indexed by the text of each row's item code as
    [astype(str)] gives it, without padding: a lookup finds the GL Code
    and GL Description of a row exactly when that text is the code looked
    up (here for a code that a single row carries), and answers
    NOT_FOUND when no row has that text. *)
Theorem C1_lookup_by_exact_text :
  (forall db r code,
      In r db -> Db.cell_str (Db.Item_Code r) = code ->
      (forall r', In r' db -> Db.cell_str (Db.Item_Code r') = code ->
                  r' = r) ->
      lookup (Db.astype_str db) code = (Db.GL_Code r, Db.GL_Description r))
  /\ (forall db code,
         (forall r, In r db -> Db.cell_str (Db.Item_Code r) <> code) ->
         lookup (Db.astype_str db) code = (Db.CStr NOT_FOUND, NOT_FOUND)).
Proof.
  split; [|exact lookup_absent].
  intros db r code Hin Hr Huniq.
  apply in_split in Hin as (pre & post & ->).
  revert Huniq. induction pre as [|r0 pre IH]; intros Huniq.
  - apply lookup_first; [intros ? []|assumption].
  - simpl app. rewrite lookup_cons.
    destruct (Str.eqb (Db.cell_str (Db.Item_Code r0)) code) eqn:E.
    + apply str_eqb_eq in E.
      rewrite (Huniq r0); [reflexivity|now left|assumption].
    + apply IH. intros r' Hr' Hc. apply Huniq; [now right|assumption].
Qed.

Lemma C1_witness :
  lookup (Db.astype_str
            [Db.mkrow (Db.CInt 10012345) (Db.CInt 5000) (chars "Food");
             Db.mkrow (Db.CStr (chars "00012345")) (Db.CInt 6000)
                      (chars "Paper")])
         (chars "00012345")
  = (Db.CInt 6000, chars "Paper")
  /\ lookup (Db.astype_str
               [Db.mkrow (Db.CInt 12345) (Db.CInt 5000) (chars "Food")])
            (chars "00012345")
     = (Db.CStr NOT_FOUND, NOT_FOUND).
Proof.
  split.
  - apply (proj1 C1_lookup_by_exact_text
             [Db.mkrow (Db.CInt 10012345) (Db.CInt 5000) (chars "Food");
              Db.mkrow (Db.CStr (chars "00012345")) (Db.CInt 6000)
                       (chars "Paper")]
             (Db.mkrow (Db.CStr (chars "00012345")) (Db.CInt 6000)
                       (chars "Paper"))).
    + simpl. auto.
    + reflexivity.
    + intros r' [<-|[<-|[]]] H; [vm_compute in H; discriminate|reflexivity].
  - apply (proj2 C1_lookup_by_exact_text).
    intros r [<-|[]]. vm_compute. discriminate.
Defined.

(** The row with the item code 12345, a number in the sheet, is not found
    by the code 00012345 of its own item lines: the table side is not
    padded. *)
Lemma C1_counterexample :
  ~ (forall db r,
        In r db ->
        lookup (Db.astype_str db) (zfill (Db.cell_str (Db.Item_Code r)) 8)
        = (Db.GL_Code r, Db.GL_Description r))
  /\ exists r,
      process_tdl_invoice
        [Db.mkrow (Db.CInt 12345) (Db.CInt 5000) (chars "Food")]
        [chars "12345 2 0.00 2.50 5.00"] = Ok r
      /\ map Item_Code (rep_items r) = [chars "00012345"]
      /\ map GL_Description (rep_items r) = [NOT_FOUND].
Proof.
  split.
  - intros H.
    specialize (H [Db.mkrow (Db.CInt 12345) (Db.CInt 5000) (chars "Food")]
                  (Db.mkrow (Db.CInt 12345) (Db.CInt 5000) (chars "Food"))
                  (or_introl eq_refl)).
    vm_compute in H. discriminate H.
  - eexists. split; [vm_compute; reflexivity|].
    split; vm_compute; reflexivity.
Qed.

(** C2. When several rows have the code as their text, the lookup
    answers with the first of them in the order of the table; the rows
    behind it play no part, so the table behaves as if it had one entry
    for the code. *)
Theorem C2_first_row_wins :
  forall pre r post code,
    (forall r', In r' pre -> Db.cell_str (Db.Item_Code r') <> code) ->
    Db.cell_str (Db.Item_Code r) = code ->
    lookup (Db.astype_str (pre ++ r :: post)) code
    = (Db.GL_Code r, Db.GL_Description r)
    /\ lookup (Db.astype_str (pre ++ r :: post)) code
       = lookup (Db.astype_str (pre ++ [r])) code.
Proof.
  intros pre r post code Hpre Hr. split.
  - now apply lookup_first.
  - rewrite !lookup_first by assumption. reflexivity.
Qed.

Lemma C2_witness :
  lookup (Db.astype_str
            ([] ++ Db.mkrow (Db.CStr (chars "00012345")) (Db.CInt 6000)
                            (chars "Paper")
                :: [Db.mkrow (Db.CStr (chars "00012345")) (Db.CInt 7000)
                             (chars "Other")]))
         (chars "00012345")
  = (Db.CInt 6000, chars "Paper")
  /\ lookup (Db.astype_str
               ([] ++ Db.mkrow (Db.CStr (chars "00012345")) (Db.CInt 6000)
                               (chars "Paper")
                   :: [Db.mkrow (Db.CStr (chars "00012345")) (Db.CInt 7000)
                                (chars "Other")]))
            (chars "00012345")
     = lookup (Db.astype_str
                 ([] ++ [Db.mkrow (Db.CStr (chars "00012345")) (Db.CInt 6000)
                                  (chars "Paper")]))
              (chars "00012345").
Proof.
  apply (C2_first_row_wins []
           (Db.mkrow (Db.CStr (chars "00012345")) (Db.CInt 6000)
                     (chars "Paper"))
           [Db.mkrow (Db.CStr (chars "00012345")) (Db.CInt 7000)
                     (chars "Other")]).
  - intros r' [].
  - reflexivity.
Defined.

(** With two rows for the code 00012345 the lookup does not answer with
    the one loaded last. *)
Lemma C2_counterexample :
  ~ (forall pre r post code,
        Db.cell_str (Db.Item_Code r) = code ->
        (forall r', In r' post -> Db.cell_str (Db.Item_Code r') <> code) ->
        lookup (Db.astype_str (pre ++ r :: post)) code
        = (Db.GL_Code r, Db.GL_Description r)).
Proof.
  intros H.
  specialize (H [Db.mkrow (Db.CStr (chars "00012345")) (Db.CInt 6000)
                          (chars "Paper")]
                (Db.mkrow (Db.CStr (chars "00012345")) (Db.CInt 7000)
                          (chars "Other"))
                [] (chars "00012345") eq_refl (fun r' F => match F with end)).
  vm_compute in H. discriminate H.
Qed.

(** ** The charges of the last page (C6) *)

Lemma bind_ok (A B : Type) (m : result A) (f : A -> result B) b :
  bind m f = Ok b -> exists a, m = Ok a /\ f a = Ok b.
Proof. destruct m as [a|e]; simpl; [eauto|discriminate]. Qed.

(** *** The group of an amount pattern is a decimal literal *)

Lemma exec_lits str ns g p s r :
  exec (lits str ++ ns) g p s = Some r ->
  exists s1, s = chars str ++ s1 /\
             exec ns g (p + List.length (chars str)) s1 = Some r.
Proof.
  unfold lits. revert p s.
  induction (chars str) as [|c cs IH]; intros p s H; simpl in *.
  - exists s. now rewrite Nat.add_0_r.
  - unfold one in H. rewrite rep_one in H.
    destruct s as [|x s]; [discriminate|]. simpl in H.
    destruct (Ascii.eqb x c) eqn:E; [|discriminate].
    apply Ascii.eqb_eq in E. subst x.
    apply IH in H as (s1 & -> & H). exists s1. split; [reflexivity|].
    now replace (p + S (List.length cs)) with (S p + List.length cs) by lia.
Qed.

(** [(\d+\.\d+)] at position [p]: the span of the group and the text in
    it. *)
Lemma exec_amount_group g p s r :
  exec ([Open] ++ amount ++ [Close]) g p s = Some r ->
  exists d1 d2 rest,
    s = (d1 ++ "."%char :: d2) ++ rest /\ decimal_literal (d1 ++ "."%char :: d2)
    /\ r = (p, p + List.length (d1 ++ "."%char :: d2)).
Proof.
  unfold amount. cbn [app exec plus]. intros H.
  apply rep_sound in H as (d1 & v1 & -> & Hd1 & Hlo1 & _ & H).
  cbn [exec one] in H. rewrite rep_one in H.
  destruct v1 as [|x v1]; [discriminate|]. simpl atom_matches in H.
  destruct (Ascii.eqb x ".") eqn:E; [|discriminate].
  apply Ascii.eqb_eq in E. subst x.
  cbn [exec plus] in H.
  apply rep_sound in H as (d2 & rest & -> & Hd2 & Hlo2 & _ & H).
  cbn [exec fst] in H. injection H as <-.
  exists d1, d2, rest. split; [|split].
  - now rewrite <- app_assoc.
  - exists d1, d2. repeat split; auto.
    destruct d1; simpl in *; [lia|discriminate].
  - f_equal. rewrite length_app. simpl. lia.
Qed.

(** A pattern made of quantified characters in front of [(\d+\.\d+)]. *)
Lemma exec_prefix_amount pre : forall g p s r,
  Forall (fun n => exists a lo hi, n = Rep a lo hi) pre ->
  exec (pre ++ [Open] ++ amount ++ [Close]) g p s = Some r ->
  exists u m rest,
    s = u ++ m ++ rest /\ decimal_literal m /\
    r = (p + List.length u, p + List.length u + List.length m).
Proof.
  induction pre as [|n pre IH]; intros g p s r Hpre H.
  - apply exec_amount_group in H as (d1 & d2 & rest & -> & Hm & ->).
    exists [], (d1 ++ "."%char :: d2), rest. simpl.
    rewrite Nat.add_0_r. auto.
  - inversion Hpre as [|? ? (a & lo & hi & ->) Hpre']; subst.
    cbn [app exec] in H.
    apply rep_sound in H as (u0 & v & -> & _ & _ & _ & H).
    apply IH in H as (u & m & rest & -> & Hm & ->); [|assumption].
    exists (u0 ++ u), m, rest. rewrite <- app_assoc, length_app.
    repeat split; auto. f_equal; lia.
Qed.

Lemma lits_reps str :
  Forall (fun n => exists a lo hi, n = Rep a lo hi) (lits str).
Proof.
  unfold lits. apply Forall_forall. intros n Hn.
  apply in_map_iff in Hn as (c & <- & _). unfold one. eauto.
Qed.

Lemma search_from_sound ns s : forall p r,
  search_from ns p s = Some r ->
  exists skipped s', s = skipped ++ s' /\
                     exec ns (0, 0) (p + List.length skipped) s' = Some r.
Proof.
  induction s as [|c s IH]; intros p r H; simpl in H.
  - destruct (exec ns (0, 0) p []) eqn:E; [|discriminate].
    exists [], []. simpl. rewrite Nat.add_0_r. split; congruence.
  - destruct (exec ns (0, 0) p (c :: s)) eqn:E.
    + exists [], (c :: s). simpl. rewrite Nat.add_0_r. split; congruence.
    + apply IH in H as (sk & s' & -> & H).
      exists (c :: sk), s'. simpl. split; [reflexivity|].
      now replace (p + S (List.length sk)) with (S p + List.length sk) by lia.
Qed.

Lemma slice_middle (a m c : str) :
  slice (a ++ m ++ c) (List.length a) (List.length a + List.length m) = m.
Proof.
  unfold slice. rewrite skipn_app, skipn_all, Nat.sub_diag. simpl.
  replace (List.length a + List.length m - List.length a)
    with (List.length m) by lia.
  rewrite firstn_app, firstn_all, Nat.sub_diag. simpl. apply app_nil_r.
Qed.

(** The group found by a search for a label, blanks and [(\d+\.\d+)] is a
    text of [\d+\.\d*], so [float] accepts it. *)
Lemma amount_search_parses pre text g :
  Forall (fun n => exists a lo hi, n = Rep a lo hi) pre ->
  re_search (pre ++ [Open] ++ amount ++ [Close]) text = Some g ->
  exists f, Float64.of_str g = Ok f.
Proof.
  intros Hpre H. unfold re_search in H.
  destruct (search_from _ 0 text) as [[b e]|] eqn:E; [|discriminate].
  injection H as <-.
  apply search_from_sound in E as (sk & s' & -> & E).
  apply exec_prefix_amount in E as (u & m & rest & -> & Hm & Hr);
    [|assumption].
  injection Hr as -> ->. simpl.
  rewrite (app_assoc sk u (m ++ rest)), <- length_app.
  rewrite slice_middle. apply of_str_literal. now right.
Qed.

Lemma fuel_re_shape :
  exists pre, Forall (fun n => exists a lo hi, n = Rep a lo hi) pre /\
              fuel_re = pre ++ [Open] ++ amount ++ [Close].
Proof.
  exists (lits "Fuel Surcharge" ++ [plus Space] ++ amount ++ [plus Space]
          ++ lits "0.00" ++ [plus Space]).
  split.
  - repeat (apply Forall_app; split); try apply lits_reps;
      repeat constructor; unfold plus, one; eauto.
  - unfold fuel_re. now rewrite <- !app_assoc.
Qed.

Lemma fuel_alt_re_shape :
  exists pre, Forall (fun n => exists a lo hi, n = Rep a lo hi) pre /\
              fuel_alt_re = pre ++ [Open] ++ amount ++ [Close].
Proof.
  exists (lits "Fuel Surcharge" ++ [plus Space]).
  split.
  - apply Forall_app; split; [apply lits_reps|].
    repeat constructor. unfold plus. eauto.
  - unfold fuel_alt_re. now rewrite <- !app_assoc.
Qed.

(** Lines 158-165 raise nothing. *)
Lemma extract_fuel_surcharge_total text current :
  exists f, extract_fuel_surcharge text current = Ok f.
Proof.
  unfold extract_fuel_surcharge.
  destruct fuel_re_shape as (pre & Hpre & E1).
  destruct fuel_alt_re_shape as (pre' & Hpre' & E2).
  destruct (re_search fuel_re text) as [g|] eqn:H1.
  - rewrite E1 in H1. exact (@amount_search_parses pre text g Hpre H1).
  - destruct (re_search fuel_alt_re text) as [g|] eqn:H2; [|eauto].
    rewrite E2 in H2. exact (@amount_search_parses pre' text g Hpre' H2).
Qed.

(** Only the last page sets the charges: after all the pages the fuel
    surcharge is what lines 158-165 make of the last page's text and of
    the value before. *)
Lemma process_pages_fuel db n init : forall st page_num last st',
  page_num + List.length init + 1 = n ->
  process_pages db n st page_num (init ++ [last]) = Ok st' ->
  extract_fuel_surcharge last (fuel_surcharge st) = Ok (fuel_surcharge st').
Proof.
  induction init as [|text init IH]; intros st k last st' Hn H;
    simpl in H; apply bind_ok in H as (st1 & H1 & H).
  - injection H as <-. unfold process_page in H1.
    apply bind_ok in H1 as (its & _ & H1).
    assert (Ek : (k =? n - 1) = true) by (apply Nat.eqb_eq; simpl in Hn; lia).
    rewrite Ek in H1.
    apply bind_ok in H1 as (t & _ & H1).
    apply bind_ok in H1 as (f & Hf & H1).
    apply bind_ok in H1 as (g & _ & H1).
    injection H1 as <-. exact Hf.
  - assert (E : fuel_surcharge st1 = fuel_surcharge st).
    { unfold process_page in H1.
      apply bind_ok in H1 as (its & _ & H1).
      assert (Ek : (k =? n - 1) = false)
        by (apply Nat.eqb_neq; simpl in Hn; lia).
      rewrite Ek in H1. now injection H1 as <-. }
    rewrite <- E. apply (IH st1 (S k)); [simpl in Hn; lia|exact H].
Qed.

(** C6. The fuel surcharge is [float] of the group of the primary
    pattern when that pattern is found in the text; only when it is not
    found, [float] of the group of the alternate pattern; and the value it
    had when neither is found.  "Fuel Surcharge 12.50 0.00 3.75" gives
    3.75, "Fuel Surcharge 4.20" gives 4.20, and a report for pages whose
    last one has neither pattern shows the initial 0.0.  The extraction
    raises nothing: a group of either pattern is a text [float]
    accepts. *)
Theorem C6_fuel_surcharge_fallback :
  (forall text current g,
      re_search fuel_re text = Some g ->
      extract_fuel_surcharge text current = Float64.of_str g)
  /\ (forall text current g,
         re_search fuel_re text = None ->
         re_search fuel_alt_re text = Some g ->
         extract_fuel_surcharge text current = Float64.of_str g)
  /\ (forall text current,
         re_search fuel_re text = None ->
         re_search fuel_alt_re text = None ->
         extract_fuel_surcharge text current = Ok current)
  /\ extract_fuel_surcharge (chars "Fuel Surcharge 12.50 0.00 3.75")
                            Float64.zero = Ok f_3_75
  /\ extract_fuel_surcharge (chars "Fuel Surcharge 4.20") Float64.zero
     = Ok f_4_20
  /\ (forall db init last r,
         re_search fuel_re last = None ->
         re_search fuel_alt_re last = None ->
         process_tdl_invoice db (init ++ [last]) = Ok r ->
         rep_fuel_surcharge r = Float64.zero)
  /\ (forall text current,
         exists f, extract_fuel_surcharge text current = Ok f).
Proof.
  split; [|split; [|split; [|split; [|split; [|split]]]]];
    [| | | | | |exact extract_fuel_surcharge_total].
  - intros text current g H. unfold extract_fuel_surcharge. now rewrite H.
  - intros text current g H1 H2. unfold extract_fuel_surcharge.
    now rewrite H1, H2.
  - intros text current H1 H2. unfold extract_fuel_surcharge.
    now rewrite H1, H2.
  - vm_compute. reflexivity.
  - vm_compute. reflexivity.
  - intros db init last r H1 H2 H. unfold process_tdl_invoice in H.
    apply bind_ok in H as (st & Hst & H). injection H as <-.
    unfold extract in Hst. apply process_pages_fuel in Hst.
    + unfold extract_fuel_surcharge in Hst. rewrite H1, H2 in Hst.
      simpl. now injection Hst as <-.
    + rewrite length_app. simpl. lia.
Qed.

Lemma C6_witness :
  extract_fuel_surcharge (chars "Fuel Surcharge 12.50 0.00 3.75") f_4_20
  = Float64.of_str (chars "3.75")
  /\ extract_fuel_surcharge (chars "Fuel Surcharge 4.20") Float64.zero
     = Float64.of_str (chars "4.20")
  /\ extract_fuel_surcharge (chars "Total 25.00") f_4_20 = Ok f_4_20
  /\ (forall r,
         process_tdl_invoice [] ([scenario_A] ++ [chars "Total 25.00"])
         = Ok r ->
         rep_fuel_surcharge r = Float64.zero).
Proof.
  split; [|split; [|split]].
  - apply (proj1 C6_fuel_surcharge_fallback). vm_compute. reflexivity.
  - apply (proj1 (proj2 C6_fuel_surcharge_fallback));
      vm_compute; reflexivity.
  - apply (proj1 (proj2 (proj2 C6_fuel_surcharge_fallback)));
      vm_compute; reflexivity.
  - intros r.
    apply (proj1 (proj2 (proj2 (proj2 (proj2
                    (proj2 C6_fuel_surcharge_fallback)))))
             [] [scenario_A] (chars "Total 25.00") r);
      vm_compute; reflexivity.
Defined.

(** ** The summary *)

Lemma first_seen_snoc l k :
  first_seen (l ++ [k]) =
  if existsb (Str.eqb k) (first_seen l) then first_seen l
  else first_seen l ++ [k].
Proof. unfold first_seen. now rewrite fold_left_app. Qed.

Lemma existsb_eqb_in k (l : list str) :
  existsb (Str.eqb k) l = true <-> In k l.
Proof.
  rewrite existsb_exists. split.
  - intros (x & Hx & E). apply str_eqb_eq in E. now subst.
  - intros H. exists k. split; [assumption|apply str_eqb_refl].
Qed.

Lemma first_seen_in l k : In k (first_seen l) <-> In k l.
Proof.
  induction l as [|x l IH] using rev_ind; [reflexivity|].
  rewrite first_seen_snoc, in_app_iff. simpl.
  destruct (existsb (Str.eqb x) (first_seen l)) eqn:E.
  - apply existsb_eqb_in in E. rewrite IH. split; [tauto|].
    intros [H|[<-|[]]]; [assumption|]. now apply IH.
  - rewrite in_app_iff, IH. simpl. tauto.
Qed.

Lemma first_seen_nodup l : NoDup (first_seen l).
Proof.
  induction l as [|x l IH] using rev_ind; [constructor|].
  rewrite first_seen_snoc.
  destruct (existsb (Str.eqb x) (first_seen l)) eqn:E; [assumption|].
  apply NoDup_app; [assumption|repeat constructor; intros []|].
  intros a Ha [<-|[]].
  apply existsb_eqb_in in Ha. congruence.
Qed.

Section GroupingFacts.
Variables I T : Type.
Variable key : I -> str.
Variable amount : I -> T.
Variable add : T -> T -> T.
Variable zero : T.

Lemma get_map (g : str -> T) ks k d :
  get (map (fun k' => (k', g k')) ks) k d = if existsb (Str.eqb k) ks
                                            then g k else d.
Proof.
  induction ks as [|x ks IH]; simpl; [reflexivity|].
  destruct (Str.eqb x k) eqn:E.
  - apply str_eqb_eq in E. subst. now rewrite str_eqb_refl.
  - assert (Str.eqb k x = false) as ->.
    { apply str_eqb_neq. apply str_eqb_neq in E. congruence. }
    exact IH.
Qed.

Lemma set_map_notin (g : str -> T) ks k v :
  ~ In k ks ->
  set (map (fun k' => (k', g k')) ks) k v
  = map (fun k' => (k', g k')) ks ++ [(k, v)].
Proof.
  induction ks as [|x ks IH]; simpl; intros H; [reflexivity|].
  assert (Str.eqb x k = false) as -> by (apply str_eqb_neq; tauto).
  rewrite IH by tauto. reflexivity.
Qed.

Lemma set_map_in (g : str -> T) ks k v :
  NoDup ks -> In k ks ->
  set (map (fun k' => (k', g k')) ks) k v
  = map (fun k' => (k', if Str.eqb k' k then v else g k')) ks.
Proof.
  induction ks as [|x ks IH]; simpl; intros Hnd Hin; [contradiction|].
  inversion Hnd as [|? ? Hx Hnd']; subst.
  destruct (Str.eqb x k) eqn:E.
  - apply str_eqb_eq in E. subst x. f_equal.
    apply map_ext_in. intros a Ha.
    assert (Str.eqb a k = false) as ->; [|reflexivity].
    apply str_eqb_neq. intros ->. contradiction.
  - f_equal. apply IH; [assumption|].
    destruct Hin as [->|]; [|assumption].
    rewrite str_eqb_refl in E. discriminate.
Qed.

Lemma group_total_snoc k items it :
  group_total key amount add zero k (items ++ [it]) =
  if Str.eqb (key it) k
  then add (group_total key amount add zero k items) (amount it)
  else group_total key amount add zero k items.
Proof.
  unfold group_total. rewrite filter_app. simpl.
  destruct (Str.eqb (key it) k).
  - now rewrite map_app, fold_left_app.
  - now rewrite app_nil_r.
Qed.

Lemma group_total_absent k items :
  ~ In k (map key items) -> group_total key amount add zero k items = zero.
Proof.
  intros H. unfold group_total.
  replace (filter (fun it => Str.eqb (key it) k) items) with (@nil I);
    [reflexivity|].
  symmetry. induction items as [|it items IH]; simpl; [reflexivity|].
  simpl in H.
  assert (Str.eqb (key it) k = false) as -> by (apply str_eqb_neq; tauto).
  apply IH. tauto.
Qed.

(** The dict after the loop of lines 192-194: one entry per key, in the
    order in which the keys are first met, each holding the sum of the
    amounts with its key. *)
Lemma group_sums_closed items :
  group_sums key amount add zero items
  = map (fun k => (k, group_total key amount add zero k items))
        (first_seen (map key items)).
Proof.
  induction items as [|it items IH] using rev_ind; [reflexivity|].
  unfold group_sums in *. rewrite fold_left_app. cbn [fold_left].
  rewrite IH, map_app. cbn [map]. rewrite first_seen_snoc, get_map.
  destruct (existsb (Str.eqb (key it)) (first_seen (map key items))) eqn:E.
  - rewrite set_map_in;
      [|apply first_seen_nodup|now apply existsb_eqb_in].
    apply map_ext. intros k. f_equal.
    rewrite group_total_snoc.
    destruct (Str.eqb k (key it)) eqn:Ek.
    + apply str_eqb_eq in Ek. subst k. now rewrite str_eqb_refl.
    + assert (Str.eqb (key it) k = false) as ->; [|reflexivity].
      apply str_eqb_neq. apply str_eqb_neq in Ek. congruence.
  - assert (Hnot : ~ In (key it) (first_seen (map key items))).
    { intros H. apply existsb_eqb_in in H. congruence. }
    rewrite set_map_notin by assumption.
    rewrite map_app. cbn [map]. f_equal.
    + apply map_ext_in. intros k Hk. f_equal.
      rewrite group_total_snoc.
      assert (Str.eqb (key it) k = false) as ->; [|reflexivity].
      apply str_eqb_neq. intros <-. contradiction.
    + f_equal. f_equal.
      rewrite group_total_snoc.
      rewrite str_eqb_refl. f_equal. symmetry.
      apply group_total_absent. now rewrite <- first_seen_in.
Qed.

Lemma group_sums_in items it :
  In it items ->
  In (key it, group_total key amount add zero (key it) items)
     (group_sums key amount add zero items).
Proof.
  intros H. rewrite group_sums_closed.
  apply (in_map (fun k => (k, group_total key amount add zero k items))).
  apply first_seen_in. now apply in_map.
Qed.
End GroupingFacts.

(** ** Sorting *)

(** What the sort does with keys that [<] does not order.  The runs of
    [3.0, nan, 1.0, 2.0] sorted with [reverse=True]: *)
Example sorted_with_nan :
  sorted_reverse Float64.ltb [f_3_00; S754_nan; f_1_00; f_2_00]
  = [f_3_00; S754_nan; f_2_00; f_1_00].
Proof. reflexivity. Qed.

(** 150 keys, every ninth of them NaN: several runs, extended by
    [binarysort] and merged. *)
Example sorted_reverse_150 :
  sorted_reverse nan_lt (nan_keys 150)
  =
    [0; 0; 0; 101; 98; 95; 91; 88; 85; 81; 0; 84; 75; 74; 71; 68; 64; 61;
     58; 54; 51; 47; 44; 41; 38; 34; 31; 27; 24; 21; 17; 14; 11; 10; 4; 1;
     0; 0; 0; 100; 94; 0; 93; 90; 87; 83; 80; 77; 76; 73; 70; 66; 63; 60;
     57; 53; 50; 46; 43; 40; 39; 36; 33; 30; 29; 23; 20; 19; 16; 13; 9; 6;
     3; 2; 0; 0; 99; 96; 0; 92; 89; 0; 95; 85; 82; 79; 72; 69; 68; 65; 62;
     59; 58; 55; 52; 49; 48; 42; 38; 35; 32; 31; 28; 25; 22; 21; 18; 12;
     11; 8; 5; 1; 0; 0; 0; 101; 98; 91; 88; 84; 81; 78; 71; 54; 0; 87; 77;
     74; 67; 61; 57; 51; 50; 47; 44; 41; 40; 37; 30; 27; 24; 20; 17; 14;
     13; 10; 7; 3; 0; 60].
Proof. vm_compute. reflexivity. Qed.

Example list_sort_150 :
  list_sort nan_lt (nan_keys 150)
  =
    [1; 4; 10; 11; 14; 17; 20; 21; 24; 27; 31; 34; 38; 41; 44; 47; 51; 54;
     57; 68; 74; 75; 0; 58; 61; 64; 71; 81; 84; 85; 88; 95; 0; 98; 0; 91;
     101; 0; 2; 3; 6; 9; 12; 13; 16; 19; 23; 29; 30; 33; 36; 39; 40; 43;
     46; 49; 53; 60; 66; 73; 87; 94; 0; 50; 77; 0; 63; 70; 80; 83; 90; 0;
     100; 0; 76; 93; 0; 1; 5; 8; 11; 18; 21; 22; 25; 28; 31; 32; 35; 38;
     41; 42; 48; 52; 55; 58; 59; 62; 65; 68; 69; 72; 79; 82; 85; 92; 96; 0;
     89; 99; 0; 0; 95; 0; 3; 7; 10; 13; 14; 17; 20; 24; 27; 30; 37; 40; 44;
     47; 50; 51; 54; 57; 60; 61; 67; 71; 74; 77; 78; 81; 84; 87; 88; 98; 0;
     91; 0; 101; 0; 0].
Proof. vm_compute. reflexivity. Qed.

(** The sort gives back the elements it was given. *)
Section SortingFacts.
Variable A : Type.
Variable lt : A -> A -> bool.

#[local] Instance app_assoc_perm : Associative (@Permutation A) (@app A).
Proof. intros x y z. now rewrite app_assoc. Qed.
#[local] Instance app_comm_perm : Commutative (@Permutation A) (@app A).
Proof. intros x y. apply Permutation_app_comm. Qed.
#[local] Instance app_unit_perm : Unit (@Permutation A) (@app A) nil.
Proof. split; intros x; [reflexivity|now rewrite app_nil_r]. Qed.

Lemma cons_single (x : A) l : x :: l = single x ++ l.
Proof. reflexivity. Qed.

Ltac perm := rewrite ?cons_single; aac_reflexivity.

(* Split [l] at [k] everywhere in the goal. *)
Ltac split_at k l :=
  let E := fresh "E" in
  let o := fresh "o" in
  let r := fresh "r" in
  pose proof (firstn_skipn k l) as E;
  set (o := firstn k l) in *; set (r := skipn k l) in *;
  clearbody o r; rewrite <- ?E.

Lemma binary_insert_perm pre x :
  Permutation (binary_insert lt pre x) (x :: pre).
Proof.
  unfold binary_insert.
  set (k := bisect _ _ _ _ _ _). clearbody k.
  split_at k pre. perm.
Qed.

Lemma binarysort_perm rest : forall sorted,
  Permutation (binarysort lt sorted rest) (sorted ++ rest).
Proof.
  unfold binarysort.
  induction rest as [|x rest IH]; intros sorted; simpl.
  - now rewrite app_nil_r.
  - rewrite IH, binary_insert_perm. perm.
Qed.

Lemma fst_emit pre (r : list A * nat) : fst (emit pre r) = pre ++ fst r.
Proof. reflexivity. Qed.

Local Opaque gallop_left gallop_right.

Ltac norm_tests :=
  cbn [is_nil length_is_1 andb negb]; rewrite ?andb_false_r, ?andb_true_r.

Ltac branches :=
  norm_tests;
  repeat match goal with
         | |- context [is_nil ?l] => is_var l; destruct l; norm_tests
         | |- context [if ?c then _ else _] => destruct c
         end.

Lemma merge_lo_loop_perm fuel : forall ph mg smg a b,
  Permutation (fst (merge_lo_loop lt fuel ph mg smg a b)) (a ++ b).
Proof.
  induction fuel as [|fuel IH]; intros ph mg smg a b; [reflexivity|].
  cbn [merge_lo_loop].
  destruct ph as [acount bcount|], a as [|x a], b as [|y b];
    try reflexivity.
  - branches; cbn [fst]; rewrite ?fst_emit, ?IH; perm.
  - cbv zeta.
    set (k := gallop_right lt y (x :: a) 0). clearbody k.
    split_at k (x :: a).
    destruct r as [|x1 a1].
    + branches; cbn [fst]; perm.
    + destruct b as [|y2 b2]; [branches; cbn [fst]; perm|].
      norm_tests.
      set (k2 := gallop_left lt x1 (y2 :: b2) 0). clearbody k2.
      split_at k2 (y2 :: b2).
      branches; cbn [fst]; rewrite ?fst_emit, ?IH; perm.
Qed.

Lemma merge_lo_perm a b mg :
  Permutation (fst (merge_lo lt a b mg)) (a ++ b).
Proof.
  unfold merge_lo. destruct b as [|y b]; cbn [fst]; [now rewrite app_nil_r|].
  branches; cbn [fst]; rewrite ?fst_emit, ?merge_lo_loop_perm; perm.
Qed.

Lemma merge_hi_loop_perm fuel : forall ph mg smg ra rb,
  Permutation (fst (merge_hi_loop lt fuel ph mg smg ra rb)) (ra ++ rb).
Proof.
  induction fuel as [|fuel IH]; intros ph mg smg ra rb;
    [cbn [merge_hi_loop fst]; perm|].
  cbn [merge_hi_loop].
  destruct ph as [acount bcount|], ra as [|x ra], rb as [|y rb];
    cbn [fst]; try perm.
  - branches; cbn [fst]; rewrite ?fst_emit, ?IH; perm.
  - cbv zeta.
    set (k := _ - gallop_right lt y _ _). clearbody k.
    split_at k (x :: ra).
    destruct r as [|x1 ra1].
    + branches; cbn [fst]; perm.
    + destruct rb as [|y2 rb2];
        [cbn; rewrite ?firstn_nil, ?skipn_nil; branches; cbn [fst];
         rewrite ?fst_emit, ?IH; perm|].
      norm_tests.
      set (k2 := _ - gallop_left lt x1 _ _). clearbody k2.
      split_at k2 (y2 :: rb2).
      branches; cbn [fst]; rewrite ?fst_emit, ?IH; perm.
Qed.

Lemma merge_hi_perm a b mg :
  Permutation (fst (merge_hi lt a b mg)) (a ++ b).
Proof.
  transitivity (rev a ++ rev b); [|now rewrite <- !Permutation_rev].
  unfold merge_hi.
  destruct (rev a) as [|x ra]; cbn [fst]; [apply Permutation_rev|].
  rewrite <- Permutation_rev.
  branches; cbn [fst]; rewrite ?fst_emit, ?merge_hi_loop_perm; perm.
Qed.

Lemma merge_at_perm a b mg :
  Permutation (fst (merge_at lt a b mg)) (a ++ b).
Proof.
  unfold merge_at. destruct b as [|y b]; cbn [fst]; [perm|].
  set (k := gallop_right lt y a 0). clearbody k.
  split_at k a.
  destruct (rev r) as [|z ra]; [reflexivity|].
  set (nb := gallop_left lt z (y :: b) _). clearbody nb.
  destruct (nb =? 0); [reflexivity|].
  cbv zeta. cbn [fst].
  split_at nb (y :: b).
  destruct (_ <=? _); rewrite ?merge_lo_perm, ?merge_hi_perm; perm.
Qed.

Lemma flat_cons r pw (p : pending A) : flat ((r, pw) :: p) = flat p ++ r.
Proof.
  unfold flat. cbn [map fst rev]. rewrite concat_app. simpl.
  now rewrite app_nil_r.
Qed.

Lemma collapse_perm fuel power : forall p mg,
  Permutation (flat (fst (collapse lt fuel power p mg))) (flat p).
Proof.
  induction fuel as [|fuel IH]; intros p mg; [reflexivity|].
  cbn [collapse].
  destruct p as [|[r1 p1] [|[r2 p2] rest]]; try reflexivity.
  destruct (power <? p2); [|reflexivity].
  pose proof (merge_at_perm r2 r1 mg) as H.
  destruct (merge_at lt r2 r1 mg) as [m mg']. cbn [fst] in H.
  rewrite IH, !flat_cons, H. perm.
Qed.

Lemma found_new_run_perm listlen p mg n2 :
  Permutation (flat (fst (found_new_run lt listlen p mg n2))) (flat p).
Proof.
  unfold found_new_run. destruct p as [|[r1 p1] rest]; [reflexivity|].
  set (power := powerloop _ _ _ _). clearbody power.
  pose proof (collapse_perm (length ((r1, p1) :: rest)) power
                            ((r1, p1) :: rest) mg) as H.
  destruct (collapse _ _ _ _ _) as [p' mg']. cbn [fst] in H.
  destruct p' as [|[r pw] rest']; cbn [fst]; [assumption|].
  rewrite flat_cons in *. assumption.
Qed.

Lemma merge_force_collapse_perm fuel : forall p mg,
  Permutation (flat (merge_force_collapse lt fuel p mg)) (flat p).
Proof.
  induction fuel as [|fuel IH]; intros p mg; [reflexivity|].
  cbn [merge_force_collapse].
  destruct p as [|[r1 p1] [|[r2 p2] rest]]; try reflexivity.
  destruct rest as [|[r3 p3] rest'].
  - pose proof (merge_at_perm r2 r1 mg) as H.
    destruct (merge_at lt r2 r1 mg) as [m mg']. cbn [fst] in H.
    rewrite IH, !flat_cons, H. perm.
  - destruct (length r3 <? length r1).
    + pose proof (merge_at_perm r3 r2 mg) as H.
      destruct (merge_at lt r3 r2 mg) as [m mg']. cbn [fst] in H.
      rewrite IH, !flat_cons, H. perm.
    + pose proof (merge_at_perm r2 r1 mg) as H.
      destruct (merge_at lt r2 r1 mg) as [m mg']. cbn [fst] in H.
      rewrite IH, !flat_cons, H. perm.
Qed.

Lemma run_ascending_le l : forall prev, run_ascending lt prev l <= length l.
Proof.
  induction l as [|x l IH]; intros prev; simpl; [lia|].
  destruct (lt x prev); [lia|]. specialize (IH x). lia.
Qed.

Lemma run_descending_le l : forall prev, run_descending lt prev l <= length l.
Proof.
  induction l as [|x l IH]; intros prev; simpl; [lia|].
  destruct (lt x prev); [|lia]. specialize (IH x). lia.
Qed.

Lemma count_run_le l : fst (count_run lt l) <= length l.
Proof.
  destruct l as [|x [|y l]]; simpl; try lia.
  destruct (lt y x); cbn [fst].
  - pose proof (run_descending_le l y). lia.
  - pose proof (run_ascending_le l y). lia.
Qed.

Lemma count_run_pos l : l <> [] -> 1 <= fst (count_run lt l).
Proof.
  destruct l as [|x [|y l]]; simpl; try lia; [congruence|].
  destruct (lt y x); cbn [fst]; lia.
Qed.

Lemma firstn_plus n m (l : list A) :
  firstn (n + m) l = firstn n l ++ firstn m (skipn n l).
Proof.
  revert l. induction n as [|n IH]; intros l; [reflexivity|].
  destruct l as [|x l]; simpl; [now rewrite firstn_nil|]. now rewrite IH.
Qed.

(** One turn of the loop: the run it pushes and what it leaves. *)
Lemma next_run_perm rest minrun :
  let n := fst (count_run lt rest) in
  let run := firstn n rest in
  let run := if snd (count_run lt rest) then rev run else run in
  let force := Nat.min (length rest) minrun in
  let n' := if n <? minrun then force else n in
  let run := if n <? minrun
             then binarysort lt run (firstn (force - n) (skipn n rest))
             else run in
  Permutation (run ++ skipn n' rest) rest.
Proof.
  cbv zeta. pose proof (count_run_le rest) as Hle.
  set (n := fst (count_run lt rest)) in *.
  assert (Hrun : Permutation
                   (if snd (count_run lt rest) then rev (firstn n rest)
                    else firstn n rest) (firstn n rest)).
  { destruct (snd _); [symmetry; apply Permutation_rev|reflexivity]. }
  destruct (n <? minrun) eqn:E.
  - apply Nat.ltb_lt in E.
    rewrite binarysort_perm, Hrun.
    set (force := Nat.min _ _).
    rewrite <- (firstn_skipn force rest) at 4.
    replace force with (n + (force - n)) at 3 by (subst force; lia).
    rewrite firstn_plus. reflexivity.
  - rewrite Hrun. now rewrite firstn_skipn.
Qed.

Lemma sort_runs_perm fuel listlen minrun : forall p mg rest,
  Permutation (flat (fst (sort_runs lt fuel listlen minrun p mg rest)))
              (flat p ++ rest).
Proof.
  induction fuel as [|fuel IH]; intros p mg rest.
  - cbn [sort_runs fst]. now rewrite flat_cons.
  - cbn [sort_runs]. destruct rest as [|x rest']; [now rewrite app_nil_r|].
    set (rest := x :: rest') in *.
    pose proof (next_run_perm rest minrun) as H. cbv zeta in H.
    destruct (count_run lt rest) as [n descending]. cbn [fst snd] in H.
    match goal with
    | |- context [found_new_run lt listlen p mg ?k] =>
        pose proof (found_new_run_perm listlen p mg k) as F;
        destruct (found_new_run lt listlen p mg k) as [p' mg']
    end.
    cbn [fst] in F. rewrite IH, flat_cons, F, <- app_assoc.
    apply Permutation_app_head. exact H.
Qed.

Lemma list_sort_perm l : Permutation (list_sort lt l) l.
Proof.
  unfold list_sort. destruct (length l <? 2); [reflexivity|].
  pose proof (sort_runs_perm (S (length l)) (length l)
                (merge_compute_minrun (length l)) [] MIN_GALLOP l) as H.
  destruct (sort_runs _ _ _ _ _ _ _) as [p mg]. cbn [fst] in H.
  change (Permutation (flat (merge_force_collapse lt (length p) p mg)) l).
  now rewrite merge_force_collapse_perm.
Qed.

Lemma sorted_reverse_perm l : Permutation (sorted_reverse lt l) l.
Proof.
  unfold sorted_reverse.
  rewrite <- Permutation_rev, list_sort_perm. symmetry. apply Permutation_rev.
Qed.
(** *** The loops end within the turns they are given

    The loops of the C code are functions with a number of turns,
    [fuel].  Each of them comes to its end within the number of turns it
    is called with: from there on the number makes no difference. *)

Lemma half_lt n : 0 < n -> n / 2 < n.
Proof. intros H. apply Nat.div_lt; lia. Qed.

Lemma bisect_fuel fuel1 : forall fuel2 z pre l r,
  r - l <= fuel1 -> r - l <= fuel2 ->
  bisect lt fuel1 z pre l r = bisect lt fuel2 z pre l r.
Proof.
  induction fuel1 as [|fuel1 IH]; intros [|fuel2] z pre l r H1 H2;
    cbn [bisect]; try reflexivity.
  - assert ((l <? r) = false) as -> by (apply Nat.ltb_ge; lia).
    reflexivity.
  - assert ((l <? r) = false) as -> by (apply Nat.ltb_ge; lia).
    reflexivity.
  - destruct (l <? r) eqn:E; [|reflexivity].
    apply Nat.ltb_lt in E.
    pose proof (half_lt (n := r - l) ltac:(lia)) as Hh.
    destruct (nth_error pre (l + (r - l) / 2)); [|reflexivity].
    destruct (lt z a); apply IH; lia.
Qed.

Lemma gallop_out_fuel fuel1 : forall fuel2 probe maxofs lastofs ofs,
  maxofs - ofs <= fuel1 -> maxofs - ofs <= fuel2 ->
  gallop_out fuel1 probe maxofs lastofs ofs
  = gallop_out fuel2 probe maxofs lastofs ofs.
Proof.
  induction fuel1 as [|fuel1 IH]; intros [|fuel2] probe maxofs lastofs ofs
                                         H1 H2;
    cbn [gallop_out]; try reflexivity.
  - assert ((ofs <? maxofs) = false) as -> by (apply Nat.ltb_ge; lia).
    reflexivity.
  - assert ((ofs <? maxofs) = false) as -> by (apply Nat.ltb_ge; lia).
    reflexivity.
  - destruct ((ofs <? maxofs) && probe ofs) eqn:E; [|reflexivity].
    apply andb_true_iff in E as [E _]. apply Nat.ltb_lt in E.
    apply IH; lia.
Qed.

Lemma gallop_bisect_fuel fuel1 : forall fuel2 T (a : list A) lastofs ofs,
  ofs - lastofs <= fuel1 -> ofs - lastofs <= fuel2 ->
  gallop_bisect fuel1 T a lastofs ofs = gallop_bisect fuel2 T a lastofs ofs.
Proof.
  induction fuel1 as [|fuel1 IH]; intros [|fuel2] T a lastofs ofs H1 H2;
    cbn [gallop_bisect]; try reflexivity.
  - assert ((lastofs <? ofs) = false) as -> by (apply Nat.ltb_ge; lia).
    reflexivity.
  - assert ((lastofs <? ofs) = false) as -> by (apply Nat.ltb_ge; lia).
    reflexivity.
  - destruct (lastofs <? ofs) eqn:E; [|reflexivity].
    apply Nat.ltb_lt in E.
    pose proof (half_lt (n := ofs - lastofs) ltac:(lia)) as Hh.
    destruct (nth_error a (lastofs + (ofs - lastofs) / 2)); [|reflexivity].
    destruct (T a0); apply IH; lia.
Qed.

Ltac by_IH IH :=
  try reflexivity;
  try (f_equal; apply IH; simpl in *; rewrite ?length_app in *; simpl in *;
       lia).

Ltac cut_at k l :=
  let E := fresh "E" in
  let L := fresh "L" in
  let o := fresh "o" in
  let r := fresh "r" in
  assert (E := firstn_skipn k l);
  assert (L : length (firstn k l) + length (skipn k l) = length l)
    by (rewrite <- length_app, E; reflexivity);
  set (o := firstn k l) in *; set (r := skipn k l) in *;
  clearbody o r; clear E.

Lemma merge_lo_loop_fuel fuel1 : forall fuel2 ph mg smg (a b : list A),
  length a + length b <= fuel1 -> length a + length b <= fuel2 ->
  merge_lo_loop lt fuel1 ph mg smg a b
  = merge_lo_loop lt fuel2 ph mg smg a b.
Proof.
  induction fuel1 as [|fuel1 IH]; intros [|fuel2] ph mg smg a b H1 H2;
    try reflexivity.
  - destruct a, b; simpl in H1; try lia. destruct ph; reflexivity.
  - destruct a, b; simpl in H2; try lia. destruct ph; reflexivity.
  - cbn [merge_lo_loop].
    destruct ph as [acount bcount|], a as [|x a], b as [|y b];
      try reflexivity.
    + branches; by_IH IH.
    + cbv zeta.
      set (k := gallop_right lt y (x :: a) 0). clearbody k.
      cut_at k (x :: a).
      destruct r as [|x1 a1].
      * branches; by_IH IH.
      * destruct b as [|y2 b2]; [branches; by_IH IH|].
        norm_tests.
        set (k2 := gallop_left lt x1 (y2 :: b2) 0). clearbody k2.
        cut_at k2 (y2 :: b2).
        branches; by_IH IH.
Qed.

Lemma merge_hi_loop_fuel fuel1 : forall fuel2 ph mg smg (ra rb : list A),
  length ra + length rb <= fuel1 -> length ra + length rb <= fuel2 ->
  merge_hi_loop lt fuel1 ph mg smg ra rb
  = merge_hi_loop lt fuel2 ph mg smg ra rb.
Proof.
  induction fuel1 as [|fuel1 IH]; intros [|fuel2] ph mg smg ra rb H1 H2;
    try reflexivity.
  - destruct ra, rb; simpl in H1; try lia. destruct ph; reflexivity.
  - destruct ra, rb; simpl in H2; try lia. destruct ph; reflexivity.
  - cbn [merge_hi_loop].
    destruct ph as [acount bcount|], ra as [|x ra], rb as [|y rb];
      try reflexivity.
    + branches; by_IH IH.
    + cbv zeta.
      set (k := _ - gallop_right lt y _ _). clearbody k.
      cut_at k (x :: ra).
      destruct r as [|x1 ra1].
      * branches; by_IH IH.
      * destruct rb as [|y2 rb2];
          [cbn; rewrite ?firstn_nil, ?skipn_nil; branches; by_IH IH|].
        norm_tests.
        set (k2 := _ - gallop_left lt x1 _ _). clearbody k2.
        cut_at k2 (y2 :: rb2).
        branches; by_IH IH.
Qed.

Lemma powerloop_aux_fuel fuel1 : forall fuel2 a b n result,
  a < b -> b <= 2 * n ->
  2 * n < (b - a) * 2 ^ fuel1 -> 2 * n < (b - a) * 2 ^ fuel2 ->
  powerloop_aux fuel1 a b n result = powerloop_aux fuel2 a b n result.
Proof.
  induction fuel1 as [|fuel1 IH]; intros [|fuel2] a b n result Hab Hb H1 H2;
    try (simpl in H1, H2; lia).
  cbn [powerloop_aux].
  rewrite !Nat.pow_succ_r' in H1, H2.
  destruct (n <=? a) eqn:Ea.
  - apply Nat.leb_le in Ea. apply IH; nia.
  - destruct (n <=? b) eqn:Eb; [reflexivity|].
    apply Nat.leb_gt in Ea, Eb. apply IH; nia.
Qed.

Lemma collapse_fuel fuel1 : forall fuel2 power (p : pending A) mg,
  length p <= fuel1 -> length p <= fuel2 ->
  collapse lt fuel1 power p mg = collapse lt fuel2 power p mg.
Proof.
  induction fuel1 as [|fuel1 IH]; intros [|fuel2] power p mg H1 H2;
    try reflexivity.
  - destruct p; [reflexivity|simpl in H1; lia].
  - destruct p; [reflexivity|simpl in H2; lia].
  - cbn [collapse]. destruct p as [|[r1 p1] [|[r2 p2] rest]]; try reflexivity.
    destruct (power <? p2); [|reflexivity].
    destruct (merge_at lt r2 r1 mg) as [m mg'].
    apply IH; simpl in *; lia.
Qed.

Lemma merge_force_collapse_fuel fuel1 : forall fuel2 (p : pending A) mg,
  length p <= fuel1 -> length p <= fuel2 ->
  merge_force_collapse lt fuel1 p mg = merge_force_collapse lt fuel2 p mg.
Proof.
  induction fuel1 as [|fuel1 IH]; intros [|fuel2] p mg H1 H2;
    try reflexivity.
  - destruct p; [reflexivity|simpl in H1; lia].
  - destruct p; [reflexivity|simpl in H2; lia].
  - cbn [merge_force_collapse].
    destruct p as [|[r1 p1] [|[r2 p2] rest]]; try reflexivity.
    destruct rest as [|[r3 p3] rest'].
    + destruct (merge_at lt r2 r1 mg) as [m mg']. apply IH; simpl in *; lia.
    + destruct (length r3 <? length r1).
      * destruct (merge_at lt r3 r2 mg) as [m mg'].
        apply IH; simpl in *; lia.
      * destruct (merge_at lt r2 r1 mg) as [m mg'].
        apply IH; simpl in *; lia.
Qed.

Lemma merge_compute_minrun_aux_fuel fuel1 : forall fuel2 n r,
  n <= fuel1 -> n <= fuel2 ->
  merge_compute_minrun_aux fuel1 n r = merge_compute_minrun_aux fuel2 n r.
Proof.
  induction fuel1 as [|fuel1 IH]; intros [|fuel2] n r H1 H2;
    cbn [merge_compute_minrun_aux]; try reflexivity.
  - assert ((64 <=? n) = false) as -> by (apply Nat.leb_gt; lia).
    reflexivity.
  - assert ((64 <=? n) = false) as -> by (apply Nat.leb_gt; lia).
    reflexivity.
  - destruct (64 <=? n) eqn:E; [|reflexivity].
    apply Nat.leb_le in E.
    pose proof (half_lt (n := n) ltac:(lia)).
    apply IH; lia.
Qed.

Lemma sort_runs_fuel fuel1 :
  forall fuel2 listlen minrun (p : pending A) mg rest,
  length rest < fuel1 -> length rest < fuel2 ->
  sort_runs lt fuel1 listlen minrun p mg rest
  = sort_runs lt fuel2 listlen minrun p mg rest.
Proof.
  induction fuel1 as [|fuel1 IH];
    intros [|fuel2] listlen minrun p mg rest H1 H2; try lia.
  cbn [sort_runs].
  destruct rest as [|x rest0] eqn:Er; [reflexivity|]. rewrite <- Er in *.
  assert (Hne : rest <> []) by (subst; discriminate).
  pose proof (count_run_pos Hne) as Hpos.
  destruct (count_run lt rest) as [n descending]. cbn [fst] in Hpos.
  cbv zeta.
  match goal with
  | |- context [found_new_run lt listlen p mg ?n'] =>
      set (n1 := n'); assert (Hn1 : 1 <= n1)
  end.
  { subst n1. destruct (n <? minrun) eqn:E; [|assumption].
    apply Nat.ltb_lt in E. subst rest. simpl length. lia. }
  destruct (found_new_run lt listlen p mg n1) as [p' mg'].
  apply IH; rewrite length_skipn; subst rest; simpl length in *; lia.
Qed.

(** The calls of the loops give them these numbers of turns. *)
Lemma powerloop_fuel s1 n1 n2 n k :
  0 < n1 + n2 -> s1 + n1 + n2 <= n ->
  powerloop_aux (S n + k) (2 * s1 + n1) (2 * s1 + n1 + n1 + n2) n 0
  = powerloop s1 n1 n2 n.
Proof.
  intros H1 H2. unfold powerloop.
  assert (Hp : forall m, n <= m -> 2 * n < (n1 + n2) * 2 ^ S m).
  { intros m Hm. pose proof (Nat.pow_gt_lin_r 2 m ltac:(lia)).
    rewrite Nat.pow_succ_r'. nia. }
  apply powerloop_aux_fuel; try lia.
  - replace (2 * s1 + n1 + n1 + n2 - (2 * s1 + n1)) with (n1 + n2) by lia.
    apply (Hp (n + k)). lia.
  - replace (2 * s1 + n1 + n1 + n2 - (2 * s1 + n1)) with (n1 + n2) by lia.
    apply (Hp n). lia.
Qed.

Lemma gallop_out_calls probe maxofs k :
  gallop_out (maxofs + k) probe maxofs 0 1
  = gallop_out maxofs probe maxofs 0 1.
Proof. apply gallop_out_fuel; lia. Qed.

(** In [gallop] the bisection ends at an index [ofs] of [a], or at its
    length. *)
Lemma gallop_bisect_calls T (a : list A) lastofs ofs k :
  ofs <= length a ->
  gallop_bisect (length a + k) T a lastofs ofs
  = gallop_bisect (length a) T a lastofs ofs.
Proof. intros H. apply gallop_bisect_fuel; lia. Qed.

Lemma collapse_calls power (p : pending A) mg k :
  collapse lt (length p + k) power p mg = collapse lt (length p) power p mg.
Proof. apply collapse_fuel; lia. Qed.

Lemma merge_compute_minrun_fuel n k :
  merge_compute_minrun_aux (n + k) n 0 = merge_compute_minrun n.
Proof. apply merge_compute_minrun_aux_fuel; lia. Qed.

Lemma binary_insert_fuel (pre : list A) pivot k :
  bisect lt (length pre + k) pivot pre 0 (length pre)
  = bisect lt (length pre) pivot pre 0 (length pre).
Proof. apply bisect_fuel; lia. Qed.

Lemma merge_lo_fuel (a b : list A) y mg k :
  merge_lo_loop lt (length a + length (y :: b) + k) (Linear 0 0) mg mg a b
  = merge_lo_loop lt (length a + length (y :: b)) (Linear 0 0) mg mg a b.
Proof. apply merge_lo_loop_fuel; simpl; lia. Qed.

Lemma merge_hi_fuel (a b : list A) mg x ra k :
  rev a = x :: ra ->
  merge_hi_loop lt (length a + length b + k) (Linear 0 0) mg mg ra (rev b)
  = merge_hi_loop lt (length a + length b) (Linear 0 0) mg mg ra (rev b).
Proof.
  intros E. assert (L : length a = S (length ra))
    by (rewrite <- length_rev, E; reflexivity).
  apply merge_hi_loop_fuel; rewrite length_rev; lia.
Qed.

Lemma list_sort_fuel (l : list A) k :
  2 <= length l ->
  (let n := length l in
   let '(p, mg) :=
     sort_runs lt (S n + k) n (merge_compute_minrun n) [] MIN_GALLOP l in
   concat (rev (map fst (merge_force_collapse lt (length p + k) p mg))))
  = list_sort lt l.
Proof.
  intros H. unfold list_sort.
  assert ((length l <? 2) = false) as -> by (apply Nat.ltb_ge; lia).
  cbv zeta.
  rewrite (@sort_runs_fuel (S (length l) + k) (S (length l))) by lia.
  destruct (sort_runs lt _ _ _ _ _ _) as [p mg].
  now rewrite (@merge_force_collapse_fuel (length p + k) (length p)) by lia.
Qed.
End SortingFacts.

(** ** Codes the table does not have (C5) *)

(** C5. An item line whose code no row of the table has as its text is
    not dropped and raises nothing: the loop appends one item for it, with
    GL Code and GL Description both NOT_FOUND.  In every list of items
    that contains it, the summary has a NOT_FOUND group, and the amount of
    that group is the sum of the line totals of the NOT_FOUND items, this
    item's among them. *)
Theorem C5_not_found_is_kept :
  forall db items line item_code,
    item_code_of line = Some item_code ->
    4 <= List.length (numbers_of line) ->
    (forall n1 f1, nth_error (numbers_of line) 1 = Some n1 ->
                   Float64.of_str n1 = Ok f1 ->
                   Float64.is_finite f1 = true) ->
    (forall r, In r db -> Db.cell_str (Db.Item_Code r) <> item_code) ->
    exists it,
      process_line (Db.astype_str db) items line = Ok (items ++ [it])
      /\ Item_Code it = item_code
      /\ GL_Code it = Db.CStr NOT_FOUND
      /\ GL_Description it = NOT_FOUND
      /\ forall all,
          In it all ->
          In (NOT_FOUND, line_total_of NOT_FOUND all)
             (sorted_summary (summarize all))
          /\ In it (filter (fun i => Str.eqb (GL_Description i) NOT_FOUND)
                           all).
Proof.
  intros db its line code Hcode Hlen Hfin Habs.
  destruct (line_item_cases (Db.astype_str db) code line Hlen)
    as (n1 & n3 & f1 & f3 & E1 & E3 & Hf1 & Hf3 & Hcase).
  destruct Hcase as [(_ & qty & fq & _ & _ & _ & Hbody)|(Hinf & _)];
    [|rewrite (Hfin n1 f1 E1 Hf1) in Hinf; discriminate].
  rewrite (lookup_absent db Habs) in Hbody. cbn [fst snd] in Hbody.
  eexists. split; [|split; [|split; [|split]]].
  - unfold process_line. rewrite Hcode.
    assert ((List.length (numbers_of line) <? 4) = false) as ->
      by (apply Nat.ltb_ge; exact Hlen).
    rewrite Hbody. reflexivity.
  - reflexivity.
  - reflexivity.
  - reflexivity.
  - intros all Hin. split.
    + eapply Permutation_in;
        [symmetry; apply sorted_reverse_perm|].
      apply (group_sums_in GL_Description Line_Total Float64.add
                           Float64.zero all _ Hin).
    + apply filter_In. split; [assumption|]. apply str_eqb_refl.
Qed.

Lemma C5_witness :
  exists it,
    process_line
      (Db.astype_str [Db.mkrow (Db.CInt 12345) (Db.CInt 5000) (chars "Food")])
      [] scenario_A = Ok ([] ++ [it])
    /\ Item_Code it = chars "00012345"
    /\ GL_Code it = Db.CStr NOT_FOUND
    /\ GL_Description it = NOT_FOUND
    /\ forall all,
        In it all ->
        In (NOT_FOUND, line_total_of NOT_FOUND all)
           (sorted_summary (summarize all))
        /\ In it (filter (fun i => Str.eqb (GL_Description i) NOT_FOUND) all).
Proof.
  apply (C5_not_found_is_kept
           [Db.mkrow (Db.CInt 12345) (Db.CInt 5000) (chars "Food")]
           [] scenario_A (item_code := chars "00012345")).
  - reflexivity.
  - vm_compute. lia.
  - intros n1 f1 H1 H2. vm_compute in H1. injection H1 as <-.
    vm_compute in H2. injection H2 as <-. reflexivity.
  - intros r [<-|[]]. vm_compute. discriminate.
Defined.

(** ** The order of binary64 values that are not NaN *)

Lemma ltb_asym (a b : float) :
  Float64.ltb a b = true -> Float64.ltb b a = false.
Proof. revert a b. intros a b. float_cases. Qed.

Lemma ltb_le_trans (a b c : float) :
  Float64.is_nan c = false ->
  Float64.ltb a b = true -> Float64.ltb c b = false ->
  Float64.ltb a c = true.
Proof. float_cases. Qed.

Lemma not_ltb_leb (a b : float) :
  Float64.is_nan a = false -> Float64.is_nan b = false ->
  Float64.ltb a b = false -> Float64.leb b a = true.
Proof. float_cases. Qed.

Lemma eqb_not_ltb (a b : float) :
  Float64.eqb a b = true -> Float64.ltb b a = false.
Proof. float_cases. Qed.

Lemma nonneg_not_nan x : nonneg x -> Float64.is_nan x = false.
Proof. destruct x as [[|]|[|]| |[|] m e]; simpl; tauto. Qed.

(** The sum of two values that are not negative is not negative, and so
    not NaN. *)
Lemma add_nonneg a b : nonneg a -> nonneg b -> nonneg (Float64.add a b).
Proof.
  destruct a as [[|]|[|]| |[|] ma ea], b as [[|]|[|]| |[|] mb eb];
    simpl; try tauto.
  intros _ _. unfold Float64.add, SFadd. cbn [cond_Zopp].
  set (ez := Z.min ea eb).
  destruct (shl_align ma ea ez) as [ma' ea'].
  destruct (shl_align mb eb ez) as [mb' eb']. cbn [fst].
  change (Zpos ma' + Zpos mb')%Z with (Zpos (ma' + mb')).
  cbn [binary_normalize]. unfold binary_round.
  destruct (shl_align _ _ _) as [mz ez'].
  apply binary_round_aux_nonneg. lia.
Qed.

Lemma fold_add_nonneg l : forall x,
  nonneg x -> Forall nonneg l -> nonneg (fold_left Float64.add l x).
Proof.
  induction l as [|y l IH]; intros x Hx Hl; simpl; [assumption|].
  inversion Hl; subst. apply IH; [|assumption]. now apply add_nonneg.
Qed.

(** ** The order of the summary (C9) *)

(** *** Lists whose pairs, taken in order, are all related *)

Section OrdPairs.
Variables A : Type.

Lemma FOP_snoc (R : A -> A -> Prop) l x :
  ForallOrdPairs R l -> (forall y, In y l -> R y x) ->
  ForallOrdPairs R (l ++ [x]).
Proof.
  induction 1 as [|a l Ha Hl IH]; intros Hx; simpl.
  - repeat constructor.
  - constructor.
    + apply Forall_app. split; [assumption|].
      constructor; [|constructor]. apply Hx. now left.
    + apply IH. intros y Hy. apply Hx. now right.
Qed.

Lemma FOP_rev (R : A -> A -> Prop) l :
  ForallOrdPairs R l -> ForallOrdPairs (fun a b => R b a) (rev l).
Proof.
  induction 1 as [|a l Ha Hl IH]; simpl; [constructor|].
  apply FOP_snoc; [assumption|].
  intros y Hy. apply in_rev in Hy.
  rewrite Forall_forall in Ha. auto.
Qed.

Lemma FOP_nth (R : A -> A -> Prop) l : ForallOrdPairs R l ->
  forall i j a b, i < j -> nth_error l i = Some a ->
                  nth_error l j = Some b -> R a b.
Proof.
  induction 1 as [|x l Hx Hl IH]; intros i j a b Hij Hi Hj.
  - destruct i; discriminate.
  - destruct j as [|j]; [lia|]. simpl in Hj.
    destruct i as [|i]; simpl in Hi.
    + injection Hi as <-. rewrite Forall_forall in Hx.
      apply Hx. eapply nth_error_In; eauto.
    + apply (IH i j); auto. lia.
Qed.

Lemma FOP_app (R : A -> A -> Prop) l1 l2 :
  ForallOrdPairs R (l1 ++ l2) <->
  ForallOrdPairs R l1 /\ ForallOrdPairs R l2 /\
  (forall x y, In x l1 -> In y l2 -> R x y).
Proof.
  induction l1 as [|a l1 IH]; simpl.
  - split; [intros H; repeat split; [constructor|assumption|]|tauto].
    intros x y [].
  - split.
    + intros H. inversion H as [|? ? Ha Hl]; subst.
      apply IH in Hl as (H1 & H2 & H3).
      rewrite Forall_app in Ha. destruct Ha as [Ha1 Ha2].
      split; [now constructor|]. split; [assumption|].
      intros x y [<-|Hx] Hy; [|auto].
      rewrite Forall_forall in Ha2. auto.
    + intros (H1 & H2 & H3). inversion H1 as [|? ? Ha Hl]; subst.
      constructor.
      * apply Forall_app. split; [assumption|].
        apply Forall_forall. intros y Hy. apply H3; auto.
      * apply IH. repeat split; auto.
Qed.

Lemma FOP_impl (R R' : A -> A -> Prop) l :
  (forall x y, In x l -> In y l -> R x y -> R' x y) ->
  ForallOrdPairs R l -> ForallOrdPairs R' l.
Proof.
  intros H Hl. induction Hl as [|a l Ha Hl IH]; constructor.
  - rewrite Forall_forall in *. intros y Hy. apply H; simpl; auto.
  - apply IH. intros x y Hx Hy. apply H; simpl; auto.
Qed.

Lemma FOP_firstn (R : A -> A -> Prop) n l :
  ForallOrdPairs R l -> ForallOrdPairs R (firstn n l).
Proof.
  intros H. rewrite <- (firstn_skipn n l) in H. now apply FOP_app in H.
Qed.

Lemma FOP_skipn (R : A -> A -> Prop) n l :
  ForallOrdPairs R l -> ForallOrdPairs R (skipn n l).
Proof.
  intros H. rewrite <- (firstn_skipn n l) in H. now apply FOP_app in H.
Qed.

Lemma in_firstn_nth n (l : list A) x :
  In x (firstn n l) -> exists i, i < n /\ nth_error l i = Some x.
Proof.
  revert l. induction n as [|n IH]; intros l H; [destruct H|].
  destruct l as [|a l]; [destruct H|]. destruct H as [<-|H].
  - exists 0. split; [lia|reflexivity].
  - destruct (IH l H) as (i & Hi & E). exists (S i). split; [lia|exact E].
Qed.

Lemma in_skipn_nth n (l : list A) x :
  In x (skipn n l) -> exists i, n <= i /\ nth_error l i = Some x.
Proof.
  revert l. induction n as [|n IH]; intros l H.
  - apply In_nth_error in H as (i & E). exists i. split; [lia|exact E].
  - destruct l as [|a l]; [destruct H|].
    destruct (IH l H) as (i & Hi & E). exists (S i). split; [lia|exact E].
Qed.
End OrdPairs.

Lemma FOP_map (A B : Type) (f : A -> B) (R : B -> B -> Prop) l :
  ForallOrdPairs (fun x y => R (f x) (f y)) l ->
  ForallOrdPairs R (map f l).
Proof.
  induction 1 as [|a l Ha Hl IH]; simpl; constructor; [|assumption].
  rewrite Forall_forall in *. intros y Hy.
  apply in_map_iff in Hy as (x & <- & Hx). auto.
Qed.

(** *** The searches of the merges

    On a list on which the test holds up to some place and not after
    it, [gallop] finds that place, whatever the hint. *)

Section GallopFacts.
Variable A : Type.
Variable T : A -> bool.
Variable a : list A.

Abbreviation P := (probe_at T a).

(** [T] holds on the elements of [a] up to some place, and on none
    after it. *)
Hypothesis mono : forall i j, i <= j -> P j = true -> P i = true.

Lemma probe_beyond i : length a <= i -> P i = false.
Proof.
  intros H. unfold probe_at.
  now rewrite (proj2 (nth_error_None a i) H).
Qed.

Lemma gallop_bisect_spec fuel : forall lo hi,
  lo <= hi -> hi <= length a -> hi - lo <= fuel ->
  (forall i, i < lo -> P i = true) ->
  (forall i, hi <= i -> P i = false) ->
  lo <= gallop_bisect fuel T a lo hi <= hi /\
  (forall i, i < gallop_bisect fuel T a lo hi -> P i = true) /\
  (forall i, gallop_bisect fuel T a lo hi <= i -> P i = false).
Proof.
  induction fuel as [|fuel IH]; intros lo hi Hle Hn Hf Hlo Hhi;
    cbn [gallop_bisect].
  - assert (lo = hi) by lia. subst. repeat split; auto.
  - destruct (lo <? hi) eqn:E.
    + apply Nat.ltb_lt in E.
      assert (Hm : lo <= lo + (hi - lo) / 2 < hi).
      { split; [lia|].
        assert ((hi - lo) / 2 < hi - lo) by (apply Nat.div_lt; lia). lia. }
      set (m := lo + (hi - lo) / 2) in *. clearbody m.
      destruct (nth_error a m) as [x|] eqn:Ex.
      * assert (HP : P m = T x) by (unfold probe_at; now rewrite Ex).
        destruct (T x) eqn:Et.
        -- destruct (IH (S m) hi) as (H1 & H2 & H3); try lia; auto.
           { intros i Hi. apply (@mono i m); [lia|assumption]. }
           split; [lia|]. split; assumption.
        -- destruct (IH lo m) as (H1 & H2 & H3); try lia; auto.
           { intros i Hi. destruct (P i) eqn:Ei; [|reflexivity].
             rewrite (@mono m i Hi Ei) in HP. discriminate. }
           split; [lia|]. split; assumption.
      * apply nth_error_None in Ex. lia.
    + apply Nat.ltb_ge in E. assert (lo = hi) by lia. subst.
      repeat split; auto.
Qed.

Lemma gallop_out_spec (probe : nat -> bool) maxofs fuel :
  forall lastofs ofs,
    lastofs < ofs -> lastofs < maxofs -> probe lastofs = true ->
    maxofs <= ofs + fuel ->
    lastofs < snd (gallop_out fuel probe maxofs lastofs ofs) /\
    fst (gallop_out fuel probe maxofs lastofs ofs) < maxofs /\
    fst (gallop_out fuel probe maxofs lastofs ofs)
    < snd (gallop_out fuel probe maxofs lastofs ofs) /\
    probe (fst (gallop_out fuel probe maxofs lastofs ofs)) = true /\
    (maxofs <= snd (gallop_out fuel probe maxofs lastofs ofs) \/
     probe (snd (gallop_out fuel probe maxofs lastofs ofs)) = false).
Proof.
  induction fuel as [|fuel IH]; intros lastofs ofs H1 H2 H3 H4;
    cbn [gallop_out].
  - cbn [fst snd]. repeat split; auto. left. lia.
  - destruct (ofs <? maxofs) eqn:E; cbn [andb].
    + apply Nat.ltb_lt in E. destruct (probe ofs) eqn:Ep.
      * destruct (IH ofs (2 * ofs + 1)) as (I0 & I1 & I2 & I3 & I4);
          try lia; auto.
        repeat split; auto. lia.
      * cbn [fst snd]. repeat split; auto.
    + apply Nat.ltb_ge in E. cbn [fst snd]. repeat split; auto.
Qed.

(** The search finds the place: [T] holds on the first [gallop T a hint]
    elements and on no other. *)
Lemma gallop_spec hint :
  hint < length a ->
  gallop T a hint <= length a /\
  (forall i, i < gallop T a hint -> P i = true) /\
  (forall i, gallop T a hint <= i -> P i = false).
Proof.
  intros Hh. unfold gallop.
  destruct (P hint) eqn:Eh.
  - set (maxofs := length a - hint).
    set (probe := fun ofs => P (hint + ofs)).
    destruct (@gallop_out_spec probe maxofs maxofs 0 1)
      as (I0 & I1 & I2 & I3 & I4); try lia.
    { subst probe. cbn. now rewrite Nat.add_0_r. }
    destruct (gallop_out maxofs probe maxofs 0 1) as [lastofs ofs].
    cbn [fst snd] in *. subst probe. cbn beta in *.
    destruct (@gallop_bisect_spec (length a) (lastofs + hint + 1)
                                  (Nat.min ofs maxofs + hint))
      as (H1 & H2 & H3); try lia.
    { intros i Hi. apply (@mono i (hint + lastofs)); [lia|assumption]. }
    { intros i Hi. destruct (Nat.le_gt_cases maxofs ofs) as [Hc|Hc].
      - apply probe_beyond. lia.
      - destruct I4 as [I4|I4]; [lia|].
        destruct (P i) eqn:Ei; [|reflexivity].
        rewrite (@mono (hint + ofs) i) in I4; [discriminate|lia|assumption]. }
    split; [lia|]. split; assumption.
  - set (maxofs := hint + 1).
    set (probe := fun ofs => negb (P (hint - ofs))).
    destruct (@gallop_out_spec probe maxofs maxofs 0 1)
      as (I0 & I1 & I2 & I3 & I4); try lia.
    { subst probe. cbn. now rewrite Nat.sub_0_r, Eh. }
    destruct (gallop_out maxofs probe maxofs 0 1) as [lastofs ofs].
    cbn [fst snd] in *. subst probe. cbn beta in *.
    apply negb_true_iff in I3.
    destruct (@gallop_bisect_spec (length a) (hint + 1 - Nat.min ofs maxofs)
                                  (hint - lastofs))
      as (H1 & H2 & H3); try lia.
    { intros i Hi. destruct (Nat.le_gt_cases maxofs ofs) as [Hc|Hc]; [lia|].
      destruct I4 as [I4|I4]; [lia|]. apply negb_false_iff in I4.
      apply (@mono i (hint - ofs)); [lia|assumption]. }
    { intros i Hi. destruct (P i) eqn:Ei; [|reflexivity].
      rewrite (@mono (hint - lastofs) i) in I3;
        [discriminate|lia|assumption]. }
    split; [|split; assumption].
    destruct H1 as [_ H1]. eapply Nat.le_trans; [exact H1|lia].
Qed.
End GallopFacts.

(** *** Lists merged from two lists *)

Section Merging.
Variable A : Type.
Variable R : A -> A -> Prop.

Abbreviation vmerge := (vmerge R).

Lemma vmerge_in a b c :
  vmerge a b c -> forall z, In z c -> In z a \/ In z b.
Proof.
  induction 1 as [b|a|x a b c Hx _ IH|y a b c Hy _ IH]; intros z Hz; auto.
  - destruct Hz as [<-|Hz]; [left; now left|].
    destruct (IH z Hz); [left; now right|now right].
  - destruct Hz as [<-|Hz]; [right; now left|].
    destruct (IH z Hz); [now left|right; now right].
Qed.

Lemma vmerge_FOP a b c :
  vmerge a b c -> ForallOrdPairs R a -> ForallOrdPairs R b ->
  ForallOrdPairs R c.
Proof.
  induction 1 as [b|a|x a b c Hx Hm IH|y a b c Hy Hm IH]; intros Ha Hb; auto.
  - inversion Ha as [|? ? Hxa Ha']; subst. constructor; [|auto].
    apply Forall_forall. intros z Hz.
    destruct (vmerge_in Hm z Hz) as [Hz'|Hz']; [|auto].
    rewrite Forall_forall in Hxa. auto.
  - inversion Hb as [|? ? Hyb Hb']; subst. constructor; [|auto].
    apply Forall_forall. intros z Hz.
    destruct (vmerge_in Hm z Hz) as [Hz'|Hz']; [auto|].
    rewrite Forall_forall in Hyb. auto.
Qed.

Lemma vmerge_a_chunk o : forall a b c,
  (forall x y, In x o -> In y b -> R x y) ->
  vmerge a b c -> vmerge (o ++ a) b (o ++ c).
Proof.
  induction o as [|x o IH]; intros a b c H Hm; [assumption|].
  simpl. constructor.
  - intros y Hy. apply H; simpl; auto.
  - apply IH; [|assumption]. intros x' y Hx Hy. apply H; simpl; auto.
Qed.

Lemma vmerge_b_chunk o : forall a b c,
  (forall y x, In y o -> In x a -> R y x) ->
  vmerge a b c -> vmerge a (o ++ b) (o ++ c).
Proof.
  induction o as [|y o IH]; intros a b c H Hm; [assumption|].
  simpl. constructor.
  - intros x Hx. apply H; simpl; auto.
  - apply IH; [|assumption]. intros y' x Hy Hx. apply H; simpl; auto.
Qed.

Lemma vmerge_a_all a b :
  (forall x y, In x a -> In y b -> R x y) -> vmerge a b (a ++ b).
Proof.
  intros H. rewrite <- (app_nil_r a) at 1.
  apply vmerge_a_chunk; [assumption|constructor].
Qed.

Lemma vmerge_b_all a b :
  (forall y x, In y b -> In x a -> R y x) -> vmerge a b (b ++ a).
Proof.
  intros H. rewrite <- (app_nil_r b) at 1.
  apply vmerge_b_chunk; [assumption|constructor].
Qed.
End Merging.

(** *** The sort is a stable sort where [<] orders the keys

    [lt] is taken to be asymmetric, and transitive through the values
    [ok]; NaN is not among them.  A list is sorted when no element is
    smaller than an element before it, and when of two elements neither
    of which is smaller than the other the one that came first in the
    list to sort stands first. *)

Section Stability.
Variable A : Type.
Variable lt : A -> A -> bool.
Variable ok : A -> Prop.            (* the values [lt] orders *)
Variable first : A -> A -> Prop.    (* the order of the list to sort *)

Hypothesis lt_asym : forall a b, lt a b = true -> lt b a = false.
Hypothesis lt_le_trans :
  forall a b c, ok c -> lt a b = true -> lt c b = false -> lt a c = true.

Abbreviation R := (ascending_stable lt first).
Abbreviation good := (ForallOrdPairs (ascending_stable lt first)).
Abbreviation cross := (cross first).
Abbreviation last_above := (last_above lt).
Abbreviation first_below := (first_below lt).
Abbreviation cross' := (cross' first).
Abbreviation first_below' := (first_below' lt).
Abbreviation runs_ok := (runs_ok lt ok first).

Lemma le_lt_trans a b c :
  ok a -> lt b a = false -> lt b c = true -> lt a c = true.
Proof.
  intros Ha Hab Hbc. destruct (lt a c) eqn:E; [reflexivity|].
  rewrite (@lt_le_trans b c a Ha Hbc E) in Hab. discriminate.
Qed.

Lemma le_trans a b c :
  ok b -> lt b a = false -> lt c b = false -> lt c a = false.
Proof.
  intros Hb Hab Hbc. destruct (lt c a) eqn:E; [|reflexivity].
  rewrite (@lt_le_trans c a b Hb E Hab) in Hbc. discriminate.
Qed.

Lemma R_lt x y : lt x y = true -> R x y.
Proof. intros H. split; [now apply lt_asym|congruence]. Qed.

Lemma R_le x y : first x y -> lt y x = false -> R x y.
Proof. intros H1 H2. split; auto. Qed.

Lemma good_le l x y i j :
  good l -> i <= j -> nth_error l i = Some x -> nth_error l j = Some y ->
  ok x -> lt y x = false.
Proof.
  intros Hl Hij Hx Hy Hok.
  destruct (Nat.eq_dec i j) as [->|Hne].
  - rewrite Hx in Hy. injection Hy as <-.
    destruct (lt x x) eqn:E; [|reflexivity]. now rewrite (lt_asym E) in E.
  - assert (Hlt : i < j) by lia.
    exact (proj1 (FOP_nth Hl Hlt Hx Hy)).
Qed.

Lemma in_firstn n (l : list A) x : In x (firstn n l) -> In x l.
Proof.
  intros H. apply in_firstn_nth in H as (i & _ & E).
  eapply nth_error_In; eauto.
Qed.

Lemma in_skipn n (l : list A) x : In x (skipn n l) -> In x l.
Proof.
  intros H. apply in_skipn_nth in H as (i & _ & E).
  eapply nth_error_In; eauto.
Qed.

Lemma probe_at_true (T : A -> bool) l i :
  probe_at T l i = true -> exists x, nth_error l i = Some x /\ T x = true.
Proof.
  unfold probe_at. destruct (nth_error l i) as [x|]; [eauto|discriminate].
Qed.

Lemma probe_at_some (T : A -> bool) l i x :
  nth_error l i = Some x -> probe_at T l i = T x.
Proof. unfold probe_at. now intros ->. Qed.

(** In a sorted list, the elements that [z] is not below come first. *)
Lemma good_mono_right z l :
  good l -> Forall ok l -> forall i j,
  i <= j -> probe_at (fun x => negb (lt z x)) l j = true ->
  probe_at (fun x => negb (lt z x)) l i = true.
Proof.
  intros Hl Hok i j Hij Hj.
  apply probe_at_true in Hj as (y & Ey & Hy).
  assert (Hi : i < length l).
  { assert (j < length l) by (apply nth_error_Some; congruence). lia. }
  destruct (nth_error l i) as [x|] eqn:Ex;
    [|apply nth_error_None in Ex; lia].
  rewrite (probe_at_some _ _ _ Ex).
  rewrite Forall_forall in Hok.
  assert (Hle : lt y x = false).
  { apply (@good_le l x y i j); auto. apply Hok. eapply nth_error_In; eauto. }
  apply negb_true_iff in Hy. apply negb_true_iff.
  destruct (lt z x) eqn:E; [|reflexivity].
  rewrite (@lt_le_trans z x y) in Hy; auto.
  apply Hok. eapply nth_error_In; eauto.
Qed.

(** In a sorted list, the elements below [z] come first. *)
Lemma good_mono_left z l :
  good l -> Forall ok l -> forall i j,
  i <= j -> probe_at (fun y => lt y z) l j = true ->
  probe_at (fun y => lt y z) l i = true.
Proof.
  intros Hl Hok i j Hij Hj.
  apply probe_at_true in Hj as (y & Ey & Hy).
  assert (Hi : i < length l).
  { assert (j < length l) by (apply nth_error_Some; congruence). lia. }
  destruct (nth_error l i) as [x|] eqn:Ex;
    [|apply nth_error_None in Ex; lia].
  rewrite (probe_at_some _ _ _ Ex).
  rewrite Forall_forall in Hok.
  assert (Hx : ok x) by (apply Hok; eapply nth_error_In; eauto).
  assert (Hle : lt y x = false) by (apply (@good_le l x y i j); auto).
  exact (le_lt_trans Hx Hle Hy).
Qed.

(** What the two searches find in a sorted list. *)
Lemma gallop_right_split z l hint :
  good l -> Forall ok l -> hint < length l ->
  (forall x, In x (firstn (gallop_right lt z l hint) l) -> lt z x = false) /\
  (forall x, In x (skipn (gallop_right lt z l hint) l) -> lt z x = true) /\
  gallop_right lt z l hint <= length l.
Proof.
  intros Hl Hok Hh. unfold gallop_right.
  destruct (@gallop_spec _ (fun x => negb (lt z x)) l
              (good_mono_right z Hl Hok) hint Hh) as (H0 & H1 & H2).
  split; [|split; [|assumption]].
  - intros x Hx. apply in_firstn_nth in Hx as (i & Hi & E).
    specialize (H1 i Hi). rewrite (probe_at_some _ _ _ E) in H1.
    now apply negb_true_iff in H1.
  - intros x Hx. apply in_skipn_nth in Hx as (i & Hi & E).
    specialize (H2 i Hi). rewrite (probe_at_some _ _ _ E) in H2.
    now apply negb_false_iff in H2.
Qed.

Lemma gallop_left_split z l hint :
  good l -> Forall ok l -> hint < length l ->
  (forall y, In y (firstn (gallop_left lt z l hint) l) -> lt y z = true) /\
  (forall y, In y (skipn (gallop_left lt z l hint) l) -> lt y z = false) /\
  gallop_left lt z l hint <= length l.
Proof.
  intros Hl Hok Hh. unfold gallop_left.
  destruct (@gallop_spec _ (fun y => lt y z) l
              (good_mono_left z Hl Hok) hint Hh) as (H0 & H1 & H2).
  split; [|split; [|assumption]].
  - intros x Hx. apply in_firstn_nth in Hx as (i & Hi & E).
    specialize (H1 i Hi). now rewrite (probe_at_some _ _ _ E) in H1.
  - intros x Hx. apply in_skipn_nth in Hx as (i & Hi & E).
    specialize (H2 i Hi). now rewrite (probe_at_some _ _ _ E) in H2.
Qed.

(** *** Runs *)

Lemma run_ascending_good l : forall prev,
  Forall ok (prev :: l) -> ForallOrdPairs first (prev :: l) ->
  good (prev :: firstn (run_ascending lt prev l) l).
Proof.
  induction l as [|x l IH]; intros prev Hok Hfirst; simpl.
  - repeat constructor.
  - destruct (lt x prev) eqn:E; [repeat constructor|].
    inversion Hok as [|? ? Hp Hok']; subst.
    inversion Hfirst as [|? ? Hpf Hfirst']; subst.
    specialize (IH x Hok' Hfirst').
    simpl. constructor; [|assumption].
    rewrite Forall_forall in Hpf.
    inversion Hok' as [|? ? Hx _]; subst.
    inversion IH as [|? ? Hxw _]; subst. rewrite Forall_forall in Hxw.
    apply Forall_forall. intros w [<-|Hw].
    + apply R_le; [apply Hpf; now left|assumption].
    + apply R_le; [apply Hpf; right; eapply in_firstn; eauto|].
      exact (le_trans Hx E (proj1 (Hxw w Hw))).
Qed.

Lemma run_descending_strict l : forall prev,
  Forall ok (prev :: l) ->
  ForallOrdPairs (fun u v => lt v u = true)
                 (prev :: firstn (run_descending lt prev l) l).
Proof.
  induction l as [|x l IH]; intros prev Hok; simpl.
  - repeat constructor.
  - destruct (lt x prev) eqn:E; [|repeat constructor].
    inversion Hok as [|? ? Hp Hok']; subst.
    specialize (IH x Hok').
    simpl. constructor; [|assumption].
    inversion IH as [|? ? Hxw _]; subst. rewrite Forall_forall in Hxw.
    apply Forall_forall. intros w [<-|Hw]; [assumption|].
    apply (@lt_le_trans w x prev Hp (Hxw w Hw)). now apply lt_asym.
Qed.

Lemma count_run_firstn x l :
  firstn (fst (count_run lt (x :: l))) (x :: l)
  = x :: firstn (if snd (count_run lt (x :: l))
                 then run_descending lt x l else run_ascending lt x l) l.
Proof.
  destruct l as [|y l]; [reflexivity|].
  cbn [count_run run_ascending run_descending].
  destruct (lt y x); reflexivity.
Qed.

(** The run [count_run] finds, turned round when it descends, is
    sorted. *)
Lemma count_run_good l :
  Forall ok l -> ForallOrdPairs first l ->
  good (if snd (count_run lt l) then rev (firstn (fst (count_run lt l)) l)
        else firstn (fst (count_run lt l)) l).
Proof.
  intros Hok Hfirst. destruct l as [|x l]; [constructor|].
  rewrite count_run_firstn.
  destruct (snd (count_run lt (x :: l))).
  - apply (FOP_impl (R := fun a b => lt a b = true)).
    + intros a b _ _. apply R_lt.
    + apply (FOP_rev (R := fun u v => lt v u = true)).
      now apply run_descending_strict.
  - now apply run_ascending_good.
Qed.

(** *** [binarysort] *)

Lemma bisect_gallop fuel z pre : forall l r,
  r <= length pre ->
  (r - l <= fuel) ->
  bisect lt fuel z pre l r
  = if l <=? r
    then gallop_bisect fuel (fun x => negb (lt z x)) pre l r
    else l.
Proof.
  induction fuel as [|fuel IH]; intros l r Hr Hf;
    cbn [bisect gallop_bisect].
  - destruct (l <=? r) eqn:E; [|reflexivity].
    apply Nat.leb_le in E. lia.
  - destruct (l <? r) eqn:E.
    + apply Nat.ltb_lt in E.
      assert (Hm : l <= l + (r - l) / 2 < r).
      { split; [lia|].
        assert ((r - l) / 2 < r - l) by (apply Nat.div_lt; lia). lia. }
      set (m := l + (r - l) / 2) in *. clearbody m.
      assert ((l <=? r) = true) as -> by (apply Nat.leb_le; lia).
      destruct (nth_error pre m) as [x|] eqn:Ex;
        [|apply nth_error_None in Ex; lia].
      destruct (lt z x); cbn [negb].
      * rewrite IH by lia.
        now assert ((l <=? m) = true) as -> by (apply Nat.leb_le; lia).
      * rewrite IH by lia.
        now assert ((S m <=? r) = true) as -> by (apply Nat.leb_le; lia).
    + apply Nat.ltb_ge in E. destruct (l <=? r) eqn:E'; [|reflexivity].
      apply Nat.leb_le in E'. lia.
Qed.

Lemma binary_insert_good pre z :
  good pre -> Forall ok pre -> ok z ->
  (forall w, In w pre -> first w z) ->
  good (binary_insert lt pre z).
Proof.
  intros Hpre Hok Hz Hfirst. unfold binary_insert.
  rewrite bisect_gallop by lia. cbn [Nat.leb].
  destruct (@gallop_bisect_spec _ (fun x => negb (lt z x)) pre
              (good_mono_right z Hpre Hok) (length pre) 0 (length pre))
    as (H0 & H1 & H2); try lia.
  { intros i Hi. apply probe_beyond. assumption. }
  set (k := gallop_bisect _ _ _ _ _) in *. clearbody k.
  pose proof Hpre as Hsplit. rewrite <- (firstn_skipn k pre) in Hsplit.
  apply FOP_app in Hsplit as (G1 & G2 & G3).
  apply FOP_app. split; [assumption|]. split.
  - constructor; [|assumption].
    apply Forall_forall. intros w Hw.
    apply in_skipn_nth in Hw as (i & Hi & E).
    specialize (H2 i Hi). rewrite (probe_at_some _ _ _ E) in H2.
    apply negb_false_iff in H2. now apply R_lt.
  - intros x y Hx [<-|Hy]; [|auto].
    apply R_le; [apply Hfirst; eapply in_firstn; eauto|].
    apply in_firstn_nth in Hx as (i & Hi & E).
    specialize (H1 i Hi). rewrite (probe_at_some _ _ _ E) in H1.
    now apply negb_true_iff in H1.
Qed.

Lemma binarysort_good more : forall sorted,
  good sorted -> Forall ok sorted -> Forall ok more ->
  ForallOrdPairs first more ->
  (forall w z, In w sorted -> In z more -> first w z) ->
  good (binarysort lt sorted more).
Proof.
  unfold binarysort.
  induction more as [|z more IH]; intros sorted Hs Hok Hokm Hfm Hc;
    simpl; [assumption|].
  inversion Hokm as [|? ? Hz Hokm']; subst.
  inversion Hfm as [|? ? Hzm Hfm']; subst.
  assert (Hin : forall w, In w (binary_insert lt sorted z) ->
                          w = z \/ In w sorted).
  { intros w Hw.
    apply (Permutation_in _ (binary_insert_perm lt sorted z)) in Hw.
    destruct Hw; auto. }
  apply IH; auto.
  - apply binary_insert_good; auto. intros w Hw. apply Hc; simpl; auto.
  - apply Forall_forall. intros w Hw. rewrite Forall_forall in Hok.
    destruct (Hin w Hw) as [->|Hw']; auto.
  - intros w y Hw Hy. destruct (Hin w Hw) as [->|Hw'].
    + rewrite Forall_forall in Hzm. auto.
    + apply Hc; simpl; auto.
Qed.

(** *** The merges *)

Lemma above_head y x a :
  good (x :: a) -> Forall ok (x :: a) -> lt y x = true ->
  forall x', In x' (x :: a) -> lt y x' = true.
Proof.
  intros Ha Hok E x' [<-|Hx]; [assumption|].
  inversion Ha as [|? ? Hxa _]; subst. rewrite Forall_forall in Hxa, Hok.
  apply (@lt_le_trans y x x'); [apply Hok; now right|assumption|].
  exact (proj1 (Hxa x' Hx)).
Qed.

Lemma not_below_head x y b :
  good (y :: b) -> Forall ok (y :: b) -> lt y x = false ->
  forall y', In y' (y :: b) -> lt y' x = false.
Proof.
  intros Hb Hok E y' [<-|Hy]; [assumption|].
  inversion Hb as [|? ? Hyb _]; subst. rewrite Forall_forall in Hyb.
  inversion Hok as [|? ? Hy0 _]; subst.
  exact (le_trans Hy0 E (proj1 (Hyb y' Hy))).
Qed.

Lemma last_above_cons x a b :
  a <> [] -> last_above (x :: a) b -> last_above a b.
Proof.
  intros _ H a0 z E. apply (H (x :: a0) z). now rewrite E.
Qed.

Lemma last_above_app o a b : last_above (o ++ a) b -> last_above a b.
Proof.
  intros H a0 z E. apply (H (o ++ a0) z). now rewrite E, app_assoc.
Qed.

Lemma last_above_sub a b b' :
  (forall y, In y b' -> In y b) -> last_above a b -> last_above a b'.
Proof. intros Hs H a0 z E y Hy. apply (H a0 z E). auto. Qed.

Lemma Forall_app_l (P : A -> Prop) l1 l2 :
  Forall P (l1 ++ l2) -> Forall P l1.
Proof. intros H. now apply Forall_app in H. Qed.

Lemma Forall_app_r (P : A -> Prop) l1 l2 :
  Forall P (l1 ++ l2) -> Forall P l2.
Proof. intros H. now apply Forall_app in H. Qed.

Lemma good_app_l l1 l2 : good (l1 ++ l2) -> good l1.
Proof. intros H. now apply FOP_app in H. Qed.

Lemma good_app_r l1 l2 : good (l1 ++ l2) -> good l2.
Proof. intros H. now apply FOP_app in H. Qed.

Lemma good_tail x l : good (x :: l) -> good l.
Proof. now inversion 1. Qed.

Lemma Forall_tail (P : A -> Prop) x l : Forall P (x :: l) -> Forall P l.
Proof. now inversion 1. Qed.

Local Opaque gallop_left gallop_right.

Ltac norm_tests' :=
  cbn [is_nil length_is_1 andb negb]; rewrite ?andb_false_r, ?andb_true_r.

Lemma merge_lo_loop_vmerge fuel : forall ph mg smg a b,
  good a -> good b -> Forall ok a -> Forall ok b ->
  cross a b -> last_above a b ->
  length a + length b <= fuel ->
  vmerge R a b (fst (merge_lo_loop lt fuel ph mg smg a b)).
Proof.
  induction fuel as [|fuel IH]; intros ph mg smg a b Ha Hb Hoka Hokb Hc Hl Hf.
  { destruct a, b; simpl in Hf; try lia. constructor. }
  cbn [merge_lo_loop].
  destruct ph as [acount bcount|], a as [|x a], b as [|y b];
    try (cbn [fst app]; rewrite ?app_nil_r; constructor).
  - (* one pair at a time *)
    destruct (lt y x) eqn:E.
    + pose proof (above_head Ha Hoka E) as Hy.
      assert (Hstep : forall c, vmerge R (x :: a) b c ->
                                vmerge R (x :: a) (y :: b) (y :: c)).
      { intros c Hm. constructor; [|assumption].
        intros x' Hx'. apply R_lt. auto. }
      assert (Hrec : forall ph' mg' smg',
                 vmerge R (x :: a) b
                        (fst (merge_lo_loop lt fuel ph' mg' smg' (x :: a) b))).
      { intros. apply IH; eauto using good_tail, Forall_tail.
        - intros u v Hu Hv. apply Hc; simpl; auto.
        - eapply last_above_sub; [|exact Hl]. simpl; auto.
        - simpl in *. lia. }
      destruct b as [|y' b]; cbn [is_nil].
      * apply Hstep. constructor.
      * destruct (mg <=? S bcount); rewrite fst_emit; apply Hstep, Hrec.
    + pose proof (not_below_head Hb Hokb E) as Hx.
      assert (Hstep : forall c, vmerge R a (y :: b) c ->
                                vmerge R (x :: a) (y :: b) (x :: c)).
      { intros c Hm. constructor; [|assumption].
        intros y' Hy'. apply R_le; [apply Hc; simpl; auto|auto]. }
      destruct a as [|z [|z' a]]; cbn [length_is_1].
      * (* unreachable: na = 0 *)
        assert (Hrec : forall ph' mg' smg',
                   vmerge R [] (y :: b)
                          (fst (merge_lo_loop lt fuel ph' mg' smg' [] (y :: b)))).
        { intros. destruct fuel; cbn [merge_lo_loop fst app];
            [constructor|destruct ph'; constructor]. }
        destruct (mg <=? S acount); rewrite fst_emit; apply Hstep, Hrec.
      * apply Hstep. apply vmerge_b_all.
        intros y' x' Hy' [<-|[]]. apply R_lt.
        apply (Hl [x] z eq_refl). assumption.
      * assert (Hrec : forall ph' mg' smg',
                   vmerge R (z :: z' :: a) (y :: b)
                          (fst (merge_lo_loop lt fuel ph' mg' smg'
                                              (z :: z' :: a) (y :: b)))).
        { intros. apply IH; eauto using good_tail, Forall_tail.
          - intros u v Hu Hv. apply Hc; simpl; auto.
          - eapply last_above_cons; [discriminate|exact Hl].
          - simpl in *. lia. }
        destruct (mg <=? S acount); rewrite fst_emit; apply Hstep, Hrec.
  - (* galloping *)
    cbv zeta.
    destruct (@gallop_right_split y (x :: a) 0 Ha Hoka) as (G1 & G2 & G0);
      [simpl; lia|].
    set (k := gallop_right lt y (x :: a) 0) in *. clearbody k.
    set (mg' := mg - _). clearbody mg'.
    pose proof (firstn_skipn k (x :: a)) as Ea.
    set (o := firstn k (x :: a)) in *. set (a1 := skipn k (x :: a)) in *.
    clearbody o a1.
    rewrite <- Ea in Ha, Hoka, Hc, Hl, Hf |- *.
    assert (Ho : forall c, vmerge R a1 (y :: b) c ->
                           vmerge R (o ++ a1) (y :: b) (o ++ c)).
    { intros c Hm. apply vmerge_a_chunk; [|assumption].
      intros x' y' Hx' Hy'. apply R_le.
      - apply Hc; [apply in_or_app|]; auto.
      - apply (not_below_head Hb Hokb (G1 x' Hx')). assumption. }
    assert (Hy : forall c, vmerge R a1 b c ->
                           vmerge R a1 (y :: b) (y :: c)).
    { intros c Hm. constructor; [|assumption].
      intros x' Hx'. apply R_lt. auto. }
    pose proof (@good_app_r _ _ Ha) as Ha1.
    pose proof (@Forall_app_r _ _ _ Hoka) as Hoka1.
    pose proof (@last_above_app _ _ _ Hl) as Hl1.
    assert (Hc1 : cross a1 (y :: b)).
    { intros u v Hu Hv. apply Hc; [apply in_or_app|]; auto. }
    assert (Hb' : good b) by (eapply good_tail; eauto).
    assert (Hokb' : Forall ok b) by (eapply Forall_tail; eauto).
    destruct (negb (k =? 0) && length_is_1 a1) eqn:C1.
    { (* one element of [a] is left: the rest of [b] goes before it *)
      apply andb_true_iff in C1 as [_ C1].
      destruct a1 as [|z [|? ?]]; try discriminate C1.
      cbn [fst]. apply Ho. apply vmerge_b_all.
      intros y' x' Hy' [<-|[]]. apply R_lt.
      apply (Hl1 [] z eq_refl). assumption. }
    destruct (negb (k =? 0) && is_nil a1) eqn:C2.
    { apply andb_true_iff in C2 as [_ C2].
      destruct a1; [|discriminate C2]. cbn [fst]. apply Ho. constructor. }
    destruct b as [|y2 b]; cbn [is_nil].
    { cbn [fst]. apply Ho, Hy. constructor. }
    destruct a1 as [|x1 a1].
    { cbn [fst]. apply Ho. constructor. }
    destruct (@gallop_left_split x1 (y2 :: b) 0 Hb' Hokb')
      as (L1 & L2 & L0); [simpl; lia|].
    set (k2 := gallop_left lt x1 (y2 :: b) 0) in *. clearbody k2.
    pose proof (firstn_skipn k2 (y2 :: b)) as Eb.
    set (o2 := firstn k2 (y2 :: b)) in *.
    set (b2 := skipn k2 (y2 :: b)) in *.
    clearbody o2 b2.
    assert (Hsub : forall v, In v b2 -> In v (y :: y2 :: b)).
    { intros v Hv. right. rewrite <- Eb. apply in_or_app. now right. }
    assert (Ho2 : forall c, vmerge R (x1 :: a1) b2 c ->
                            vmerge R (x1 :: a1) (y2 :: b) (o2 ++ c)).
    { intros c Hm. rewrite <- Eb. apply vmerge_b_chunk; [|assumption].
      intros y' x' Hy' Hx'. apply R_lt.
      apply (above_head Ha1 Hoka1 (L1 y' Hy')). assumption. }
    assert (Hx1 : forall c, vmerge R a1 b2 c ->
                            vmerge R (x1 :: a1) b2 (x1 :: c)).
    { intros c Hm. constructor; [|assumption].
      intros y' Hy'. apply R_le; [|auto].
      apply Hc1; [now left|auto]. }
    destruct (negb (k2 =? 0) && is_nil b2) eqn:C3.
    { apply andb_true_iff in C3 as [_ C3].
      destruct b2; [|discriminate C3]. cbn [fst].
      apply Ho, Hy, Ho2. constructor. }
    assert (Hb2 : good b2).
    { rewrite <- Eb in Hb'. eapply good_app_r; eauto. }
    assert (Hokb2 : Forall ok b2).
    { rewrite <- Eb in Hokb'. eapply Forall_app_r; eauto. }
    destruct (length_is_1 a1) eqn:C4.
    { destruct a1 as [|z [|? ?]]; try discriminate C4.
      cbn [fst]. apply Ho, Hy, Ho2, Hx1. apply vmerge_b_all.
      intros y' x' Hy' [<-|[]]. apply R_lt.
      apply (Hl1 [x1] z eq_refl). auto. }
    assert (Hrec : forall ph' mg'' smg',
               vmerge R a1 b2
                      (fst (merge_lo_loop lt fuel ph' mg'' smg' a1 b2))).
    { intros. apply IH; eauto using good_tail, Forall_tail.
      - intros u v Hu Hv. apply Hc1; [now right|auto].
      - destruct a1 as [|z a1].
        + intros a0 z E. destruct a0; discriminate E.
        + eapply last_above_sub; [exact Hsub|].
          eapply last_above_cons; [discriminate|exact Hl1].
      - assert (length b2 <= length (y2 :: b)).
        { rewrite <- Eb, length_app. lia. }
        rewrite length_app in Hf. simpl in *. lia. }
    destruct (_ || _); rewrite fst_emit.
    + replace (o ++ y :: o2 ++ [x1]) with (o ++ (y :: o2 ++ [x1]))
        by reflexivity.
      rewrite <- !app_assoc. cbn [app].
      rewrite <- app_assoc. cbn [app].
      apply Ho, Hy, Ho2, Hx1, Hrec.
    + rewrite <- !app_assoc. cbn [app].
      rewrite <- app_assoc. cbn [app].
      apply Ho, Hy, Ho2, Hx1, Hrec.
Qed.

Lemma merge_lo_good a b mg :
  good a -> good b -> Forall ok a -> Forall ok b ->
  cross a b -> last_above a b -> first_below a b ->
  good (fst (merge_lo lt a b mg)).
Proof.
  intros Ha Hb Hoka Hokb Hc Hl Hfb.
  apply (@vmerge_FOP _ R a b); [|assumption|assumption].
  unfold merge_lo. destruct b as [|y b]; [constructor|].
  assert (Hy : forall c, vmerge R a b c -> vmerge R a (y :: b) (y :: c)).
  { intros c Hm. constructor; [|assumption].
    intros x Hx. apply R_lt. exact (Hfb y b eq_refl x Hx). }
  destruct b as [|y2 b]; cbn [is_nil].
  { cbn [fst]. apply Hy. constructor. }
  destruct (length_is_1 a) eqn:C.
  { destruct a as [|z [|? ?]]; try discriminate C. cbn [fst].
    apply vmerge_b_all. intros y' x' Hy' [<-|[]]. apply R_lt.
    exact (Hl [] z eq_refl y' Hy'). }
  rewrite fst_emit. apply Hy. apply merge_lo_loop_vmerge;
    eauto using good_tail, Forall_tail.
  - intros u v Hu Hv. apply Hc; simpl; auto.
  - eapply last_above_sub; [|exact Hl]. simpl; auto.
  - simpl. lia.
Qed.

(** The same for [merge_hi], which works on the runs from their
    ends. *)
Abbreviation R' := (fun u v => ascending_stable lt first v u).
Abbreviation good' :=
  (ForallOrdPairs (fun u v => ascending_stable lt first v u)).

Lemma below_head' x y rb :
  good' (y :: rb) -> Forall ok (y :: rb) -> lt y x = true ->
  forall y', In y' (y :: rb) -> lt y' x = true.
Proof.
  intros Hb Hok E y' [<-|Hy]; [assumption|].
  inversion Hb as [|? ? Hyb _]; subst. rewrite Forall_forall in Hyb, Hok.
  apply (@le_lt_trans y' y x); [apply Hok; now right| |assumption].
  exact (proj1 (Hyb y' Hy)).
Qed.

Lemma not_above_head' y x ra :
  good' (x :: ra) -> Forall ok (x :: ra) -> lt y x = false ->
  forall x', In x' (x :: ra) -> lt y x' = false.
Proof.
  intros Ha Hok E x' [<-|Hx]; [assumption|].
  inversion Ha as [|? ? Hxa _]; subst. rewrite Forall_forall in Hxa.
  inversion Hok as [|? ? Hx0 _]; subst.
  exact (le_trans Hx0 (proj1 (Hxa x' Hx)) E).
Qed.

Lemma first_below'_cons y ra rb :
  first_below' ra (y :: rb) -> first_below' ra rb.
Proof.
  intros H rb0 y1 E. apply (H (y :: rb0) y1). now rewrite E.
Qed.

Lemma first_below'_app o ra rb :
  first_below' ra (o ++ rb) -> first_below' ra rb.
Proof.
  intros H rb0 y1 E. apply (H (o ++ rb0) y1). now rewrite E, app_assoc.
Qed.

Lemma first_below'_sub ra ra' rb :
  (forall x, In x ra' -> In x ra) -> first_below' ra rb -> first_below' ra' rb.
Proof. intros Hs H rb0 y1 E x Hx. apply (H rb0 y1 E). auto. Qed.

Lemma good_app_r' l1 l2 : good' (l1 ++ l2) -> good' l2.
Proof. intros H. now apply FOP_app in H. Qed.

Lemma FOP_tail' x l : good' (x :: l) -> good' l.
Proof. now inversion 1. Qed.

Lemma good'_rev l : good' l -> good (rev l).
Proof.
  intros H. apply FOP_rev in H.
  eapply FOP_impl; [|exact H]. intros x y _ _ Hxy. exact Hxy.
Qed.

Lemma good_rev' l : good l -> good' (rev l).
Proof. intros H. now apply FOP_rev in H. Qed.

(** What the searches of [merge_hi] find, in terms of the runs taken
    from their ends. *)
Lemma gallop_right_split' z rl :
  good' rl -> Forall ok rl -> rl <> [] ->
  let k := length rl - gallop_right lt z (rev rl) (length rl - 1) in
  (forall x, In x (firstn k rl) -> lt z x = true) /\
  (forall x, In x (skipn k rl) -> lt z x = false).
Proof.
  intros Hl Hok Hne. cbv zeta.
  assert (Hlen : 0 < length rl) by (destruct rl; simpl; [congruence|lia]).
  destruct (@gallop_right_split z (rev rl) (length rl - 1))
    as (G1 & G2 & G0).
  - now apply good'_rev.
  - now apply Forall_rev.
  - rewrite length_rev. lia.
  - rewrite length_rev in G0.
    set (g := gallop_right lt z (rev rl) (length rl - 1)) in *. clearbody g.
    rewrite firstn_rev in G1. rewrite skipn_rev in G2.
    split; intros x Hx.
    + apply G2. now apply in_rev in Hx.
    + apply G1. apply -> in_rev.
      replace (length rl - g) with (length rl - g) by reflexivity.
      exact Hx.
Qed.

Lemma gallop_left_split' z rl :
  good' rl -> Forall ok rl -> rl <> [] ->
  let k := length rl - gallop_left lt z (rev rl) (length rl - 1) in
  (forall y, In y (firstn k rl) -> lt y z = false) /\
  (forall y, In y (skipn k rl) -> lt y z = true).
Proof.
  intros Hl Hok Hne. cbv zeta.
  assert (Hlen : 0 < length rl) by (destruct rl; simpl; [congruence|lia]).
  destruct (@gallop_left_split z (rev rl) (length rl - 1))
    as (G1 & G2 & G0).
  - now apply good'_rev.
  - now apply Forall_rev.
  - rewrite length_rev. lia.
  - rewrite length_rev in G0.
    set (g := gallop_left lt z (rev rl) (length rl - 1)) in *. clearbody g.
    rewrite firstn_rev in G1. rewrite skipn_rev in G2.
    split; intros x Hx.
    + apply G2. now apply in_rev in Hx.
    + apply G1. apply -> in_rev. exact Hx.
Qed.

Lemma merge_hi_loop_vmerge fuel : forall ph mg smg ra rb,
  good' ra -> good' rb -> Forall ok ra -> Forall ok rb ->
  cross' ra rb -> first_below' ra rb ->
  length ra + length rb <= fuel ->
  vmerge R' ra rb (fst (merge_hi_loop lt fuel ph mg smg ra rb)).
Proof.
  induction fuel as [|fuel IH];
    intros ph mg smg ra rb Ha Hb Hoka Hokb Hc Hfb Hf.
  { destruct ra, rb; simpl in Hf; try lia. constructor. }
  cbn [merge_hi_loop].
  destruct ph as [acount bcount|], ra as [|x ra], rb as [|y rb];
    try (cbn [fst app]; rewrite ?app_nil_r; constructor).
  - (* one pair at a time *)
    destruct (lt y x) eqn:E.
    + pose proof (below_head' Hb Hokb E) as Hx.
      assert (Hstep : forall c, vmerge R' ra (y :: rb) c ->
                                vmerge R' (x :: ra) (y :: rb) (x :: c)).
      { intros c Hm. constructor; [|assumption].
        intros y' Hy'. apply R_lt. auto. }
      destruct ra as [|x' ra]; cbn [is_nil].
      * apply Hstep. constructor.
      * assert (Hrec : forall ph' mg' smg',
                   vmerge R' (x' :: ra) (y :: rb)
                          (fst (merge_hi_loop lt fuel ph' mg' smg'
                                              (x' :: ra) (y :: rb)))).
        { intros. apply IH; eauto using FOP_tail', Forall_tail.
          - intros u v Hu Hv. apply Hc; simpl; auto.
          - eapply first_below'_sub; [|exact Hfb]. simpl; auto.
          - simpl in *. lia. }
        destruct (mg <=? S acount); rewrite fst_emit; apply Hstep, Hrec.
    + pose proof (not_above_head' Ha Hoka E) as Hy.
      assert (Hstep : forall c, vmerge R' (x :: ra) rb c ->
                                vmerge R' (x :: ra) (y :: rb) (y :: c)).
      { intros c Hm. constructor; [|assumption].
        intros x' Hx'. apply R_le; [apply Hc; simpl; auto|auto]. }
      destruct (length_is_1 rb) eqn:C.
      * destruct rb as [|y1 [|? ?]]; try discriminate C.
        apply Hstep. apply vmerge_a_all.
        intros x' y' Hx' [<-|[]]. apply R_lt.
        apply (Hfb [y] y1 eq_refl). assumption.
      * assert (Hrec : forall ph' mg' smg',
                   vmerge R' (x :: ra) rb
                          (fst (merge_hi_loop lt fuel ph' mg' smg'
                                              (x :: ra) rb))).
        { intros. apply IH; eauto using FOP_tail', Forall_tail.
          - intros u v Hu Hv. apply Hc; simpl; auto.
          - eapply first_below'_cons; exact Hfb.
          - simpl in *. lia. }
        destruct (mg <=? S bcount); rewrite fst_emit; apply Hstep, Hrec.
  - (* galloping *)
    cbv zeta.
    destruct (@gallop_right_split' y (x :: ra) Ha Hoka) as (G1 & G2);
      [discriminate|].
    set (k := length (x :: ra) - gallop_right lt y _ _) in *. clearbody k.
    set (mg' := mg - _). clearbody mg'.
    pose proof (firstn_skipn k (x :: ra)) as Ea.
    set (o := firstn k (x :: ra)) in *. set (ra1 := skipn k (x :: ra)) in *.
    clearbody o ra1.
    rewrite <- Ea in Ha, Hoka, Hc, Hfb, Hf |- *.
    assert (Ho : forall c, vmerge R' ra1 (y :: rb) c ->
                           vmerge R' (o ++ ra1) (y :: rb) (o ++ c)).
    { intros c Hm. apply vmerge_a_chunk; [|assumption].
      intros x' y' Hx' Hy'. apply R_lt.
      apply (below_head' Hb Hokb (G1 x' Hx')). assumption. }
    assert (Hy : forall c, vmerge R' ra1 rb c ->
                           vmerge R' ra1 (y :: rb) (y :: c)).
    { intros c Hm. constructor; [|assumption].
      intros x' Hx'. apply R_le; [|auto].
      apply Hc; [apply in_or_app; now right|now left]. }
    pose proof (@good_app_r' _ _ Ha) as Ha1.
    pose proof (@Forall_app_r _ _ _ Hoka) as Hoka1.
    assert (Hfb1 : first_below' ra1 (y :: rb)).
    { eapply first_below'_sub; [|exact Hfb].
      intros v Hv. apply in_or_app. now right. }
    assert (Hc1 : cross' ra1 (y :: rb)).
    { intros u v Hu Hv. apply Hc; [apply in_or_app|]; auto. }
    assert (Hb' : good' rb) by (eapply FOP_tail'; eauto).
    assert (Hokb' : Forall ok rb) by (eapply Forall_tail; eauto).
    destruct (negb (k =? 0) && is_nil ra1) eqn:C1.
    { apply andb_true_iff in C1 as [_ C1].
      destruct ra1; [|discriminate C1]. cbn [fst]. apply Ho. constructor. }
    destruct (length_is_1 rb) eqn:C2.
    { destruct rb as [|y1 [|? ?]]; try discriminate C2.
      cbn [fst]. apply Ho, Hy. apply vmerge_a_all.
      intros x' y' Hx' [<-|[]]. apply R_lt.
      apply (Hfb1 [y] y1 eq_refl). assumption. }
    destruct ra1 as [|x1 ra1].
    { cbn [fst]. apply Ho. constructor. }
    assert (Hx1 : forall rb2 c,
               (forall y', In y' rb2 -> lt y' x1 = true) ->
               vmerge R' ra1 rb2 c ->
               vmerge R' (x1 :: ra1) rb2 (x1 :: c)).
    { intros rb2 c L Hm. constructor; [|assumption].
      intros y' Hy'. apply R_lt. auto. }
    destruct rb as [|y2 rb].
    { (* nothing is left of [b] *)
      cbn [length Nat.sub firstn skipn is_nil length_is_1 andb negb Nat.eqb app].
      rewrite ?firstn_nil, ?skipn_nil.
      cbn [is_nil length_is_1 andb negb Nat.eqb app].
      rewrite ?andb_false_r.
      assert (Hrec : forall ph' mg'' smg',
                 vmerge R' ra1 []
                        (fst (merge_hi_loop lt fuel ph' mg'' smg' ra1 []))).
      { intros. destruct fuel; cbn [merge_hi_loop fst app];
          [constructor|destruct ph', ra1; constructor]. }
      assert (Hnil : forall y', In y' (@nil A) -> lt y' x1 = true)
        by (intros y' []).
      destruct ra1 as [|x2 ra1]; cbn [is_nil].
      - cbn [fst]. apply Ho, Hy, (Hx1 [] [] Hnil). constructor.
      - destruct (_ || _); rewrite fst_emit; cbn [app];
          rewrite <- app_assoc; cbn [app]; apply Ho, Hy, (Hx1 _ _ Hnil), Hrec. }
    destruct (@gallop_left_split' x1 (y2 :: rb) Hb' Hokb') as (L1 & L2);
      [discriminate|].
    set (k2 := length (y2 :: rb) - gallop_left lt x1 _ _) in *. clearbody k2.
    pose proof (firstn_skipn k2 (y2 :: rb)) as Eb.
    set (o2 := firstn k2 (y2 :: rb)) in *.
    set (rb2 := skipn k2 (y2 :: rb)) in *.
    clearbody o2 rb2.
    assert (Ho2 : forall c, vmerge R' (x1 :: ra1) rb2 c ->
                            vmerge R' (x1 :: ra1) (y2 :: rb) (o2 ++ c)).
    { intros c Hm. rewrite <- Eb. apply vmerge_b_chunk; [|assumption].
      intros y' x' Hy' Hx'. apply R_le.
      - apply Hc1; [assumption|]. right. rewrite <- Eb.
        apply in_or_app. now left.
      - apply (not_above_head' Ha1 Hoka1 (L1 y' Hy')). assumption. }
    assert (Hfb2 : first_below' (x1 :: ra1) rb2).
    { eapply first_below'_app. rewrite Eb.
      eapply first_below'_cons. exact Hfb1. }
    destruct (negb (k2 =? 0) && length_is_1 rb2) eqn:C3.
    { apply andb_true_iff in C3 as [_ C3].
      destruct rb2 as [|y1 [|? ?]]; try discriminate C3.
      cbn [fst]. apply Ho, Hy, Ho2. apply vmerge_a_all.
      intros x' y' Hx' [<-|[]]. apply R_lt.
      apply (Hfb2 [] y1 eq_refl). assumption. }
    destruct (negb (k2 =? 0) && is_nil rb2) eqn:C4.
    { apply andb_true_iff in C4 as [_ C4].
      destruct rb2; [|discriminate C4]. cbn [fst].
      apply Ho, Hy, Ho2. constructor. }
    destruct ra1 as [|x2 ra1]; cbn [is_nil].
    { cbn [fst]. apply Ho, Hy, Ho2, (Hx1 rb2 rb2 L2). constructor. }
    assert (Hrec : forall ph' mg'' smg',
               vmerge R' (x2 :: ra1) rb2
                      (fst (merge_hi_loop lt fuel ph' mg'' smg'
                                          (x2 :: ra1) rb2))).
    { intros. apply IH; eauto using FOP_tail', Forall_tail.
      - rewrite <- Eb in Hb'. eapply good_app_r'; eauto.
      - rewrite <- Eb in Hokb'. eapply Forall_app_r; eauto.
      - intros u v Hu Hv. apply Hc1; [now right|].
        right. rewrite <- Eb. apply in_or_app. now right.
      - eapply first_below'_sub; [|exact Hfb2]. simpl; auto.
      - assert (length rb2 <= length (y2 :: rb)).
        { rewrite <- Eb, length_app. lia. }
        rewrite length_app in Hf. simpl in *. lia. }
    destruct (_ || _); rewrite fst_emit;
      rewrite <- !app_assoc; cbn [app]; rewrite <- app_assoc; cbn [app];
      apply Ho, Hy, Ho2, (Hx1 _ _ L2), Hrec.
Qed.

Lemma merge_hi_good a b mg :
  good a -> good b -> Forall ok a -> Forall ok b ->
  cross a b -> last_above a b -> first_below a b ->
  good (fst (merge_hi lt a b mg)).
Proof.
  intros Ha Hb Hoka Hokb Hc Hl Hfb. unfold merge_hi.
  destruct (rev a) as [|x ra] eqn:Era; [assumption|].
  cbn [fst]. apply good'_rev.
  assert (Ea : a = rev ra ++ [x]).
  { rewrite <- (rev_involutive a), Era. reflexivity. }
  apply good_rev' in Ha, Hb. rewrite Era in Ha.
  apply Forall_rev in Hoka, Hokb. rewrite Era in Hoka.
  assert (Hc' : cross' (x :: ra) (rev b)).
  { intros u v Hu Hv. apply Hc; [|now apply in_rev].
    apply in_rev. now rewrite Era. }
  assert (Hfb' : first_below' (x :: ra) (rev b)).
  { intros rb0 y1 E u Hu.
    assert (Eb : b = y1 :: rev rb0).
    { rewrite <- (rev_involutive b), E, rev_app_distr. reflexivity. }
    apply (Hfb y1 (rev rb0) Eb). apply in_rev. now rewrite Era. }
  apply (@vmerge_FOP _ R' (x :: ra) (rev b)); [|assumption|assumption].
  assert (Hx : forall c, vmerge R' ra (rev b) c ->
                         vmerge R' (x :: ra) (rev b) (x :: c)).
  { intros c Hm. constructor; [|assumption].
    intros y Hy. apply R_lt. apply (Hl (rev ra) x Ea). now apply in_rev. }
  destruct ra as [|x' ra]; cbn [is_nil].
  { cbn [fst]. apply Hx. constructor. }
  destruct (length_is_1 (rev b)) eqn:C.
  { destruct (rev b) as [|y1 [|? ?]]; try discriminate C. cbn [fst].
    apply Hx. apply vmerge_a_all. intros u v Hu [<-|[]]. apply R_lt.
    apply (Hfb' [] y1 eq_refl). now right. }
  rewrite fst_emit. apply Hx. apply merge_hi_loop_vmerge;
    eauto using FOP_tail', Forall_tail.
  - intros u v Hu Hv. apply Hc'; simpl; auto.
  - eapply first_below'_sub; [|exact Hfb']. simpl; auto.
  - rewrite Ea, length_app, !length_rev. simpl. lia.
Qed.

Lemma lt_irrefl x : lt x x = false.
Proof.
  destruct (lt x x) eqn:E; [|reflexivity]. now rewrite (lt_asym E) in E.
Qed.

Lemma good_last l z x : good (l ++ [z]) -> In x (l ++ [z]) -> lt z x = false.
Proof.
  intros H Hx. apply FOP_app in H as (_ & _ & H).
  apply in_app_or in Hx as [Hx|[<-|[]]]; [|apply lt_irrefl].
  exact (proj1 (H x z Hx (or_introl eq_refl))).
Qed.

Lemma merge_in a b mg x :
  In x (fst (if length a <=? length b then merge_lo lt a b mg
             else merge_hi lt a b mg)) -> In x a \/ In x b.
Proof.
  intros H. apply in_app_or.
  destruct (length a <=? length b).
  - exact (Permutation_in _ (merge_lo_perm lt a b mg) H).
  - exact (Permutation_in _ (merge_hi_perm lt a b mg) H).
Qed.

(** Two sorted runs, one after the other in the list, are merged into a
    sorted run. *)
Lemma merge_at_good a b mg :
  good a -> good b -> Forall ok a -> Forall ok b -> cross a b ->
  good (fst (merge_at lt a b mg)).
Proof.
  intros Ha Hb Hoka Hokb Hc. unfold merge_at.
  destruct b as [|y b]; [assumption|].
  assert (Happ : (forall x y', In x a -> In y' (y :: b) -> lt y' x = false) ->
                 good (a ++ y :: b)).
  { intros H. apply FOP_app. split; [assumption|]. split; [assumption|].
    intros u v Hu Hv. apply R_le; [now apply Hc|now apply H]. }
  destruct a as [|x0 a].
  { rewrite skipn_nil. assumption. }
  destruct (@gallop_right_split y (x0 :: a) 0 Ha Hoka) as (G1 & G2 & G0);
    [simpl; lia|].
  set (k := gallop_right lt y (x0 :: a) 0) in *. clearbody k.
  pose proof (firstn_skipn k (x0 :: a)) as Ea.
  set (o := firstn k (x0 :: a)) in *. set (a1 := skipn k (x0 :: a)) in *.
  clearbody o a1.
  destruct (rev a1) as [|z ra] eqn:Era.
  { cbn [fst]. apply Happ. intros x y' Hx Hy'.
    assert (a1 = []) as ->.
    { rewrite <- (rev_involutive a1), Era. reflexivity. }
    rewrite app_nil_r in Ea. rewrite <- Ea in Hx.
    apply (not_below_head Hb Hokb (G1 x Hx)). assumption. }
  assert (Ea1 : a1 = rev ra ++ [z]).
  { rewrite <- (rev_involutive a1), Era. reflexivity. }
  assert (Ha1 : good a1).
  { rewrite <- Ea in Ha. eapply good_app_r; eauto. }
  assert (Hoka1 : Forall ok a1).
  { rewrite <- Ea in Hoka. eapply Forall_app_r; eauto. }
  assert (Hz : ok z).
  { rewrite Forall_forall in Hoka1. apply Hoka1. rewrite Ea1.
    apply in_or_app. right. now left. }
  assert (Hlast : forall x, In x (x0 :: a) -> lt z x = false).
  { intros x Hx. rewrite <- Ea, Ea1, app_assoc in Hx, Ha.
    exact (@good_last _ _ _ Ha Hx). }
  destruct (@gallop_left_split z (y :: b) (length (y :: b) - 1) Hb Hokb)
    as (L1 & L2 & L0); [simpl; lia|].
  set (nb := gallop_left lt z (y :: b) _) in *. clearbody nb.
  destruct (nb =? 0) eqn:Enb.
  { apply Nat.eqb_eq in Enb. subst nb. cbn [fst]. apply Happ.
    intros x y' Hx Hy'.
    apply (le_trans Hz (Hlast x Hx)). apply L2. exact Hy'. }
  apply Nat.eqb_neq in Enb. cbv zeta. cbn [fst].
  pose proof (firstn_skipn nb (y :: b)) as Eb.
  set (b1 := firstn nb (y :: b)) in *. set (b3 := skipn nb (y :: b)) in *.
  assert (Hb1 : good b1 /\ good b3 /\
                forall u v, In u b1 -> In v b3 -> R u v).
  { rewrite <- Eb in Hb. now apply FOP_app in Hb. }
  destruct Hb1 as (Hb1 & Hb3 & Hb13).
  assert (Hokb1 : Forall ok b1).
  { rewrite <- Eb in Hokb. eapply Forall_app_l; eauto. }
  assert (Hin1 : forall v, In v b1 -> In v (y :: b)).
  { intros v Hv. rewrite <- Eb. apply in_or_app. now left. }
  assert (Hin3 : forall v, In v b3 -> In v (y :: b)).
  { intros v Hv. rewrite <- Eb. apply in_or_app. now right. }
  assert (Hina1 : forall u, In u a1 -> In u (x0 :: a)).
  { intros u Hu. rewrite <- Ea. apply in_or_app. now right. }
  assert (Hino : forall u, In u o -> In u (x0 :: a)).
  { intros u Hu. rewrite <- Ea. apply in_or_app. now left. }
  assert (Hm : good (fst (if length a1 <=? length b1
                          then merge_lo lt a1 b1 mg
                          else merge_hi lt a1 b1 mg))).
  { assert (Hc1 : cross a1 b1) by (intros u v Hu Hv; apply Hc; auto).
    assert (Hl1 : last_above a1 b1).
    { intros a0 z' E v Hv. rewrite Ea1 in E.
      apply app_inj_tail in E as [_ <-]. now apply L1. }
    assert (Hf1 : first_below a1 b1).
    { intros y' b0 E u Hu.
      assert (y' = y) as ->.
      { subst b1. destruct nb; [congruence|]. simpl in E. congruence. }
      now apply G2. }
    destruct (length a1 <=? length b1);
      [apply merge_lo_good|apply merge_hi_good]; assumption. }
  match goal with
  | |- good (o ++ fst ?r ++ b3) =>
      change r with (if length a1 <=? length b1
                     then merge_lo lt a1 b1 mg else merge_hi lt a1 b1 mg)
  end.
  assert (Ho : good o).
  { rewrite <- Ea in Ha. eapply good_app_l; eauto. }
  assert (Hoa1 : forall u v, In u o -> In v a1 -> R u v).
  { rewrite <- Ea in Ha. now apply FOP_app in Ha. }
  assert (Hob : forall u v, In u o -> In v (y :: b) -> R u v).
  { intros u v Hu Hv. apply R_le; [apply Hc; auto|].
    apply (not_below_head Hb Hokb (G1 u Hu)). assumption. }
  assert (Ha3 : forall u v, In u a1 -> In v b3 -> R u v).
  { intros u v Hu Hv. apply R_le; [apply Hc; auto|].
    apply (le_trans Hz (Hlast u (Hina1 u Hu))). now apply L2. }
  apply FOP_app. split; [assumption|]. split.
  - apply FOP_app. split; [assumption|]. split; [assumption|].
    intros u v Hu Hv. apply merge_in in Hu as [Hu|Hu]; auto.
  - intros u v Hu Hv. apply in_app_or in Hv as [Hv|Hv]; [|auto].
    apply merge_in in Hv as [Hv|Hv]; auto.
Qed.

(** *** The pending runs *)

Lemma runs_ok_tail r p : runs_ok (r :: p) -> runs_ok p.
Proof.
  intros [H1 H2]. inversion H1; subst. inversion H2; subst. now split.
Qed.

Lemma runs_ok_merge r1 p1 r2 p2 rest mg pw :
  runs_ok ((r1, p1) :: (r2, p2) :: rest) ->
  runs_ok ((fst (merge_at lt r2 r1 mg), pw) :: rest).
Proof.
  intros [H1 H2].
  inversion H1 as [|? ? [G1 O1] H1']; subst.
  inversion H1' as [|? ? [G2 O2] H1'']; subst.
  inversion H2 as [|? ? C1 H2']; subst.
  inversion H2' as [|? ? C2 H2'']; subst.
  inversion C1 as [|? ? C12 C1']; subst.
  cbn [fst] in *.
  pose proof (merge_at_perm lt r2 r1 mg) as P.
  split.
  - constructor; [|assumption]. cbn [fst]. split.
    + now apply merge_at_good.
    + apply Forall_forall. intros x Hx.
      apply (Permutation_in _ P) in Hx. rewrite Forall_forall in O1, O2.
      apply in_app_or in Hx as [Hx|Hx]; auto.
  - constructor; [|assumption].
    rewrite Forall_forall in *. intros e He u v Hu Hv. cbn [fst] in Hv.
    apply (Permutation_in _ P) in Hv.
    apply in_app_or in Hv as [Hv|Hv].
    + exact (C2 e He u v Hu Hv).
    + exact (C1' e He u v Hu Hv).
Qed.

Lemma runs_ok_cons r pw p :
  runs_ok p -> good r -> Forall ok r ->
  (forall x y, In x (flat p) -> In y r -> first x y) ->
  runs_ok ((r, pw) :: p).
Proof.
  intros [H1 H2] Hr Hok Hc. split.
  - constructor; [now split|assumption].
  - constructor; [|assumption].
    apply Forall_forall. intros [e pe] He u v Hu Hv. cbn [fst] in *.
    apply Hc; [|assumption].
    unfold flat. apply in_concat. exists e. split; [|assumption].
    apply -> in_rev. apply in_map_iff. exists (e, pe). auto.
Qed.

Lemma runs_ok_power r pw pw' p : runs_ok ((r, pw) :: p) -> runs_ok ((r, pw') :: p).
Proof.
  intros [H1 H2]. inversion H1; subst. inversion H2; subst.
  split; constructor; assumption.
Qed.

Lemma collapse_ok fuel power : forall p mg,
  runs_ok p -> runs_ok (fst (collapse lt fuel power p mg)).
Proof.
  induction fuel as [|fuel IH]; intros p mg Hp; [assumption|].
  cbn [collapse].
  destruct p as [|[r1 p1] [|[r2 p2] rest]]; try assumption.
  destruct (power <? p2); [|assumption].
  pose proof (@runs_ok_merge r1 p1 r2 p2 rest mg p2 Hp) as H.
  destruct (merge_at lt r2 r1 mg) as [m mg']. cbn [fst] in H.
  now apply IH.
Qed.

Lemma found_new_run_ok listlen p mg n2 :
  runs_ok p -> runs_ok (fst (found_new_run lt listlen p mg n2)).
Proof.
  intros Hp. unfold found_new_run. destruct p as [|[r1 p1] rest]; [assumption|].
  set (power := powerloop _ _ _ _). clearbody power.
  pose proof (@collapse_ok (length ((r1, p1) :: rest)) power
                           ((r1, p1) :: rest) mg Hp) as H.
  destruct (collapse _ _ _ _ _) as [p' mg']. cbn [fst] in H.
  destruct p' as [|[r pw] rest']; cbn [fst]; [assumption|].
  eapply runs_ok_power; eauto.
Qed.

Lemma merge_force_collapse_ok fuel : forall p mg,
  runs_ok p -> runs_ok (merge_force_collapse lt fuel p mg).
Proof.
  induction fuel as [|fuel IH]; intros p mg Hp; [assumption|].
  cbn [merge_force_collapse].
  destruct p as [|[r1 p1] [|[r2 p2] rest]]; try assumption.
  destruct rest as [|[r3 p3] rest'].
  - pose proof (@runs_ok_merge r1 p1 r2 p2 [] mg p2 Hp) as H.
    destruct (merge_at lt r2 r1 mg) as [m mg']. now apply IH.
  - destruct (length r3 <? length r1).
    + pose proof (@runs_ok_merge r2 p2 r3 p3 rest' mg p3 (runs_ok_tail Hp))
        as H.
      pose proof (merge_at_perm lt r3 r2 mg) as P.
      destruct (merge_at lt r3 r2 mg) as [m mg']. cbn [fst] in *.
      apply IH.
      destruct Hp as [H1 H2], H as [H3 H4].
      inversion H1 as [|? ? G1 _]; subst.
      inversion H2 as [|? ? C1 _]; subst.
      inversion C1 as [|? ? C12 C1']; subst.
      inversion C1' as [|? ? C13 C1'']; subst.
      split; constructor; auto.
      constructor; [|assumption].
      intros u v Hu Hv. cbn [fst] in *.
      apply (Permutation_in _ P) in Hu.
      apply in_app_or in Hu as [Hu|Hu]; auto.
    + pose proof (@runs_ok_merge r1 p1 r2 p2 _ mg p2 Hp) as H.
      destruct (merge_at lt r2 r1 mg) as [m mg']. now apply IH.
Qed.

Lemma merge_force_collapse_length fuel : forall p mg,
  length p <= fuel -> length (merge_force_collapse lt fuel p mg) <= 1.
Proof.
  induction fuel as [|fuel IH]; intros p mg Hf.
  - destruct p; simpl in *; lia.
  - cbn [merge_force_collapse].
    destruct p as [|[r1 p1] [|[r2 p2] rest]]; simpl; try lia.
    destruct rest as [|[r3 p3] rest'].
    + destruct (merge_at lt r2 r1 mg) as [m mg']. apply IH.
      simpl in *. lia.
    + destruct (length r3 <? length r1).
      * destruct (merge_at lt r3 r2 mg) as [m mg']. apply IH.
        simpl in *. lia.
      * destruct (merge_at lt r2 r1 mg) as [m mg']. apply IH.
        simpl in *. lia.
Qed.

(** *** The loop over the runs *)

Lemma next_run_spec rest minrun :
  Forall ok rest -> ForallOrdPairs first rest ->
  let n := fst (count_run lt rest) in
  let run := firstn n rest in
  let run := if snd (count_run lt rest) then rev run else run in
  let force := Nat.min (length rest) minrun in
  let n' := if n <? minrun then force else n in
  let run := if n <? minrun
             then binarysort lt run (firstn (force - n) (skipn n rest))
             else run in
  good run /\ Permutation run (firstn n' rest).
Proof.
  intros Hok Hfirst. cbv zeta.
  pose proof (count_run_le lt rest) as Hle.
  pose proof (count_run_good Hok Hfirst) as Hgood.
  set (n := fst (count_run lt rest)) in *.
  set (run := if snd (count_run lt rest) then rev (firstn n rest)
              else firstn n rest) in *.
  assert (Hrun : Permutation run (firstn n rest)).
  { subst run. destruct (snd _); [symmetry; apply Permutation_rev|reflexivity]. }
  clearbody run.
  destruct (n <? minrun) eqn:E; [|now split].
  apply Nat.ltb_lt in E.
  set (force := Nat.min _ _).
  assert (Hsplit : firstn force rest
                   = firstn n rest ++ firstn (force - n) (skipn n rest)).
  { replace force with (n + (force - n)) at 1 by (subst force; lia).
    apply firstn_plus. }
  split.
  - pose proof Hfirst as Hf. rewrite <- (firstn_skipn n rest) in Hf.
    apply FOP_app in Hf as (_ & Hf2 & Hf3).
    apply binarysort_good; auto.
    + apply Forall_forall. intros x Hx. rewrite Forall_forall in Hok.
      apply Hok. apply (Permutation_in _ Hrun) in Hx.
      eapply in_firstn; eauto.
    + apply Forall_forall. intros x Hx. rewrite Forall_forall in Hok.
      apply Hok. apply in_firstn in Hx. eapply in_skipn; eauto.
    + now apply FOP_firstn.
    + intros w z Hw Hz. apply Hf3.
      * exact (Permutation_in _ Hrun Hw).
      * eapply in_firstn; eauto.
  - rewrite binarysort_perm, Hrun, Hsplit. reflexivity.
Qed.

Lemma sort_runs_ok fuel listlen minrun : forall p mg rest,
  runs_ok p -> Forall ok rest -> ForallOrdPairs first rest ->
  (forall x y, In x (flat p) -> In y rest -> first x y) ->
  length rest < fuel ->
  runs_ok (fst (sort_runs lt fuel listlen minrun p mg rest)).
Proof.
  induction fuel as [|fuel IH]; intros p mg rest Hp Hok Hfirst Hc Hf; [lia|].
  cbn [sort_runs]. destruct rest as [|x rest']; [assumption|].
  set (rest := x :: rest') in *.
  pose proof (@next_run_spec rest minrun Hok Hfirst) as H. cbv zeta in H.
  pose proof (count_run_le lt rest) as Hle.
  pose proof (@count_run_pos _ lt rest) as Hpos.
  destruct (count_run lt rest) as [n descending]. cbn [fst snd] in *.
  set (n' := if n <? minrun then Nat.min (length rest) minrun else n) in *.
  set (run := if n <? minrun then binarysort _ _ _ else _) in *.
  clearbody run.
  destruct H as [Hgood Hperm].
  pose proof (found_new_run_perm lt listlen p mg n') as F.
  pose proof (@found_new_run_ok listlen p mg n' Hp) as G.
  destruct (found_new_run lt listlen p mg n') as [p' mg']. cbn [fst] in *.
  pose proof Hfirst as Hsp. rewrite <- (firstn_skipn n' rest) in Hsp.
  apply FOP_app in Hsp as (_ & Hsp2 & Hsp3).
  assert (Hn' : 1 <= n').
  { assert (Hn : 1 <= n) by (apply Hpos; discriminate).
    unfold n'. destruct (n <? minrun) eqn:E; [|exact Hn].
    apply Nat.ltb_lt in E. unfold rest. simpl length. lia. }
  apply IH.
  - apply runs_ok_cons; auto.
    + apply Forall_forall. intros u Hu. rewrite Forall_forall in Hok.
      apply Hok. apply (Permutation_in _ Hperm) in Hu.
      eapply in_firstn; eauto.
    + intros u v Hu Hv. apply Hc; [exact (Permutation_in _ F Hu)|].
      apply (Permutation_in _ Hperm) in Hv. eapply in_firstn; eauto.
  - apply Forall_forall. intros u Hu. rewrite Forall_forall in Hok.
    apply Hok. eapply in_skipn; eauto.
  - assumption.
  - intros u v Hu Hv. rewrite flat_cons in Hu.
    apply in_app_or in Hu as [Hu|Hu].
    + apply Hc; [exact (Permutation_in _ F Hu)|]. eapply in_skipn; eauto.
    + apply Hsp3; [exact (Permutation_in _ Hperm Hu)|assumption].
  - rewrite length_skipn. clearbody n'. unfold rest in *.
    simpl length in *. lia.
Qed.

(** [list.sort()] leaves the list sorted, and leaves elements that do
    not differ in their order. *)
Lemma list_sort_good l :
  Forall ok l -> ForallOrdPairs first l -> good (list_sort lt l).
Proof.
  intros Hok Hfirst. unfold list_sort.
  destruct (length l <? 2) eqn:E.
  { apply Nat.ltb_lt in E. destruct l as [|x [|y l]]; simpl in E; try lia;
      repeat constructor. }
  pose proof (@sort_runs_ok (S (length l)) (length l)
                (merge_compute_minrun (length l)) [] MIN_GALLOP l) as H.
  destruct (sort_runs _ _ _ _ _ _ _) as [p mg]. cbn [fst] in H.
  assert (Hp : runs_ok p).
  { apply H; auto; [split; constructor|intros x y []]. }
  pose proof (@merge_force_collapse_ok (length p) p mg Hp) as [H1 _].
  pose proof (@merge_force_collapse_length (length p) p mg (le_n _)) as H2.
  destruct (merge_force_collapse lt (length p) p mg) as [|[r pw] [|? ?]];
    simpl in H2; try lia.
  - constructor.
  - inversion H1 as [|? ? [G _] _]; subst. simpl. now rewrite app_nil_r.
Qed.
End Stability.

Section SortedReverse.
Variable A : Type.
Variable lt : A -> A -> bool.
Variable ok : A -> Prop.
Variable before : A -> A -> Prop.

Hypothesis lt_asym : forall a b, lt a b = true -> lt b a = false.
Hypothesis lt_le_trans :
  forall a b c, ok c -> lt a b = true -> lt c b = false -> lt a c = true.

(** [sorted(l, reverse=True)]: no element is smaller than a later one,
    and of two elements that do not differ the one that came first in
    [l] still comes first. *)
Lemma sorted_reverse_stable l :
  Forall ok l -> ForallOrdPairs before l ->
  ForallOrdPairs
    (fun a b => lt a b = false /\ (lt b a = false -> before a b))
    (sorted_reverse lt l).
Proof.
  intros Hok Hl. unfold sorted_reverse.
  apply (FOP_rev (R := ascending_stable lt (fun x y => before y x))).
  apply (@list_sort_good A lt ok (fun x y => before y x) lt_asym lt_le_trans).
  - now apply Forall_rev.
  - now apply FOP_rev.
Qed.
End SortedReverse.

Lemma first_index_app_in k l l' :
  In k l -> first_index k (l ++ l') = first_index k l.
Proof.
  induction l as [|x l IH]; simpl; intros H; [contradiction|].
  destruct (Str.eqb x k) eqn:E; [reflexivity|].
  f_equal. apply IH. destruct H as [->|]; [|assumption].
  rewrite str_eqb_refl in E. discriminate.
Qed.

Lemma first_index_lt k l : In k l -> first_index k l < List.length l.
Proof.
  induction l as [|x l IH]; simpl; intros H; [contradiction|].
  destruct (Str.eqb x k) eqn:E; [lia|].
  apply -> Nat.succ_lt_mono. apply IH. destruct H as [->|]; [|assumption].
  rewrite str_eqb_refl in E. discriminate.
Qed.

Lemma first_index_new k l :
  ~ In k l -> first_index k (l ++ [k]) = List.length l.
Proof.
  induction l as [|x l IH]; simpl; intros H.
  - now rewrite str_eqb_refl.
  - assert (Str.eqb x k = false) as -> by (apply str_eqb_neq; tauto).
    f_equal. apply IH. tauto.
Qed.

(** [first_seen] lists the keys by the position of their first
    occurrence. *)
Lemma first_seen_order l :
  ForallOrdPairs (fun k1 k2 => first_index k1 l < first_index k2 l)
                 (first_seen l).
Proof.
  induction l as [|x l IH] using rev_ind; [constructor|].
  assert (Hold : ForallOrdPairs
                   (fun k1 k2 => first_index k1 (l ++ [x])
                                 < first_index k2 (l ++ [x]))
                   (first_seen l)).
  { assert (Hin : forall k, In k (first_seen l) -> In k l)
      by (intros k; apply first_seen_in).
    revert Hin. induction IH as [|a ks Ha Hks IHks]; intros Hin;
      constructor.
    - rewrite Forall_forall in *. intros k Hk.
      rewrite !first_index_app_in by (apply Hin; simpl; auto).
      auto.
    - apply IHks. intros k Hk. apply Hin. now right. }
  rewrite first_seen_snoc.
  destruct (existsb (Str.eqb x) (first_seen l)) eqn:E; [assumption|].
  assert (Hx : ~ In x l).
  { intros H. apply first_seen_in, existsb_eqb_in in H. congruence. }
  apply FOP_snoc; [assumption|].
  intros k Hk. apply (proj1 (first_seen_in l k)) in Hk.
  rewrite (@first_index_app_in k l [x] Hk), (@first_index_new x l Hx).
  now apply first_index_lt.
Qed.

(** The line totals the program builds are amounts: an item whose unit
    price is within the binary64 range has a line total that is not
    negative and not NaN. *)
Lemma mul_nonneg a b :
  nonneg a -> nonneg b ->
  Float64.is_finite a = true -> Float64.is_finite b = true ->
  nonneg (Float64.mul a b).
Proof.
  destruct a as [[|]|[|]| |[|] ma ea], b as [[|]|[|]| |[|] mb eb];
    simpl; try tauto; try discriminate.
  intros _ _ _ _. apply binary_round_aux_nonneg. lia.
Qed.

Lemma round2_nonneg x : nonneg x -> nonneg (Float64.round2 x).
Proof.
  destruct x as [[|]|[|]| |[|] m e]; simpl; try tauto.
  intros _.
  match goal with
  | |- nonneg match ?c with _ => _ end => destruct c
  end; simpl; auto using of_ratio_nonneg.
Qed.

Lemma of_int_nonneg z x :
  (0 <= z)%Z -> Float64.of_int z = Ok x ->
  nonneg x /\ Float64.is_finite x = true.
Proof.
  unfold Float64.of_int. intros Hz.
  assert (H : nonneg (binary_normalize Float64.prec Float64.emax z 0 false)).
  { destruct z as [|p|p]; [exact I| |lia].
    cbn [binary_normalize]. unfold binary_round.
    destruct (shl_align _ _ _) as [mz ez].
    apply binary_round_aux_nonneg. lia. }
  destruct (binary_normalize _ _ z 0 false) as [[|]|[|]| |[|] m e];
    simpl in *; try contradiction; try discriminate;
    intros [= <-]; simpl; auto.
Qed.

Lemma line_item_total_nonneg db item_code line it :
  4 <= List.length (numbers_of line) ->
  line_item db item_code (numbers_of line) = Ok it ->
  Float64.is_finite (Unit_Price it) = true ->
  nonneg (Line_Total it).
Proof.
  intros Hlen Hit Hfin.
  destruct (line_item_cases db item_code line Hlen)
    as (n1 & n3 & f1 & f3 & E1 & E3 & Hf1 & Hf3 & Hcase).
  destruct Hcase as [(_ & qty & fq & _ & Hq & Hfq & Hbody)|(_ & Hbody)];
    rewrite Hbody in Hit; [|discriminate].
  injection Hit as <-. simpl in *.
  destruct (of_int_nonneg Hq Hfq) as [Hn Hf].
  apply round2_nonneg, mul_nonneg; auto.
  eapply of_str_nonneg; eauto.
Qed.

(** Every GL description among the items has its group in the sorted
    summary, with the sum of its line totals, and there is no other
    group. *)
Lemma summary_groups items :
  Permutation (sorted_summary (summarize items))
              (map (fun k => (k, line_total_of k items))
                   (first_seen (map GL_Description items))).
Proof.
  unfold sorted_summary. rewrite sorted_reverse_perm. unfold summarize.
  now rewrite group_sums_closed.
Qed.

(** Sums of line totals that are amounts are not NaN. *)
Lemma summary_not_nan items :
  Forall (fun it => nonneg (Line_Total it)) items ->
  Forall (fun g => Float64.is_nan (snd g) = false)
         (sorted_summary (summarize items)).
Proof.
  intros Hits. apply Forall_forall. intros [k v] Hin.
  apply (Permutation_in _ (summary_groups items)) in Hin.
  apply in_map_iff in Hin as (k' & [= <- <-] & _).
  apply nonneg_not_nan. apply fold_add_nonneg; [exact I|].
  apply Forall_forall. intros x Hx.
  apply in_map_iff in Hx as (it & <- & Hit).
  apply filter_In in Hit as [Hit _].
  rewrite Forall_forall in Hits. now apply Hits.
Qed.

(** The order of a summary none of whose amounts is NaN. *)
Lemma summary_order items :
  Forall (fun g => Float64.is_nan (snd g) = false)
         (sorted_summary (summarize items)) ->
  forall i j a b,
    i < j ->
    nth_error (sorted_summary (summarize items)) i = Some a ->
    nth_error (sorted_summary (summarize items)) j = Some b ->
    Float64.leb (snd b) (snd a) = true
    /\ (Float64.eqb (snd a) (snd b) = true ->
        first_index (fst a) (map GL_Description items)
        < first_index (fst b) (map GL_Description items)).
Proof.
  intros Hnan i j a b Hij Ha Hb.
  set (keys := map GL_Description items).
  pose (before := fun x y : str * float =>
                    first_index (fst x) keys < first_index (fst y) keys).
  pose (ok := fun x : str * float => Float64.is_nan (snd x) = false).
  assert (Hok : Forall ok (summarize items)).
  { rewrite Forall_forall in *. intros g Hg. apply Hnan.
    apply (Permutation_in _ (Permutation_sym
                               (sorted_reverse_perm by_amount _))).
    exact Hg. }
  assert (Hbefore : ForallOrdPairs before (summarize items)).
  { unfold summarize. rewrite group_sums_closed.
    apply FOP_map. apply first_seen_order. }
  assert (Hsorted := @sorted_reverse_stable _ by_amount ok before
                       (fun x y => ltb_asym (snd x) (snd y))
                       (fun x y z Hz =>
                          @ltb_le_trans (snd x) (snd y) (snd z) Hz)
                       (summarize items) Hok Hbefore).
  destruct (FOP_nth Hsorted Hij Ha Hb) as [Hlt Htie].
  rewrite Forall_forall in Hnan.
  split.
  - apply not_ltb_leb; [apply Hnan|apply Hnan|assumption];
      eapply nth_error_In; eassumption.
  - intros Heq. apply Htie. unfold by_amount. now apply eqb_not_ltb.
Qed.

Lemma process_line_amounts db items line items' :
  Forall amount_ok items ->
  process_line db items line = Ok items' -> Forall amount_ok items'.
Proof.
  intros Hits. unfold process_line.
  destruct (item_code_of line) as [code|]; [|now intros [= <-]].
  destruct (List.length (numbers_of line) <? 4) eqn:E; [now intros [= <-]|].
  apply Nat.ltb_ge in E.
  destruct (line_item db code (numbers_of line)) as [it|[| |]] eqn:Hit;
    try (now intros [= <-]).
  intros [= <-]. apply Forall_app. split; [assumption|].
  constructor; [|constructor]. intros Hfin.
  eapply line_item_total_nonneg; eauto.
Qed.

Lemma process_lines_amounts db lines : forall items items',
  Forall amount_ok items ->
  process_lines db items lines = Ok items' -> Forall amount_ok items'.
Proof.
  induction lines as [|line lines IH]; intros its its' Hits H; simpl in H.
  - now injection H as <-.
  - apply bind_ok in H as (its1 & H1 & H).
    eapply IH; [|exact H]. eapply process_line_amounts; eauto.
Qed.

Lemma process_pages_amounts db n pages : forall st page_num st',
  Forall amount_ok (items st) ->
  process_pages db n st page_num pages = Ok st' ->
  Forall amount_ok (items st').
Proof.
  induction pages as [|text pages IH]; intros st k st' Hst H; simpl in H.
  - now injection H as <-.
  - apply bind_ok in H as (st1 & H1 & H).
    eapply IH; [|exact H].
    unfold process_page in H1. apply bind_ok in H1 as (its & Hits & H1).
    apply process_lines_amounts in Hits; [|assumption].
    destruct (k =? n - 1).
    + apply bind_ok in H1 as (t & _ & H1).
      apply bind_ok in H1 as (f & _ & H1).
      apply bind_ok in H1 as (g & _ & H1).
      now injection H1 as <-.
    + now injection H1 as <-.
Qed.

(** Every item of a report has an amount as its line total, unless its
    unit price is beyond the binary64 range. *)
Lemma report_amounts db pages r :
  process_tdl_invoice db pages = Ok r -> Forall amount_ok (rep_items r).
Proof.
  unfold process_tdl_invoice, extract. intros H.
  apply bind_ok in H as (st & Hst & H). injection H as <-. simpl.
  eapply process_pages_amounts; [|exact Hst]. constructor.
Qed.

(** C9. The summary of a report has one group for every GL Description
    among the items, with the sum of the line totals of its items, and
    no other group.  When no amount of the summary is NaN, as is the
    case when every unit price is within the binary64 range, a group
    never stands before a group with a larger amount, and of two groups
    with equal amounts the one whose GL Description occurs first among
    the items stands first. *)
Theorem C9_summary_order db pages r :
  process_tdl_invoice db pages = Ok r ->
  Permutation (Summary r)
              (map (fun k => (k, line_total_of k (rep_items r)))
                   (first_seen (map GL_Description (rep_items r))))
  /\ (Forall (fun it => Float64.is_finite (Unit_Price it) = true)
             (rep_items r) ->
      Forall (fun g => Float64.is_nan (snd g) = false) (Summary r))
  /\ (Forall (fun g => Float64.is_nan (snd g) = false) (Summary r) ->
      forall i j a b,
        i < j ->
        nth_error (Summary r) i = Some a ->
        nth_error (Summary r) j = Some b ->
        Float64.leb (snd b) (snd a) = true
        /\ (Float64.eqb (snd a) (snd b) = true ->
            first_index (fst a) (map GL_Description (rep_items r))
            < first_index (fst b) (map GL_Description (rep_items r)))).
Proof.
  intros Hr.
  pose proof (report_amounts db pages Hr) as Hok.
  assert (Hsum : Summary r = sorted_summary (summarize (rep_items r))).
  { unfold process_tdl_invoice in Hr.
    apply bind_ok in Hr as (st & _ & Hr). now injection Hr as <-. }
  rewrite Hsum. split; [apply summary_groups|]. split.
  - intros Hfin. apply summary_not_nan.
    rewrite Forall_forall in *. intros it Hit.
    apply (Hok it Hit), Hfin, Hit.
  - apply summary_order.
Qed.

Lemma C9_witness :
  exists r a b c,
    process_tdl_invoice ledger_db [tie_page] = Ok r
    /\ Summary r = [a; b; c]
    /\ map fst (Summary r) = [chars "Other"; chars "Food"; chars "Paper"]
    /\ Permutation (Summary r)
                   (map (fun k => (k, line_total_of k (rep_items r)))
                        (first_seen (map GL_Description (rep_items r))))
    /\ (Float64.leb (snd b) (snd a) = true
        /\ (Float64.eqb (snd a) (snd b) = true ->
            first_index (fst a) (map GL_Description (rep_items r))
            < first_index (fst b) (map GL_Description (rep_items r))))
    /\ (Float64.leb (snd c) (snd b) = true
        /\ (Float64.eqb (snd b) (snd c) = true ->
            first_index (fst b) (map GL_Description (rep_items r))
            < first_index (fst c) (map GL_Description (rep_items r)))).
Proof.
  assert (Hrun : exists r,
             process_tdl_invoice ledger_db [tie_page] = Ok r
             /\ Summary r = [(chars "Other", f_40_00);
                             (chars "Food", f_25_00);
                             (chars "Paper", f_25_00)]
             /\ forallb (fun it => Float64.is_finite (Unit_Price it))
                        (rep_items r) = true).
  { eexists. repeat split; vm_compute; reflexivity. }
  destruct Hrun as (r & Hr & Hs & Hfin).
  exists r, (chars "Other", f_40_00), (chars "Food", f_25_00),
    (chars "Paper", f_25_00).
  destruct (@C9_summary_order ledger_db [tie_page] r Hr)
    as (Hgroups & Hnan & Horder).
  assert (Hprices : Forall (fun it => Float64.is_finite (Unit_Price it)
                                      = true) (rep_items r)).
  { apply Forall_forall. exact (proj1 (forallb_forall _ _) Hfin). }
  specialize (Horder (Hnan Hprices)).
  split; [exact Hr|]. split; [exact Hs|].
  split; [rewrite Hs; reflexivity|]. split; [exact Hgroups|]. split.
  - apply (Horder 0 1); [lia|rewrite Hs; reflexivity..].
  - apply (Horder 1 2); [lia|rewrite Hs; reflexivity..].
Defined.

(** With an amount that is NaN the order is lost.  The line of Paper has
    the quantity 0 and a unit price of 309 digits: the price is read as
    infinity, the line total 0 * inf is NaN, and NaN is neither smaller
    nor larger than any amount.  [sorted] then finds the summary already
    in order and the program prints Food 1.0, Paper nan, Other 2.0: the
    smaller amount of Food stands before the larger amount of Other. *)
Lemma C9_counterexample :
  exists r,
    process_tdl_invoice ledger_db [nan_page] = Ok r
    /\ map Line_Total (rep_items r) = [f_1_00; S754_nan; f_2_00]
    /\ Summary r = [(chars "Food", f_1_00); (chars "Paper", S754_nan);
                    (chars "Other", f_2_00)]
    /\ Float64.ltb f_1_00 f_2_00 = true
    /\ Float64.leb f_2_00 f_1_00 = false.
Proof.
  eexists. split; [vm_compute; reflexivity|].
  repeat split; vm_compute; reflexivity.
Qed.

(** ** Sums with an exact addition *)

Section ExactTotals.
Variables I T : Type.
Variable key : I -> str.
Variable amount : I -> T.
Variable add : T -> T -> T.
Variable zero : T.

Hypothesis add_assoc : forall a b c, add a (add b c) = add (add a b) c.
Hypothesis add_comm : forall a b, add a b = add b a.
Hypothesis add_zero_l : forall a, add zero a = a.

Lemma fold_add_shift l : forall x a,
  fold_left add l (add x a) = add (fold_left add l x) a.
Proof.
  induction l as [|y l IH]; intros x a; simpl; [reflexivity|].
  rewrite <- IH. f_equal.
  rewrite <- !add_assoc. f_equal. apply add_comm.
Qed.

Lemma fold_add_perm l l' :
  Permutation l l' -> forall x, fold_left add l x = fold_left add l' x.
Proof.
  induction 1 as [|y l l' _ IH|y z l|l l' l'' _ IH1 _ IH2]; intros x; simpl.
  - reflexivity.
  - apply IH.
  - f_equal. rewrite <- !add_assoc. f_equal. apply add_comm.
  - now rewrite IH1.
Qed.

Lemma total_of_values (d : dict T) :
  total_of add zero d = fold_left add (map snd d) zero.
Proof.
  unfold total_of. generalize zero.
  induction d as [|g d IH]; intros z; simpl; [reflexivity|]. apply IH.
Qed.

Lemma fold_set (d : dict T) k a : forall z,
  fold_left add (map snd (set d k (add (get d k zero) a))) z
  = add (fold_left add (map snd d) z) a.
Proof.
  induction d as [|[k' v] d IH]; intros z; simpl.
  - now rewrite add_zero_l.
  - destruct (Str.eqb k' k); simpl.
    + rewrite add_assoc. apply fold_add_shift.
    + apply IH.
Qed.

Lemma group_sums_total items :
  fold_left add (map snd (group_sums key amount add zero items)) zero
  = fold_left add (map amount items) zero.
Proof.
  induction items as [|it items IH] using rev_ind; [reflexivity|].
  unfold group_sums in *. rewrite fold_left_app. cbn [fold_left].
  rewrite fold_set, IH, map_app, fold_left_app. reflexivity.
Qed.

(** With an addition that is exact (associative and commutative, with
    zero neutral) the total of the groups, taken in any order, is the sum
    of the amounts of all the items. *)
Lemma total_exact (lt : str * T -> str * T -> bool) items :
  total_of add zero
           (sorted_reverse lt (group_sums key amount add zero items))
  = fold_left add (map amount items) zero.
Proof.
  rewrite total_of_values.
  rewrite (fold_add_perm
             (Permutation_map snd (sorted_reverse_perm lt _))).
  apply group_sums_total.
Qed.
End ExactTotals.

Lemma process_empty db :
  process_tdl_invoice db [] = Ok (summary_report initial).
Proof. reflexivity. Qed.

(* ================================================================== *)
(** * Further properties of the program *)

(** ** Item lines *)

(** The lines [item_code_of] accepts, and the code it gives. *)
Lemma item_code_of_shape line item_code :
  item_code_of line = Some item_code ->
  exists d c rest,
    line = d ++ c :: rest /\ forallb isdigit d = true /\
    5 <= List.length d <= 8 /\ isspace c = true /\
    item_code = repeat "0"%char (8 - List.length d) ++ d.
Proof.
  unfold item_code_of.
  destruct (re_match item_code_re line) as [d|] eqn:E; [|discriminate].
  intros [= <-].
  apply item_code_match in E as (Hd & Hlen & c & v & Hline & Hc).
  assert (Hdig : forallb isdigit d = true).
  { rewrite Hd. clear. induction line as [|x l IH]; simpl; auto.
    destruct (isdigit x) eqn:E; simpl; auto. now rewrite E. }
  exists d, c, v. repeat (split; [assumption|]).
  destruct (List.length d <? 8) eqn:E8.
  - destruct d as [|x d]; [simpl in Hlen; lia|].
    simpl in Hdig. apply andb_true_iff in Hdig as [Hx _].
    now apply digit_not_sign.
  - apply Nat.ltb_ge in E8.
    now replace (8 - List.length d) with 0 by lia.
Qed.

(** X1. The loop takes a line for an item line exactly when the line
    starts with 5 to 8 digits and a whitespace character behind them, and
    the code is then these digits padded with zeros: leading blanks,
    digits that end the line and digits followed by a letter give no
    item. *)
Theorem X1_item_code_exactly line item_code :
  item_code_of line = Some item_code <->
  exists d c rest,
    line = d ++ c :: rest /\ forallb isdigit d = true /\
    5 <= List.length d <= 8 /\ isspace c = true /\
    item_code = repeat "0"%char (8 - List.length d) ++ d.
Proof.
  split.
  - apply item_code_of_shape.
  - intros (d & c & rest & -> & Hd & Hlen & Hc & ->).
    now apply item_code_of_digits.
Qed.

Lemma X1_witness :
  item_code_of (chars "1234567" ++ "009"%char :: chars "x")
  = Some (chars "01234567").
Proof.
  apply (proj2 (X1_item_code_exactly
                  (chars "1234567" ++ "009"%char :: chars "x")
                  (chars "01234567"))).
  exists (chars "1234567"), "009"%char, (chars "x").
  repeat split; simpl; lia.
Defined.

Lemma item_code_wf line item_code :
  item_code_of line = Some item_code ->
  List.length item_code = 8 /\ forallb isdigit item_code = true.
Proof.
  intros H. apply item_code_of_shape in H
    as (d & c & rest & -> & Hd & Hlen & Hc & ->).
  split.
  - rewrite length_app, repeat_length. lia.
  - rewrite forallb_app, Hd, andb_true_r.
    apply forallb_forall. intros x Hx. apply repeat_spec in Hx. now subst.
Qed.

(** X2. The second pattern of line 116 adds nothing: a part that
    [r'^\d+$'] accepts is accepted by [r'^\d+\.?\d*$'] too, so the test
    is the first pattern alone. *)
Theorem X2_integer_pattern_redundant part :
  is_numeric_token part = matched (re_match decimal_re part).
Proof.
  unfold is_numeric_token.
  destruct (matched (re_match decimal_re part)) eqn:E1; [reflexivity|].
  destruct (matched (re_match integer_re part)) eqn:E2; [|reflexivity].
  exfalso. apply matched_exec in E2.
  destruct (exec integer_re (0, 0) 0 part) eqn:E; [|congruence].
  apply integer_re_sound in E as (a & v & -> & Hne & Ha & Hv).
  assert (Hm : matched (re_match decimal_re (a ++ v)) = true).
  { apply matched_exec. unfold decimal_re. simpl.
    apply rep_complete; auto.
    - destruct a; simpl; [congruence|lia].
    - exact I.
    - cbn [exec opt].
      apply (@rep_complete _ (Lit ".") _ [] v); simpl; auto.
      apply (@rep_complete _ Digit _ [] v); simpl; auto.
      rewrite Hv. discriminate. }
  congruence.
Qed.

(** ** The numbers of an item line *)

Lemma split_aux_run c rest : isspace c = true -> forall d cur,
  forallb isdigit d = true -> cur <> [] \/ d <> [] ->
  split_aux cur (d ++ c :: rest) = (rev cur ++ d) :: split_aux [] rest.
Proof.
  intros Hc. induction d as [|x d IH]; intros cur Hd Hne; simpl.
  - rewrite Hc, app_nil_r. destruct cur; [|reflexivity].
    destruct Hne; congruence.
  - simpl in Hd. apply andb_true_iff in Hd as [Hx Hd].
    rewrite (isdigit_not_space _ Hx).
    rewrite IH; [|assumption|left; discriminate].
    simpl. now rewrite <- app_assoc.
Qed.

Lemma digits_numeric d :
  d <> [] -> forallb isdigit d = true -> is_numeric_token d = true.
Proof.
  intros Hne Hd. apply is_numeric_token_iff.
  - unfold is_token. apply forallb_forall. intros x Hx.
    rewrite forallb_forall in Hd.
    now rewrite (isdigit_not_space _ (Hd x Hx)).
  - left. now split.
Qed.

(** X3. The first number of an item line is always the digits of its
    item code, as written: the quantity ([numbers[1]]) is the first number
    behind the code and the unit price ([numbers[3]]) the third one. *)
Theorem X3_code_is_first_number line item_code :
  item_code_of line = Some item_code ->
  exists d c rest,
    line = d ++ c :: rest /\ isspace c = true /\
    item_code = repeat "0"%char (8 - List.length d) ++ d /\
    numbers_of line = d :: numbers_of rest /\
    nth_error (numbers_of line) 1 = nth_error (numbers_of rest) 0 /\
    nth_error (numbers_of line) 3 = nth_error (numbers_of rest) 2.
Proof.
  intros H.
  apply item_code_of_shape in H as (d & c & rest & -> & Hd & Hlen & Hc & ->).
  exists d, c, rest.
  assert (Hne : d <> []) by (destruct d; simpl in Hlen; [lia|discriminate]).
  assert (E : numbers_of (d ++ c :: rest) = d :: numbers_of rest).
  { unfold numbers_of, split.
    rewrite (@split_aux_run c rest Hc d [] Hd (or_intror Hne)).
    simpl. now rewrite digits_numeric. }
  rewrite E. repeat split; auto.
Qed.

Lemma X3_witness :
  exists d c rest,
    scenario_A = d ++ c :: rest /\ isspace c = true /\
    chars "00012345" = repeat "0"%char (8 - List.length d) ++ d /\
    numbers_of scenario_A = d :: numbers_of rest /\
    nth_error (numbers_of scenario_A) 1 = nth_error (numbers_of rest) 0 /\
    nth_error (numbers_of scenario_A) 3 = nth_error (numbers_of rest) 2.
Proof.
  apply (@X3_code_is_first_number scenario_A (chars "00012345")).
  vm_compute. reflexivity.
Defined.

(** ** The loop over the lines *)

Lemma process_line_skip db items line :
  is_item_line line = false -> process_line db items line = Ok items.
Proof.
  unfold is_item_line, process_line.
  destruct (item_code_of line); [|reflexivity].
  intros H. apply Nat.leb_gt in H. apply Nat.ltb_lt in H. now rewrite H.
Qed.

(** An item line either adds its item or, when its 2nd number is beyond
    the binary64 range, ends the loop with [OverflowError]. *)
Lemma process_line_take db items line :
  is_item_line line = true ->
  if quantity_overflows line
  then process_line db items line = Raise OverflowError
  else exists it, item_of db line it /\
                  process_line db items line = Ok (items ++ [it]).
Proof.
  unfold is_item_line, process_line, item_of.
  destruct (item_code_of line) as [code|] eqn:Ec; [|discriminate].
  intros H. apply Nat.leb_le in H.
  assert (Hlt : (List.length (numbers_of line) <? 4) = false)
    by (apply Nat.ltb_ge; lia).
  rewrite Hlt.
  destruct (@line_item_cases db code line H)
    as (n1 & n3 & f1 & up & E1 & E3 & Hf1 & Hf3 & Hc).
  unfold quantity_overflows. rewrite E1, Hf1.
  pose proof (of_str_nonneg _ Hf1) as Hn.
  destruct Hc as [(Hfin & qty & fq & _ & _ & _ & Hit)|(Hfin & Hit)];
    rewrite Hit.
  - destruct f1 as [[|]|[|]| |[|] m e]; try discriminate Hfin; eauto.
  - destruct f1 as [[|]|[|]| |[|] m e]; try discriminate Hfin;
      try contradiction; reflexivity.
Qed.

Lemma process_lines_app db l1 : forall items l2,
  process_lines db items (l1 ++ l2)
  = (its <- process_lines db items l1 ;; process_lines db its l2).
Proof.
  induction l1 as [|line l1 IH]; intros items l2; simpl; [reflexivity|].
  destruct (process_line db items line); simpl; auto.
Qed.

(** The loop over the lines: it stops at the first item line whose
    quantity overflows, and otherwise appends one item per item line, in
    order. *)
Lemma process_lines_spec db : forall lines items,
  if existsb (fun l => is_item_line l && quantity_overflows l) lines
  then process_lines db items lines = Raise OverflowError
  else exists new,
      Forall2 (item_of db) (filter is_item_line lines) new /\
      process_lines db items lines = Ok (items ++ new).
Proof.
  induction lines as [|line lines IH]; intros items; simpl.
  - exists []. split; [constructor|]. now rewrite app_nil_r.
  - destruct (is_item_line line) eqn:El; simpl.
    + pose proof (@process_line_take db items line El) as H.
      destruct (quantity_overflows line); simpl.
      * now rewrite H.
      * destruct H as (it & Hit & ->). simpl.
        specialize (IH (items ++ [it])).
        destruct (existsb _ lines); [assumption|].
        destruct IH as (new & Hnew & ->).
        exists (it :: new). split; [now constructor|].
        now rewrite <- app_assoc.
    + rewrite (@process_line_skip db items line El). simpl. apply IH.
Qed.

Lemma Forall2_in_r (A B : Type) (P : A -> B -> Prop) l l' b :
  Forall2 P l l' -> In b l' -> exists a, In a l /\ P a b.
Proof.
  induction 1 as [|x y l l' Hxy _ IH]; simpl; [contradiction|].
  intros [<-|Hb]; [eauto|]. destruct (IH Hb) as (a & Ha & Hp). eauto.
Qed.

(** ** The loop over the pages *)

Lemma tariff_re_shape :
  exists pre, Forall (fun n => exists a lo hi, n = Rep a lo hi) pre /\
              tariff_re = pre ++ [Open] ++ amount ++ [Close].
Proof.
  exists (lits "Tariff Allocation" ++ [plus Space]).
  split.
  - apply Forall_app; split; [apply lits_reps|].
    repeat constructor. unfold plus. eauto.
  - unfold tariff_re. now rewrite <- !app_assoc.
Qed.

Lemma gst_re_shape :
  exists pre, Forall (fun n => exists a lo hi, n = Rep a lo hi) pre /\
              gst_re = pre ++ [Open] ++ amount ++ [Close].
Proof.
  exists (lits "GST/HST/VAT" ++ [plus Space]).
  split.
  - apply Forall_app; split; [apply lits_reps|].
    repeat constructor. unfold plus. eauto.
  - unfold gst_re. now rewrite <- !app_assoc.
Qed.

(** Lines 153-155 and 168-170 raise nothing, and give an amount. *)
Lemma extract_amount_total re text current :
  (exists pre, Forall (fun n => exists a lo hi, n = Rep a lo hi) pre /\
               re = pre ++ [Open] ++ amount ++ [Close]) ->
  exists f, extract_amount re text current = Ok f /\
            (nonneg current -> nonneg f).
Proof.
  intros (pre & Hpre & ->). unfold extract_amount.
  destruct (re_search _ text) as [g|] eqn:H; [|eauto].
  destruct (@amount_search_parses pre text g Hpre H) as (f & Hf).
  exists f. split; [assumption|]. intros _. exact (of_str_nonneg _ Hf).
Qed.

Lemma extract_fuel_surcharge_amount text current :
  exists f, extract_fuel_surcharge text current = Ok f /\
            (nonneg current -> nonneg f).
Proof.
  destruct (extract_fuel_surcharge_total text current) as (f & Hf).
  exists f. split; [assumption|]. revert Hf. unfold extract_fuel_surcharge.
  destruct (re_search fuel_re text) as [g|].
  { intros Hf _. exact (of_str_nonneg _ Hf). }
  destruct (re_search fuel_alt_re text) as [g|].
  { intros Hf _. exact (of_str_nonneg _ Hf). }
  now intros [= <-].
Qed.

(** One turn of the loop over the pages fails only in the loop over its
    lines; otherwise it appends the items of its lines, sets the invoice
    number as lines 93-97 do, and sets the charges on the last page
    only. *)
Lemma process_page_spec db n st k text :
  match process_lines db (items st) (split_on "010" text) with
  | Ok its =>
      exists st',
        process_page db n st k text = Ok st' /\ items st' = its /\
        invoice_number st'
        = extract_invoice_number k text (invoice_number st) /\
        if k =? n - 1
        then extract_amount tariff_re text (tariff_amount st)
             = Ok (tariff_amount st') /\
             extract_fuel_surcharge text (fuel_surcharge st)
             = Ok (fuel_surcharge st') /\
             extract_amount gst_re text (gst_hst_vat st)
             = Ok (gst_hst_vat st')
        else tariff_amount st' = tariff_amount st /\
             fuel_surcharge st' = fuel_surcharge st /\
             gst_hst_vat st' = gst_hst_vat st
  | Raise e => process_page db n st k text = Raise e
  end.
Proof.
  unfold process_page.
  destruct (process_lines db (items st) (split_on "010" text)) as [its|e];
    [|reflexivity].
  cbn [bind]. destruct (k =? n - 1).
  - destruct (@extract_amount_total tariff_re text (tariff_amount st)
                                    tariff_re_shape) as (t & Ht & _).
    destruct (extract_fuel_surcharge_total text (fuel_surcharge st))
      as (f & Hf).
    destruct (@extract_amount_total gst_re text (gst_hst_vat st)
                                    gst_re_shape) as (g & Hg & _).
    rewrite Ht, Hf, Hg. cbn [bind]. eexists. split; [reflexivity|].
    simpl. auto.
  - eexists. split; [reflexivity|]. simpl. auto.
Qed.

Lemma process_page_ok db n st k text st' :
  process_page db n st k text = Ok st' ->
  process_lines db (items st) (split_on "010" text) = Ok (items st') /\
  invoice_number st' = extract_invoice_number k text (invoice_number st) /\
  if k =? n - 1
  then extract_amount tariff_re text (tariff_amount st)
       = Ok (tariff_amount st') /\
       extract_fuel_surcharge text (fuel_surcharge st)
       = Ok (fuel_surcharge st') /\
       extract_amount gst_re text (gst_hst_vat st) = Ok (gst_hst_vat st')
  else tariff_amount st' = tariff_amount st /\
       fuel_surcharge st' = fuel_surcharge st /\
       gst_hst_vat st' = gst_hst_vat st.
Proof.
  intros H. pose proof (process_page_spec db n st k text) as S.
  destruct (process_lines db (items st) (split_on "010" text)) as [its|e].
  - destruct S as (st1 & E & Hi & Hrest). rewrite E in H.
    injection H as <-. now rewrite Hi.
  - rewrite S in H. discriminate H.
Qed.

(** The items do not depend on the pages the lines are on: the loop over
    the pages fails or succeeds as the loop over all the lines does, with
    the same items. *)
Lemma process_pages_lines db n : forall pages st k,
  match process_lines db (items st) (all_lines pages) with
  | Ok its => exists st', process_pages db n st k pages = Ok st' /\
                          items st' = its
  | Raise e => process_pages db n st k pages = Raise e
  end.
Proof.
  unfold all_lines.
  induction pages as [|text pages IH]; intros st k; simpl.
  - eauto.
  - rewrite process_lines_app.
    pose proof (process_page_spec db n st k text) as S.
    destruct (process_lines db (items st) (split_on "010" text)) as [its|e];
      cbn [bind].
    + destruct S as (st1 & -> & <- & _). cbn [bind]. apply IH.
    + now rewrite S.
Qed.

(** The charges after all the pages are what lines 153-170 make of the
    last page. *)
Lemma process_pages_charges db n init : forall st k last st',
  k + List.length init + 1 = n ->
  process_pages db n st k (init ++ [last]) = Ok st' ->
  extract_amount tariff_re last (tariff_amount st) = Ok (tariff_amount st')
  /\ extract_fuel_surcharge last (fuel_surcharge st)
     = Ok (fuel_surcharge st')
  /\ extract_amount gst_re last (gst_hst_vat st) = Ok (gst_hst_vat st').
Proof.
  induction init as [|text init IH]; intros st k last st' Hn H;
    simpl in H; apply bind_ok in H as (st1 & H1 & H);
    apply process_page_ok in H1 as (_ & _ & H1).
  - injection H as <-.
    assert (Ek : (k =? n - 1) = true) by (apply Nat.eqb_eq; simpl in Hn; lia).
    now rewrite Ek in H1.
  - assert (Ek : (k =? n - 1) = false)
      by (apply Nat.eqb_neq; simpl in Hn; lia).
    rewrite Ek in H1. destruct H1 as (<- & <- & <-).
    apply (IH st1 (S k)); [simpl in Hn; lia|exact H].
Qed.

(** Only the page 0 can set the invoice number. *)
Lemma process_pages_invoice db n : forall pages st k st',
  k <> 0 -> process_pages db n st k pages = Ok st' ->
  invoice_number st' = invoice_number st.
Proof.
  induction pages as [|text pages IH]; intros st k st' Hk H; simpl in H.
  - now injection H as <-.
  - apply bind_ok in H as (st1 & H1 & H).
    apply process_page_ok in H1 as (_ & Hi & _).
    apply IH in H; [|lia]. rewrite H, Hi. unfold extract_invoice_number.
    apply Nat.eqb_neq in Hk. now rewrite Hk.
Qed.

(** ** The items of a report *)

Lemma report_state db pages r :
  process_tdl_invoice db pages = Ok r ->
  exists st, extract (Db.astype_str db) pages = Ok st /\
             r = summary_report st.
Proof.
  unfold process_tdl_invoice. intros H.
  apply bind_ok in H as (st & Hst & H). injection H as <-. eauto.
Qed.

Lemma report_lines db pages r :
  process_tdl_invoice db pages = Ok r ->
  process_lines (Db.astype_str db) [] (all_lines pages) = Ok (rep_items r).
Proof.
  intros H. apply report_state in H as (st & Hst & ->).
  pose proof (process_pages_lines (Db.astype_str db) (List.length pages)
                                  pages initial 0) as S.
  simpl (items initial) in S. unfold extract in Hst.
  destruct (process_lines (Db.astype_str db) [] (all_lines pages))
    as [its|e].
  - destruct S as (st' & E & <-). rewrite E in Hst. now injection Hst as <-.
  - rewrite S in Hst. discriminate Hst.
Qed.

Lemma report_items db pages r :
  process_tdl_invoice db pages = Ok r ->
  Forall2 (item_of (Db.astype_str db))
          (filter is_item_line (all_lines pages)) (rep_items r).
Proof.
  intros H. apply report_lines in H.
  pose proof (process_lines_spec (Db.astype_str db) (all_lines pages) [])
    as S.
  destruct (existsb _ (all_lines pages)).
  - rewrite S in H. discriminate H.
  - destruct S as (new & Hnew & E). rewrite E in H. simpl in H.
    now injection H as <-.
Qed.

Lemma item_of_wf db line it :
  is_item_line line = true -> item_of db line it -> item_wf it.
Proof.
  unfold is_item_line. intros Hl (code & Hc & Hit). rewrite Hc in Hl.
  apply Nat.leb_le in Hl.
  destruct (@line_item_cases db code line Hl)
    as (n1 & n3 & f1 & up & E1 & E3 & Hf1 & Hf3 & Hcase).
  destruct Hcase as [(_ & qty & fq & _ & Hq & Hfq & E)|(_ & E)];
    rewrite E in Hit; [|discriminate Hit].
  injection Hit as <-. destruct (item_code_wf _ Hc) as [Hlen Hd].
  unfold item_wf. simpl.
  split; [assumption|]. split; [assumption|]. split; [assumption|].
  split; [exact (of_str_nonneg _ Hf3)|]. eauto.
Qed.

Lemma report_items_wf db pages r :
  process_tdl_invoice db pages = Ok r -> Forall item_wf (rep_items r).
Proof.
  intros H. apply report_items in H. apply Forall_forall. intros it Hit.
  destruct (@Forall2_in_r _ _ _ _ _ it H Hit) as (line & Hl & Hof).
  apply filter_In in Hl as [_ Hl]. exact (@item_of_wf _ line it Hl Hof).
Qed.

(** X4. Every item of a report has an item code of exactly 8 digits, a
    quantity that is not negative, a unit price that is not negative and
    not NaN, and as line total the product of the quantity and the unit
    price, computed in binary64 and rounded to 2 decimals. *)
Theorem X4_items_well_formed db pages r :
  process_tdl_invoice db pages = Ok r -> Forall item_wf (rep_items r).
Proof.
  intros H. apply Forall_forall. intros it Hit.
  destruct (@Forall2_in_r _ _ _ _ _ it (@report_items _ _ _ H) Hit)
    as (line & Hl & Hof).
  apply filter_In in Hl as [_ Hl]. unfold item_wf.
  destruct (@item_of_wf _ line it Hl Hof) as (Hlen & Hd & Hq & Hp & Ht).
  auto.
Qed.

Lemma X4_witness :
  exists r, process_tdl_invoice sample_db two_pages = Ok r /\
            Forall item_wf (rep_items r).
Proof.
  eexists. split; [vm_compute; reflexivity|].
  apply (@X4_items_well_formed sample_db two_pages). vm_compute. reflexivity.
Defined.

(** ** The join with the table *)

Lemma lookup_cases db code :
  (lookup (Db.astype_str db) code = (Db.CStr NOT_FOUND, NOT_FOUND) /\
   forall row, In row db -> Db.cell_str (Db.Item_Code row) <> code)
  \/ exists pre row post,
      db = pre ++ row :: post /\
      (forall r', In r' pre -> Db.cell_str (Db.Item_Code r') <> code) /\
      Db.cell_str (Db.Item_Code row) = code /\
      lookup (Db.astype_str db) code
      = (Db.GL_Code row, Db.GL_Description row).
Proof.
  induction db as [|r db IH].
  - left. split; [reflexivity|]. intros row [].
  - rewrite lookup_cons.
    destruct (Str.eqb (Db.cell_str (Db.Item_Code r)) code) eqn:E.
    + right. exists [], r, db. apply str_eqb_eq in E.
      repeat split; auto; intros r' [].
    + apply str_eqb_neq in E.
      destruct IH as [[Hl Hno]|(pre & row & post & -> & Hpre & Hrow & Hl)].
      * left. split; [assumption|]. intros row [<-|Hin]; auto.
      * right. exists (r :: pre), row, post.
        repeat split; auto. intros r' [<-|Hin]; auto.
Qed.

Lemma line_item_fields db item_code numbers it :
  line_item db item_code numbers = Ok it ->
  Item_Code it = item_code /\
  (GL_Code it, GL_Description it) = lookup db item_code.
Proof.
  unfold line_item. intros H.
  apply bind_ok in H as (n1 & _ & H). apply bind_ok in H as (f1 & _ & H).
  apply bind_ok in H as (qty & _ & H). apply bind_ok in H as (n3 & _ & H).
  apply bind_ok in H as (up & _ & H). apply bind_ok in H as (fq & _ & H).
  destruct (lookup db item_code) as [c d]. now injection H as <-.
Qed.

(** X5. The GL code and GL description of every item of a report are
    either both NOT_FOUND, and then no row of the table has the item's
    code as the text of its item code, or those of the first row of the
    table that has it: a row is used only when the text of its item code
    is an 8-digit code read from the invoice. *)
Theorem X5_join_is_sound db pages r it :
  process_tdl_invoice db pages = Ok r -> In it (rep_items r) ->
  (GL_Code it = Db.CStr NOT_FOUND /\ GL_Description it = NOT_FOUND /\
   forall row, In row db ->
               Db.cell_str (Db.Item_Code row) <> Item_Code it)
  \/ exists pre row post,
      db = pre ++ row :: post /\
      (forall r', In r' pre ->
                  Db.cell_str (Db.Item_Code r') <> Item_Code it) /\
      Db.cell_str (Db.Item_Code row) = Item_Code it /\
      List.length (Db.cell_str (Db.Item_Code row)) = 8 /\
      forallb isdigit (Db.cell_str (Db.Item_Code row)) = true /\
      GL_Code it = Db.GL_Code row /\
      GL_Description it = Db.GL_Description row.
Proof.
  intros H Hit. apply report_items in H.
  destruct (@Forall2_in_r _ _ _ _ _ it H Hit) as (line & Hl & Hof).
  apply filter_In in Hl as [_ Hl].
  destruct (@item_of_wf _ line it Hl Hof) as (Hlen & Hd & _).
  destruct Hof as (code & _ & Hli).
  apply line_item_fields in Hli as [<- Hg].
  destruct (lookup_cases db (Item_Code it))
    as [[E Hno]|(pre & row & post & -> & Hpre & Hrow & E)];
    rewrite E in Hg; injection Hg as -> ->.
  - left. auto.
  - right. exists pre, row, post. rewrite Hrow. repeat split; auto.
Qed.

Lemma X5_witness :
  exists r it,
    process_tdl_invoice sample_db two_pages = Ok r /\ In it (rep_items r) /\
    ((GL_Code it = Db.CStr NOT_FOUND /\ GL_Description it = NOT_FOUND /\
      forall row, In row sample_db ->
                  Db.cell_str (Db.Item_Code row) <> Item_Code it)
     \/ exists pre row post,
         sample_db = pre ++ row :: post /\
         (forall r', In r' pre ->
                     Db.cell_str (Db.Item_Code r') <> Item_Code it) /\
         Db.cell_str (Db.Item_Code row) = Item_Code it /\
         List.length (Db.cell_str (Db.Item_Code row)) = 8 /\
         forallb isdigit (Db.cell_str (Db.Item_Code row)) = true /\
         GL_Code it = Db.GL_Code row /\
         GL_Description it = Db.GL_Description row).
Proof.
  eexists. eexists. split; [vm_compute; reflexivity|].
  split; [left; reflexivity|].
  eapply (@X5_join_is_sound sample_db two_pages).
  - vm_compute. reflexivity.
  - left. reflexivity.
Defined.

(** ** Pages and lines *)

Lemma report_of_items db pages r :
  process_tdl_invoice db pages = Ok r ->
  Summary r = sorted_summary (summarize (rep_items r)) /\
  Total_Amount r = total_of Float64.add Float64.zero (Summary r).
Proof.
  intros H. apply report_state in H as (st & _ & ->). split; reflexivity.
Qed.

(** A run fails or gives a report as the loop over all the lines does. *)
Lemma run_cases db pages :
  if existsb (fun l => is_item_line l && quantity_overflows l)
             (all_lines pages)
  then process_tdl_invoice db pages = Raise OverflowError
  else exists r, process_tdl_invoice db pages = Ok r.
Proof.
  pose proof (process_lines_spec (Db.astype_str db) (all_lines pages) [])
    as S.
  pose proof (process_pages_lines (Db.astype_str db) (List.length pages)
                                  pages initial 0) as P.
  simpl (items initial) in P. unfold process_tdl_invoice, extract.
  destruct (existsb _ (all_lines pages)).
  - rewrite S in P. now rewrite P.
  - destruct S as (new & _ & S). rewrite S in P.
    destruct P as (st & -> & _). simpl. eauto.
Qed.

(** X6. The items, the summary and the total amount of a report depend
    only on the lines of the invoice, not on the pages they are on: an
    invoice with the same lines on other pages gives a report too, with
    the same items, the same summary and the same total amount. *)
Theorem X6_pages_do_not_matter db pages pages' r :
  process_tdl_invoice db pages = Ok r ->
  all_lines pages' = all_lines pages ->
  exists r', process_tdl_invoice db pages' = Ok r' /\
             rep_items r' = rep_items r /\ Summary r' = Summary r /\
             Total_Amount r' = Total_Amount r.
Proof.
  intros H E. pose proof (run_cases db pages') as C. rewrite E in C.
  pose proof (run_cases db pages) as C0.
  destruct (existsb _ (all_lines pages)).
  { rewrite C0 in H. discriminate H. }
  destruct C as (r' & H'). exists r'. split; [assumption|].
  assert (Ei : rep_items r' = rep_items r).
  { pose proof (@report_lines _ _ _ H) as L.
    pose proof (@report_lines _ _ _ H') as L'.
    rewrite E, L in L'. now injection L' as ->. }
  destruct (@report_of_items _ _ _ H) as [Hs Ht].
  destruct (@report_of_items _ _ _ H') as [Hs' Ht'].
  split; [assumption|].
  assert (Es : Summary r' = Summary r) by now rewrite Hs, Hs', Ei.
  split; [assumption|]. now rewrite Ht, Ht', Es.
Qed.

Lemma X6_witness :
  exists r r',
    process_tdl_invoice sample_db two_pages = Ok r /\
    process_tdl_invoice sample_db one_page = Ok r' /\
    rep_items r' = rep_items r /\ Summary r' = Summary r /\
    Total_Amount r' = Total_Amount r.
Proof.
  eexists.
  destruct (@X6_pages_do_not_matter sample_db two_pages one_page _
              eq_refl eq_refl) as (r' & H & E).
  exists r'. split; [reflexivity|]. split; assumption.
Defined.

Lemma items_codes db lines its :
  Forall2 (item_of db) lines its ->
  map Item_Code its
  = flat_map (fun line => match item_code_of line with
                          | Some item_code => [item_code]
                          | None => []
                          end) lines.
Proof.
  induction 1 as [|line it lines its (code & Hc & Hli) _ IH]; simpl;
    [reflexivity|].
  apply line_item_fields in Hli as [-> _]. now rewrite Hc, IH.
Qed.

(** X7. A report has exactly one item for every line, of any page, that
    starts like an item line and has at least 4 numbers, in the order of
    the lines, and no other item: the item codes of the report are the
    padded codes of these lines. *)
Theorem X7_one_item_per_item_line db pages r :
  process_tdl_invoice db pages = Ok r ->
  map Item_Code (rep_items r) = codes_of_lines (all_lines pages) /\
  List.length (rep_items r)
  = List.length (filter is_item_line (all_lines pages)).
Proof.
  intros H. apply report_items in H. split.
  - exact (items_codes H).
  - symmetry. exact (Forall2_length H).
Qed.

Lemma X7_witness :
  exists r, process_tdl_invoice sample_db two_pages = Ok r /\
            map Item_Code (rep_items r) = codes_of_lines (all_lines two_pages)
            /\ List.length (rep_items r)
               = List.length (filter is_item_line (all_lines two_pages)).
Proof.
  eexists. split; [vm_compute; reflexivity|].
  apply (@X7_one_item_per_item_line sample_db two_pages).
  vm_compute. reflexivity.
Defined.

(** X8. The extraction can fail in one way only: with [OverflowError],
    which the handler of line 147 does not catch, and exactly when some
    line that starts like an item line and has at least 4 numbers has a
    2nd number beyond the binary64 range.  For every other invoice a report
    is produced. *)
Theorem X8_only_overflow_fails db pages :
  (forall e, process_tdl_invoice db pages = Raise e -> e = OverflowError)
  /\ (process_tdl_invoice db pages = Raise OverflowError <->
      exists line, In line (all_lines pages) /\ is_item_line line = true /\
                   quantity_overflows line = true)
  /\ ((exists r, process_tdl_invoice db pages = Ok r) <->
      forall line, In line (all_lines pages) -> is_item_line line = true ->
                   quantity_overflows line = false).
Proof.
  pose proof (run_cases db pages) as C.
  destruct (existsb _ (all_lines pages)) eqn:E.
  - apply existsb_exists in E as (line & Hin & Hl).
    apply andb_true_iff in Hl as [Hl Ho].
    split; [|split].
    + intros e H. rewrite C in H. now injection H as <-.
    + split; eauto.
    + split.
      * intros (r & H). rewrite C in H. discriminate H.
      * intros H. specialize (H line Hin Hl). congruence.
  - destruct C as (r & C).
    assert (Hno : forall line, In line (all_lines pages) ->
                               is_item_line line = true ->
                               quantity_overflows line = false).
    { intros line Hin Hl.
      destruct (quantity_overflows line) eqn:Ho; [|reflexivity].
      assert (existsb (fun l => is_item_line l && quantity_overflows l)
                      (all_lines pages) = true); [|congruence].
      apply existsb_exists. exists line. now rewrite Hl, Ho. }
    split; [|split].
    + intros e H. rewrite C in H. discriminate H.
    + split.
      * intros H. rewrite C in H. discriminate H.
      * intros (line & Hin & Hl & Ho). specialize (Hno line Hin Hl).
        congruence.
    + split; eauto.
Qed.

(** ** The invoice number *)

(** A pattern made of quantified characters in front of [(\d+)]. *)
Lemma exec_prefix_digits pre : forall g p s r,
  Forall (fun n => exists a lo hi, n = Rep a lo hi) pre ->
  exec (pre ++ [Open; plus Digit; Close]) g p s = Some r ->
  exists u m rest,
    s = u ++ m ++ rest /\ m <> [] /\ forallb isdigit m = true /\
    r = (p + List.length u, p + List.length u + List.length m).
Proof.
  induction pre as [|n pre IH]; intros g p s r Hpre H.
  - cbn [app exec plus] in H.
    apply rep_sound in H as (m & rest & -> & Hm & Hlo & _ & H).
    cbn [exec fst] in H. injection H as <-.
    exists [], m, rest. simpl. rewrite Nat.add_0_r.
    repeat split; auto. destruct m; simpl in Hlo; [lia|discriminate].
  - inversion Hpre as [|? ? (a & lo & hi & ->) Hpre']; subst.
    cbn [app exec] in H.
    apply rep_sound in H as (u0 & v & -> & _ & _ & _ & H).
    apply IH in H as (u & m & rest & -> & Hne & Hm & ->); [|assumption].
    exists (u0 ++ u), m, rest. rewrite <- app_assoc, length_app.
    repeat split; auto. f_equal; lia.
Qed.

(** The group of the invoice number pattern is a run of digits. *)
Lemma invoice_group text g :
  re_search invoice_re text = Some g ->
  g <> [] /\ forallb isdigit g = true.
Proof.
  intros H. unfold re_search in H.
  destruct (search_from _ 0 text) as [[b e]|] eqn:E; [|discriminate].
  injection H as <-.
  apply search_from_sound in E as (sk & s' & -> & E).
  assert (Hshape : invoice_re
                   = (lits "Invoice Number"
                      ++ [star Space; one (Lit ":"); star Space])
                     ++ [Open; plus Digit; Close]).
  { unfold invoice_re. now rewrite <- app_assoc. }
  rewrite Hshape in E.
  apply exec_prefix_digits in E as (u & m & rest & -> & Hne & Hm & Hr).
  - injection Hr as -> ->. simpl.
    rewrite (app_assoc sk u (m ++ rest)), <- length_app.
    rewrite slice_middle. auto.
  - apply Forall_app; split; [apply lits_reps|].
    repeat constructor; unfold star, one; eauto.
Qed.

(** X9. The invoice number of a report is what the pattern of line 94
    finds on the first page, a non-empty run of digits, or nothing when
    the first page has no match: a number on a later page is never
    taken. *)
Theorem X9_invoice_number_first_page db first rest r :
  process_tdl_invoice db (first :: rest) = Ok r ->
  rep_invoice_number r = re_search invoice_re first /\
  forall g, rep_invoice_number r = Some g ->
            g <> [] /\ forallb isdigit g = true.
Proof.
  intros H. apply report_state in H as (st & Hst & ->).
  unfold extract in Hst. simpl in Hst.
  apply bind_ok in Hst as (st1 & H1 & Hst).
  apply process_page_ok in H1 as (_ & Hi & _).
  apply process_pages_invoice in Hst; [|discriminate].
  assert (E : invoice_number st = re_search invoice_re first).
  { rewrite Hst, Hi. unfold extract_invoice_number. simpl.
    now destruct (re_search invoice_re first). }
  simpl. split; [assumption|].
  intros g Hg. rewrite E in Hg. now apply invoice_group in Hg.
Qed.

Lemma X9_witness :
  exists r, process_tdl_invoice sample_db two_pages = Ok r /\
            rep_invoice_number r = Some (chars "77") /\
            forall g, rep_invoice_number r = Some g ->
                      g <> [] /\ forallb isdigit g = true.
Proof.
  eexists. split; [vm_compute; reflexivity|].
  apply (@X9_invoice_number_first_page sample_db first_page [last_page]).
  vm_compute. reflexivity.
Defined.

(** ** The charges *)

Lemma report_charges db init last r :
  process_tdl_invoice db (init ++ [last]) = Ok r ->
  extract_amount tariff_re last Float64.zero = Ok (rep_tariff_amount r)
  /\ extract_fuel_surcharge last Float64.zero = Ok (rep_fuel_surcharge r)
  /\ extract_amount gst_re last Float64.zero = Ok (rep_gst_hst_vat r).
Proof.
  intros H. apply report_state in H as (st & Hst & ->).
  unfold extract in Hst.
  apply (@process_pages_charges _ _ init initial 0 last st) in Hst.
  - exact Hst.
  - rewrite length_app. simpl. lia.
Qed.

Lemma report_charges_nonneg db pages r :
  process_tdl_invoice db pages = Ok r ->
  nonneg (rep_tariff_amount r) /\ nonneg (rep_fuel_surcharge r)
  /\ nonneg (rep_gst_hst_vat r).
Proof.
  intros H. induction pages as [|last init _] using rev_ind.
  - rewrite process_empty in H. injection H as <-. simpl. auto.
  - pose proof (report_charges _ _ _ H) as (Ht & Hf & Hg).
    destruct (@extract_amount_total tariff_re last Float64.zero
                                    tariff_re_shape) as (t & Et & Nt).
    destruct (extract_fuel_surcharge_amount last Float64.zero)
      as (f & Ef & Nf).
    destruct (@extract_amount_total gst_re last Float64.zero gst_re_shape)
      as (g & Eg & Ng).
    rewrite Et in Ht. rewrite Ef in Hf. rewrite Eg in Hg.
    injection Ht as <-. injection Hf as <-. injection Hg as <-.
    split; [exact (Nt I)|]. split; [exact (Nf I)|exact (Ng I)].
Qed.

(** X10. The three charges of a report are read from the last page
    alone, starting from 0.0: a label on an earlier page has no effect,
    reading them never fails, and none of them is negative or NaN. *)
Theorem X10_charges_from_last_page db init last r :
  process_tdl_invoice db (init ++ [last]) = Ok r ->
  (extract_amount tariff_re last Float64.zero = Ok (rep_tariff_amount r)
   /\ extract_fuel_surcharge last Float64.zero = Ok (rep_fuel_surcharge r)
   /\ extract_amount gst_re last Float64.zero = Ok (rep_gst_hst_vat r))
  /\ nonneg (rep_tariff_amount r) /\ nonneg (rep_fuel_surcharge r)
  /\ nonneg (rep_gst_hst_vat r).
Proof.
  intros H. split.
  - exact (report_charges _ _ _ H).
  - exact (report_charges_nonneg _ _ H).
Qed.

Lemma X10_witness :
  exists r,
    process_tdl_invoice sample_db two_pages = Ok r /\
    (extract_amount tariff_re last_page Float64.zero
     = Ok (rep_tariff_amount r)
     /\ extract_fuel_surcharge last_page Float64.zero
        = Ok (rep_fuel_surcharge r)
     /\ extract_amount gst_re last_page Float64.zero
        = Ok (rep_gst_hst_vat r))
    /\ nonneg (rep_tariff_amount r) /\ nonneg (rep_fuel_surcharge r)
    /\ nonneg (rep_gst_hst_vat r).
Proof.
  eexists. split; [vm_compute; reflexivity|].
  apply (@X10_charges_from_last_page sample_db [first_page] last_page).
  vm_compute. reflexivity.
Defined.

(** ** The amounts of the summary *)

Lemma summarize_keys items :
  map fst (summarize items) = first_seen (map GL_Description items).
Proof.
  unfold summarize. rewrite group_sums_closed, map_map. simpl.
  apply map_id.
Qed.

Lemma summarize_values items g :
  In g (summarize items) -> snd g = line_total_of (fst g) items.
Proof.
  unfold summarize. rewrite group_sums_closed. intros H.
  apply in_map_iff in H as (k & <- & _). reflexivity.
Qed.

Lemma summary_perm items :
  Permutation (sorted_summary (summarize items)) (summarize items).
Proof. apply sorted_reverse_perm. Qed.

(** X11. The summary of a report has exactly one line for every GL
    description that occurs among the items (NOT_FOUND included) and no
    other line, and the amount of a line is the sum of the line totals of
    the items with that description, added in item order from 0.0. *)
Theorem X11_one_group_per_description db pages r :
  process_tdl_invoice db pages = Ok r ->
  NoDup (map fst (Summary r))
  /\ (forall k, In k (map fst (Summary r)) <->
                In k (map GL_Description (rep_items r)))
  /\ (forall k v, In (k, v) (Summary r) ->
                  v = line_total_of k (rep_items r)).
Proof.
  intros H. apply report_of_items in H as [-> _].
  pose proof (summary_perm (rep_items r)) as P.
  pose proof (Permutation_map fst P) as Pk.
  rewrite summarize_keys in Pk.
  split; [|split].
  - apply (Permutation_NoDup (Permutation_sym Pk)). apply first_seen_nodup.
  - intros k. split; intros Hk.
    + apply (proj1 (first_seen_in _ k)). exact (Permutation_in _ Pk Hk).
    + apply (proj2 (first_seen_in _ k)) in Hk.
      exact (Permutation_in _ (Permutation_sym Pk) Hk).
  - intros k v Hin. apply (Permutation_in _ P) in Hin.
    exact (summarize_values _ _ Hin).
Qed.

Lemma X11_witness :
  exists r,
    process_tdl_invoice sample_db two_pages = Ok r /\
    NoDup (map fst (Summary r))
    /\ (forall k, In k (map fst (Summary r)) <->
                  In k (map GL_Description (rep_items r)))
    /\ (forall k v, In (k, v) (Summary r) ->
                    v = line_total_of k (rep_items r)).
Proof.
  eexists. split; [vm_compute; reflexivity|].
  apply (@X11_one_group_per_description sample_db two_pages).
  vm_compute. reflexivity.
Defined.

(** Sums of values of a kind that addition keeps. *)
Section SumsClosed.
Variable P : float -> Prop.
Hypothesis P_zero : P Float64.zero.
Hypothesis P_add : forall a b, P a -> P b -> P (Float64.add a b).

Lemma fold_add_closed l : forall x,
  P x -> Forall P l -> P (fold_left Float64.add l x).
Proof.
  induction l as [|y l IH]; intros x Hx Hl; simpl; [assumption|].
  inversion Hl; subst. apply IH; auto.
Qed.

Lemma summary_closed items :
  Forall (fun it => P (Line_Total it)) items ->
  Forall P (map snd (sorted_summary (summarize items)))
  /\ P (total_of Float64.add Float64.zero (sorted_summary (summarize items))).
Proof.
  intros H.
  assert (Hs : Forall P (map snd (sorted_summary (summarize items)))).
  { apply Forall_forall. intros v Hv.
    apply in_map_iff in Hv as (g & <- & Hg).
    apply (Permutation_in _ (summary_perm items)) in Hg.
    rewrite (summarize_values _ _ Hg).
    unfold line_total_of, group_total. apply fold_add_closed; [assumption|].
    apply Forall_forall. intros x Hx.
    apply in_map_iff in Hx as (it & <- & Hit).
    apply filter_In in Hit as [Hit _].
    rewrite Forall_forall in H. auto. }
  split; [assumption|].
  rewrite total_of_values. now apply fold_add_closed.
Qed.
End SumsClosed.

Lemma mul_nonneg_or_nan a b :
  nonneg a -> nonneg b -> nonneg_or_nan (Float64.mul a b).
Proof.
  unfold nonneg_or_nan.
  destruct a as [[|]|[|]| |[|] ma ea], b as [[|]|[|]| |[|] mb eb];
    simpl; try tauto; intros _ _; try (left; reflexivity).
  right. apply binary_round_aux_nonneg. lia.
Qed.

Lemma round2_nonneg_or_nan x :
  nonneg_or_nan x -> nonneg_or_nan (Float64.round2 x).
Proof.
  intros [->|H]; [left; reflexivity|right; now apply round2_nonneg].
Qed.

Lemma add_nonneg_or_nan a b :
  nonneg_or_nan a -> nonneg_or_nan b -> nonneg_or_nan (Float64.add a b).
Proof.
  intros [->|Ha] [->|Hb].
  - left. reflexivity.
  - left. reflexivity.
  - left. now destruct a as [[|]|[|]| |[|] ma ea].
  - right. now apply add_nonneg.
Qed.

Lemma add_zero_r x :
  nonneg_or_nan x -> Float64.add x Float64.zero = x.
Proof.
  intros [->|H]; [reflexivity|].
  destruct x as [[|]|[|]| |[|] m e]; simpl in H; try contradiction;
    reflexivity.
Qed.

Lemma item_wf_total it : item_wf it -> nonneg_or_nan (Line_Total it).
Proof.
  intros (_ & _ & Hq & Hp & fq & Hfq & ->).
  apply round2_nonneg_or_nan, mul_nonneg_or_nan; [|assumption].
  now apply (of_int_nonneg Hq Hfq).
Qed.

(** X12. When the last page has none of the charge patterns, the
    charges are 0.0 and the grand total is the total amount, whatever the
    items are. *)
Theorem X12_no_charges db init last r :
  process_tdl_invoice db (init ++ [last]) = Ok r ->
  re_search tariff_re last = None -> re_search fuel_re last = None ->
  re_search fuel_alt_re last = None -> re_search gst_re last = None ->
  Additional_Charges r = Float64.zero /\ Grand_Total r = Total_Amount r.
Proof.
  intros H Ht Hf Hf' Hg.
  pose proof (report_charges _ _ _ H) as (Et & Ef & Eg).
  unfold extract_amount, extract_fuel_surcharge in *.
  rewrite Ht in Et. rewrite Hf, Hf' in Ef. rewrite Hg in Eg.
  injection Et as Et. injection Ef as Ef. injection Eg as Eg.
  assert (Htot : nonneg_or_nan (Total_Amount r)).
  { pose proof (report_items_wf _ _ H) as Hwf.
    apply report_of_items in H as [Hs ->]. rewrite Hs.
    apply summary_closed.
    - right. exact I.
    - apply add_nonneg_or_nan.
    - eapply Forall_impl; [|exact Hwf]. apply item_wf_total. }
  apply report_state in H as (st & _ & ->). simpl in *.
  rewrite <- Et, <- Ef, <- Eg. split; [reflexivity|].
  now rewrite !(@add_zero_r _ Htot).
Qed.

Lemma X12_witness :
  exists r, process_tdl_invoice sample_db [first_page] = Ok r /\
            Additional_Charges r = Float64.zero /\
            Grand_Total r = Total_Amount r.
Proof.
  eexists. split; [vm_compute; reflexivity|].
  apply (@X12_no_charges sample_db [] first_page);
    vm_compute; reflexivity.
Defined.

(** X13. When the unit price of every item is within the binary64
    range, no amount of the report is negative or NaN: the line totals,
    the amounts of the summary, the total amount, the additional charges
    and the grand total. *)
Theorem X13_amounts_not_negative db pages r :
  process_tdl_invoice db pages = Ok r ->
  Forall (fun it => Float64.is_finite (Unit_Price it) = true) (rep_items r) ->
  Forall (fun it => nonneg (Line_Total it)) (rep_items r)
  /\ Forall nonneg (map snd (Summary r))
  /\ nonneg (Total_Amount r)
  /\ nonneg (Additional_Charges r)
  /\ nonneg (Grand_Total r).
Proof.
  intros H Hfin.
  assert (Hl : Forall (fun it => nonneg (Line_Total it)) (rep_items r)).
  { pose proof (report_amounts _ _ H) as Ha.
    rewrite Forall_forall in *. intros it Hit. apply (Ha it Hit).
    now apply Hfin. }
  pose proof (report_charges_nonneg _ _ H) as Hc.
  destruct Hc as (Nt & Nf & Ng).
  destruct (report_of_items _ _ H) as [Hs Ht].
  destruct (@summary_closed nonneg I add_nonneg (rep_items r) Hl)
    as [Hsum Htot].
  rewrite <- Hs in Hsum, Htot. rewrite <- Ht in Htot.
  split; [assumption|]. split; [assumption|]. split; [assumption|].
  apply report_state in H as (st & _ & ->). simpl in *.
  split; auto using add_nonneg.
Qed.

Lemma X13_witness :
  exists r,
    process_tdl_invoice sample_db two_pages = Ok r /\
    Forall (fun it => nonneg (Line_Total it)) (rep_items r)
    /\ Forall nonneg (map snd (Summary r))
    /\ nonneg (Total_Amount r)
    /\ nonneg (Additional_Charges r)
    /\ nonneg (Grand_Total r).
Proof.
  eexists. split; [vm_compute; reflexivity|].
  apply (@X13_amounts_not_negative sample_db two_pages).
  - vm_compute. reflexivity.
  - repeat constructor.
Defined.

(** ** Item codes stored as numbers *)

Lemma usize_nb_digits d :
  DecimalPos.Unsigned.usize d = N.of_nat (Decimal.nb_digits d).
Proof.
  induction d; simpl Decimal.nb_digits; cbn [DecimalPos.Unsigned.usize];
    rewrite ?Nnat.Nat2N.inj_succ; try rewrite IHd; reflexivity.
Qed.

Lemma of_uint_acc_ge l acc :
  (10 ^ N.of_nat (Decimal.nb_digits l) <= Npos (Pos.of_uint_acc l acc))%N.
Proof.
  rewrite DecimalPos.Unsigned.of_uint_acc_rev, usize_nb_digits.
  assert (1 <= Npos acc)%N by lia.
  assert (0 < 10 ^ N.of_nat (Decimal.nb_digits l))%N
    by (apply N.neq_0_lt_0, N.pow_nonzero; discriminate).
  nia.
Qed.

(** A positive number below [10^n] has at most [n] decimal digits. *)
Lemma to_uint_size p n :
  (Npos p < 10 ^ N.of_nat n)%N -> Decimal.nb_digits (Pos.to_uint p) <= n.
Proof.
  intros Hp.
  pose proof (DecimalPos.Unsigned.of_to p) as Hof.
  pose proof (DecimalPos.Unsigned.to_uint_nonzero p) as Hnz.
  assert (Hn : Decimal.unorm (Pos.to_uint p) = Pos.to_uint p).
  { rewrite <- DecimalPos.Unsigned.to_of, Hof. reflexivity. }
  destruct (Pos.to_uint p) as [|l|l|l|l|l|l|l|l|l|l] eqn:E.
  1: simpl; lia.
  1: { exfalso.
       assert (Hne : l <> Decimal.Nil) by (intros ->; now apply Hnz).
       assert (Hu : Decimal.unorm l = Decimal.D0 l) by exact Hn.
       pose proof (DecimalFacts.nb_digits_unorm l Hne) as Hle.
       rewrite Hu in Hle. simpl in Hle. lia. }
  all: match goal with
       | |- Decimal.nb_digits (_ ?x) <= _ =>
           destruct (Nat.le_gt_cases (S (Decimal.nb_digits x)) n) as [Hle|Hgt];
           [exact Hle|]; exfalso;
           cbn [Pos.of_uint] in Hof; injection Hof as Hof;
           match type of Hof with
           | Pos.of_uint_acc _ ?a = _ =>
               pose proof (of_uint_acc_ge x a) as Hge; rewrite Hof in Hge
           end;
           assert (10 ^ N.of_nat n <= 10 ^ N.of_nat (Decimal.nb_digits x))%N
             by (apply N.pow_le_mono_r; [discriminate|lia]);
           lia
       end.
Qed.

Lemma string_of_uint_length d :
  List.length (chars (NilEmpty.string_of_uint d)) = Decimal.nb_digits d.
Proof.
  unfold chars. induction d; simpl; congruence.
Qed.

(** [str(z)] of an integer below 10,000,000 is not a text of 8 digits. *)
Lemma of_int_small z :
  (z < 10000000)%Z ->
  ~ (List.length (Str.of_int z) = 8 /\
     forallb isdigit (Str.of_int z) = true).
Proof.
  intros Hz [Hlen Hd]. unfold Str.of_int in *.
  destruct z as [|p|p].
  - discriminate Hlen.
  - simpl in Hlen.
    assert (Hp : (Npos p < 10 ^ N.of_nat 7)%N).
    { change (10 ^ N.of_nat 7)%N with 10000000%N. lia. }
    apply to_uint_size in Hp.
    unfold NilZero.string_of_uint in Hlen.
    pose proof (string_of_uint_length (Pos.to_uint p)) as Hs.
    destruct (Pos.to_uint p); [discriminate Hlen|..]; lia.
  - simpl in Hd. discriminate Hd.
Qed.

(** X14. An item code that the table holds as a number below
    10,000,000 is never the code of an item: its text has fewer than 8
    digits, or a sign, while the code read from the invoice is padded to
    8 digits.  The row of such a cell is never selected by line 133. *)
Theorem X14_small_numeric_code_never_matches db pages r it z :
  process_tdl_invoice db pages = Ok r -> In it (rep_items r) ->
  (z < 10000000)%Z ->
  Db.cell_str (Db.CInt z) <> Item_Code it /\
  forall row, In row (Db.select (Db.astype_str db) (Item_Code it)) ->
              Db.Item_Code row <> Db.CStr (Db.cell_str (Db.CInt z)).
Proof.
  intros H Hit Hz.
  pose proof (report_items_wf _ _ H) as Hwf.
  rewrite Forall_forall in Hwf. destruct (Hwf it Hit) as (Hlen & Hd & _).
  assert (Hne : Db.cell_str (Db.CInt z) <> Item_Code it).
  { intros E. apply (of_int_small Hz). simpl in E. rewrite E. auto. }
  split; [assumption|].
  intros row Hrow E. unfold Db.select in Hrow.
  apply filter_In in Hrow as [_ Hrow]. rewrite E in Hrow. simpl in Hrow.
  apply str_eqb_eq in Hrow. now apply Hne.
Qed.

Lemma X14_witness :
  exists r it,
    process_tdl_invoice sample_db two_pages = Ok r /\ In it (rep_items r) /\
    Db.cell_str (Db.CInt 12345) <> Item_Code it /\
    forall row, In row (Db.select (Db.astype_str sample_db) (Item_Code it)) ->
                Db.Item_Code row <> Db.CStr (Db.cell_str (Db.CInt 12345)).
Proof.
  eexists. eexists. split; [vm_compute; reflexivity|].
  split; [left; reflexivity|].
  eapply (@X14_small_numeric_code_never_matches sample_db two_pages).
  - vm_compute. reflexivity.
  - left. reflexivity.
  - lia.
Defined.

(** ** Invoices without item lines, and invoices put together *)

Lemma add_zero_l x : nonneg x -> Float64.add Float64.zero x = x.
Proof.
  destruct x as [[|]|[|]| |[|] m e]; simpl; try contradiction; reflexivity.
Qed.

(** X15. An invoice none of whose lines is an item line gives a report
    without items: the summary is empty, the total amount is 0.0 and the
    grand total is the additional charges. *)
Theorem X15_no_item_lines db pages :
  (forall line, In line (all_lines pages) -> is_item_line line = false) ->
  exists r, process_tdl_invoice db pages = Ok r /\
            rep_items r = [] /\ Summary r = [] /\
            Total_Amount r = Float64.zero /\
            Grand_Total r = Additional_Charges r.
Proof.
  intros Hno.
  assert (Hf : filter is_item_line (all_lines pages) = []).
  { induction (all_lines pages) as [|l ls IH]; [reflexivity|]. simpl.
    rewrite (Hno l (or_introl eq_refl)). apply IH.
    intros line Hl. apply Hno. now right. }
  pose proof (run_cases db pages) as C.
  destruct (existsb _ (all_lines pages)) eqn:E.
  { apply existsb_exists in E as (line & Hin & Hl).
    rewrite (Hno line Hin) in Hl. discriminate Hl. }
  destruct C as (r & H). exists r. split; [assumption|].
  pose proof (@report_items _ _ _ H) as Hi. rewrite Hf in Hi.
  assert (E0 : rep_items r = []).
  { apply Forall2_length in Hi. destruct (rep_items r); [reflexivity|].
    discriminate Hi. }
  destruct (@report_of_items _ _ _ H) as [Hs Ht].
  destruct (@report_charges_nonneg _ _ _ H) as (Nt & _).
  rewrite E0 in Hs. change (Summary r = []) in Hs. rewrite Hs in Ht.
  change (Total_Amount r = Float64.zero) in Ht.
  split; [assumption|]. split; [assumption|]. split; [assumption|].
  apply report_state in H as (st & _ & ->). simpl in *.
  rewrite Ht. now rewrite add_zero_l.
Qed.

Lemma X15_witness :
  exists r, process_tdl_invoice sample_db [chars "Fuel Surcharge 4.20"] = Ok r
            /\ rep_items r = [] /\ Summary r = [] /\
            Total_Amount r = Float64.zero /\
            Grand_Total r = Additional_Charges r.
Proof.
  apply (@X15_no_item_lines sample_db [chars "Fuel Surcharge 4.20"]).
  intros line [<-|[]]. vm_compute. reflexivity.
Defined.

Lemma process_line_shift db items line :
  process_line db items line
  = match process_line db [] line with
    | Ok new => Ok (items ++ new)
    | Raise e => Raise e
    end.
Proof.
  unfold process_line.
  destruct (item_code_of line) as [code|]; [|now rewrite app_nil_r].
  destruct (List.length (numbers_of line) <? 4); [now rewrite app_nil_r|].
  destruct (line_item db code (numbers_of line)) as [it|[| |]];
    simpl; try reflexivity; now rewrite app_nil_r.
Qed.

(** The items the loop appends do not depend on the items before. *)
Lemma process_lines_shift db : forall lines items,
  process_lines db items lines
  = match process_lines db [] lines with
    | Ok new => Ok (items ++ new)
    | Raise e => Raise e
    end.
Proof.
  induction lines as [|line lines IH]; intros items; simpl.
  - now rewrite app_nil_r.
  - rewrite process_line_shift.
    destruct (process_line db [] line) as [n1|e]; simpl; [|reflexivity].
    rewrite (IH (items ++ n1)), (IH n1).
    destruct (process_lines db [] lines) as [new|e]; [|reflexivity].
    now rewrite app_assoc.
Qed.

Lemma all_lines_app p1 p2 : all_lines (p1 ++ p2) = all_lines p1 ++ all_lines p2.
Proof. unfold all_lines. now rewrite map_app, concat_app. Qed.

(** X16. Invoices compose: when two page sequences each give a report,
    the pages of the first followed by the pages of the second give a
    report too, whose items are the items of the first report followed by
    the items of the second. *)
Theorem X16_items_compose db pages more r1 r2 :
  process_tdl_invoice db pages = Ok r1 ->
  process_tdl_invoice db more = Ok r2 ->
  exists r, process_tdl_invoice db (pages ++ more) = Ok r /\
            rep_items r = rep_items r1 ++ rep_items r2.
Proof.
  intros H1 H2.
  pose proof (@report_lines _ _ _ H1) as L1.
  pose proof (@report_lines _ _ _ H2) as L2.
  assert (L : process_lines (Db.astype_str db) [] (all_lines (pages ++ more))
              = Ok (rep_items r1 ++ rep_items r2)).
  { rewrite all_lines_app, process_lines_app, L1. simpl.
    now rewrite process_lines_shift, L2. }
  pose proof (run_cases db (pages ++ more)) as C.
  pose proof (process_lines_spec (Db.astype_str db)
                                 (all_lines (pages ++ more)) []) as S.
  destruct (existsb _ (all_lines (pages ++ more))).
  { rewrite S in L. discriminate L. }
  destruct C as (r & H). exists r. split; [assumption|].
  pose proof (@report_lines _ _ _ H) as Lr. rewrite L in Lr.
  now injection Lr as <-.
Qed.

Lemma X16_witness :
  exists r1 r2 r,
    process_tdl_invoice sample_db [first_page] = Ok r1 /\
    process_tdl_invoice sample_db [last_page] = Ok r2 /\
    process_tdl_invoice sample_db two_pages = Ok r /\
    rep_items r = rep_items r1 ++ rep_items r2.
Proof.
  eexists. eexists.
  destruct (@X16_items_compose sample_db [first_page] [last_page] _ _
              eq_refl eq_refl) as (r & H & E).
  exists r. split; [reflexivity|]. split; [reflexivity|].
  split; assumption.
Defined.

(* ================================================================== *)
(** * The totals of a report (C10) *)

(** ** Whole numbers in binary64 *)

Local Open Scope Z_scope.

Lemma pos_shift_val j : forall N,
  Zpos (Nat.iter j xO N) = Zpos N * 2 ^ Z.of_nat j.
Proof.
  induction j as [|j IH]; intros N.
  - simpl. lia.
  - rewrite Nat.iter_succ, Pos2Z.inj_xO, IH, Nat2Z.inj_succ, Z.pow_succ_r by lia.
    lia.
Qed.

Lemma binary_round_aux_trailing q n e :
  Zpos (digits2_pos q) = 53 ->
  -1074 <= e + Z.of_nat n <= 971 ->
  binary_round_aux Float64.prec Float64.emax false
                   (Zpos (Nat.iter n xO q)) e loc_Exact
  = S754_finite false q (e + Z.of_nat n).
Proof.
  intros Hq He.
  destruct n as [|n].
  { simpl Nat.iter. rewrite binary_round_aux_exact by lia.
    replace (e + Z.of_nat 0) with e by lia.
    assert ((e <=? 971) = true) as -> by (apply Z.leb_le; lia).
    reflexivity. }
  set (k := S n) in *.
  unfold binary_round_aux.
  assert (E1 : shr_fexp Float64.prec Float64.emax (Zpos (Nat.iter k xO q)) e
                        loc_Exact
               = (Build_shr_record (Zpos q) false false, e + Z.of_nat k)).
  { unfold shr_fexp, fexp, emin, Float64.prec, Float64.emax.
    cbn [Zdigits2]. rewrite digits2_shift, Hq.
    replace (Z.max (53 + Z.of_nat k + e - 53) (3 - 1024 - 53) - e)
      with (Zpos (Pos.of_nat k)) by (subst k; lia).
    cbn [shr shr_record_of_loc]. rewrite iter_pos_nat.
    replace (Pos.to_nat (Pos.of_nat k)) with k by (subst k; lia).
    rewrite shr_iter_exact. f_equal. subst k. lia. }
  rewrite E1.
  cbn [shr_m loc_of_shr_record round_nearest_even].
  rewrite shr_fexp_id by lia.
  cbn [shr_record_of_loc shr_m].
  assert ((e + Z.of_nat k <=? Float64.emax - Float64.prec) = true) as ->.
  { apply Z.leb_le. unfold Float64.prec, Float64.emax. lia. }
  reflexivity.
Qed.

(** The binary64 number of a positive integer of at most 53 bits: its
    digits shifted to the top of the mantissa. *)
Lemma binary_round_shl N j :
  Zpos (digits2_pos N) <= 53 ->
  binary_round Float64.prec Float64.emax false (Nat.iter j xO N)
               (- Z.of_nat j)
  = S754_finite false
                (Nat.iter (Z.to_nat (53 - Zpos (digits2_pos N))) xO N)
                (Zpos (digits2_pos N) - 53).
Proof.
  intros Hd. set (d := Zpos (digits2_pos N)) in *.
  assert (Hpos : 0 < d) by (subst d; lia).
  unfold binary_round, shl_align.
  rewrite digits2_shift. fold d.
  replace (fexp Float64.prec Float64.emax (d + Z.of_nat j + - Z.of_nat j))
    with (d - 53)
    by (unfold fexp, emin, Float64.prec, Float64.emax; lia).
  set (t := Z.to_nat (53 - d)).
  assert (Ht : Z.of_nat t = 53 - d) by (subst t; lia).
  destruct (d - 53 - - Z.of_nat j) as [|p|p] eqn:Ed.
  - (* the digits are where they belong *)
    replace j with t by lia.
    rewrite binary_round_aux_exact; [|rewrite digits2_shift; fold d; lia|lia].
    assert ((- Z.of_nat t <=? 971) = true) as -> by (apply Z.leb_le; lia).
    f_equal. lia.
  - (* they are too far up: the low bits are zero *)
    assert (Hj : (t <= j)%nat) by lia.
    replace (Nat.iter j xO N) with (Nat.iter (j - t) xO (Nat.iter t xO N))
      by (rewrite <- Nat.iter_add; f_equal; lia).
    rewrite binary_round_aux_trailing;
      [|rewrite digits2_shift; fold d; lia|lia].
    f_equal. lia.
  - (* they are shifted up *)
    rewrite pos_iter_nat, <- Nat.iter_add.
    replace (Pos.to_nat p + j)%nat with t by lia.
    rewrite binary_round_aux_exact; [|rewrite digits2_shift; fold d; lia|lia].
    assert ((d - 53 <=? 971) = true) as -> by (apply Z.leb_le; lia).
    reflexivity.
Qed.

Lemma exact_int_pos N :
  Zpos (digits2_pos N) <= 53 ->
  exact_int (Zpos N)
  = S754_finite false
                (Nat.iter (Z.to_nat (53 - Zpos (digits2_pos N))) xO N)
                (Zpos (digits2_pos N) - 53).
Proof.
  intros H. unfold exact_int. cbn [binary_normalize].
  exact (@binary_round_shl N 0 H).
Qed.

Lemma shl_align_val m e e' :
  e' <= e -> Zpos (fst (shl_align m e e')) = Zpos m * 2 ^ (e - e').
Proof.
  intros H. unfold shl_align.
  destruct (e' - e) as [|p|p] eqn:E; try lia.
  - replace (e - e') with 0 by lia. simpl. lia.
  - cbn [fst]. rewrite pos_iter_nat, pos_shift_val.
    replace (e - e') with (Zpos p) by lia.
    now rewrite positive_nat_Z.
Qed.

(** Adding two integers that binary64 holds, with a sum that it holds
    too, is exact. *)
Lemma add_exact a b :
  0 <= a -> 0 <= b -> a + b < 2 ^ 53 ->
  Float64.add (exact_int a) (exact_int b) = exact_int (a + b).
Proof.
  intros Ha Hb Hab.
  destruct a as [|p|p]; [|clear Ha|lia].
  { destruct b as [|q|q]; [reflexivity| |lia].
    cbn [Z.add]. rewrite exact_int_pos by (apply digits2_le_of_lt; lia).
    reflexivity. }
  destruct b as [|q|q]; [|clear Hb|lia].
  { rewrite Z.add_0_r. rewrite exact_int_pos by (apply digits2_le_of_lt; lia).
    reflexivity. }
  assert (Hp : Zpos (digits2_pos p) <= 53) by (apply digits2_le_of_lt; lia).
  assert (Hq : Zpos (digits2_pos q) <= 53) by (apply digits2_le_of_lt; lia).
  change (Zpos p + Zpos q) with (Zpos (p + q)) in *.
  assert (Hs : Zpos (digits2_pos (p + q)) <= 53)
    by (apply digits2_le_of_lt; lia).
  rewrite !exact_int_pos by assumption.
  set (dp := Zpos (digits2_pos p)) in *.
  set (dq := Zpos (digits2_pos q)) in *.
  assert (0 < dp /\ 0 < dq) as [Hdp Hdq] by (subst dp dq; lia).
  unfold Float64.add, SFadd. cbn [cond_Zopp].
  set (ez := Z.min (dp - 53) (dq - 53)).
  set (j := Z.to_nat (- ez)).
  assert (Hj : ez = - Z.of_nat j) by (subst j ez; lia).
  assert (E : Zpos (fst (shl_align (Nat.iter (Z.to_nat (53 - dp)) xO p)
                                   (dp - 53) ez))
              + Zpos (fst (shl_align (Nat.iter (Z.to_nat (53 - dq)) xO q)
                                     (dq - 53) ez))
              = Zpos (Nat.iter j xO (p + q)%positive)).
  { rewrite !shl_align_val by (subst ez; lia).
    rewrite !pos_shift_val, !Z2Nat.id by lia.
    rewrite <- !Z.mul_assoc, <- !Z.pow_add_r by lia.
    replace (53 - dp + (dp - 53 - ez)) with (Z.of_nat j) by lia.
    replace (53 - dq + (dq - 53 - ez)) with (Z.of_nat j) by lia.
    rewrite Pos2Z.inj_add. lia. }
  rewrite E. cbn [binary_normalize]. rewrite Hj.
  now apply binary_round_shl.
Qed.

Lemma exact_int_of_int n x : Float64.of_int n = Ok x -> x = exact_int n.
Proof.
  unfold Float64.of_int. fold (exact_int n).
  destruct (exact_int n); intros H; now inversion H.
Qed.

Lemma of_int_exact_int n :
  0 <= n < 2 ^ 53 -> Float64.of_int n = Ok (exact_int n).
Proof.
  intros [H0 H]. unfold Float64.of_int. fold (exact_int n).
  destruct n as [|p|p]; [reflexivity| |lia].
  rewrite exact_int_pos by (apply digits2_le_of_lt; lia). reflexivity.
Qed.

Lemma fold_zadd_ge ns : forall a,
  Forall (fun n => 0 <= n) ns -> a <= fold_left Z.add ns a.
Proof.
  induction ns as [|n ns IH]; intros a H; simpl; [lia|].
  inversion H; subst. specialize (IH (a + n) ltac:(assumption)). lia.
Qed.

Lemma fold_add_exact ns : forall a,
  0 <= a -> Forall (fun n => 0 <= n) ns -> fold_left Z.add ns a < 2 ^ 53 ->
  fold_left Float64.add (map exact_int ns) (exact_int a)
  = exact_int (fold_left Z.add ns a).
Proof.
  induction ns as [|n ns IH]; intros a Ha Hns Hsum; simpl; [reflexivity|].
  inversion Hns as [|? ? Hn Hns']; subst. simpl in Hsum.
  pose proof (fold_zadd_ge (a + n) Hns').
  rewrite add_exact by lia. apply IH; auto; lia.
Qed.

Lemma fold_zadd_filter (I : Type) (w : I -> Z) (p : I -> bool) items :
  Forall (fun it => 0 <= w it) items ->
  0 <= fold_left Z.add (map w (filter p items)) 0
    <= fold_left Z.add (map w items) 0.
Proof.
  assert (H : forall a b, 0 <= a <= b ->
            Forall (fun it => 0 <= w it) items ->
            0 <= fold_left Z.add (map w (filter p items)) a
              <= fold_left Z.add (map w items) b).
  { induction items as [|it items IH]; intros a b Hab Hw; simpl; [lia|].
    inversion Hw; subst.
    destruct (p it); simpl; apply IH; auto; lia. }
  intros Hw. apply H; [lia|assumption].
Qed.

Local Open Scope nat_scope.

(** ** Totals without rounding *)

(** Line totals that are whole numbers with a sum below 2^53: the groups
    and the total are added without rounding. *)
Lemma whole_totals (w : item -> Z) items :
  Forall (fun it => (0 <= w it)%Z
                    /\ Float64.of_int (w it) = Ok (Line_Total it)) items ->
  (fold_left Z.add (map w items) 0 < 2 ^ 53)%Z ->
  total_of Float64.add Float64.zero (sorted_summary (summarize items))
  = exact_int (fold_left Z.add (map w items) 0%Z)
  /\ fold_left Float64.add (map Line_Total items) Float64.zero
     = exact_int (fold_left Z.add (map w items) 0%Z).
Proof.
  intros Hw Hsum.
  assert (Hpos : Forall (fun it => (0 <= w it)%Z) items).
  { rewrite Forall_forall in *. intros it Hit. now apply Hw. }
  assert (Hval : forall l, incl l items ->
                           map Line_Total l = map exact_int (map w l)).
  { intros l Hl. rewrite map_map. apply map_ext_in. intros it Hit.
    rewrite Forall_forall in Hw.
    destruct (Hw it (Hl it Hit)) as [_ E]. now apply exact_int_of_int. }
  assert (Hnn : forall l, Forall (fun it => (0 <= w it)%Z) l ->
                          Forall (fun n => (0 <= n)%Z) (map w l)).
  { intros l Hl. rewrite Forall_forall in *. intros n Hn.
    apply in_map_iff in Hn as (it & <- & Hit). auto. }
  split.
  - rewrite total_of_values.
    set (zgroup := fun k => group_total GL_Description w Z.add 0%Z k items).
    set (ks := first_seen (map GL_Description items)).
    assert (Hz : forall k, (0 <= zgroup k
                            <= fold_left Z.add (map w items) 0)%Z).
    { intros k. apply fold_zadd_filter. exact Hpos. }
    assert (P : Permutation (map snd (sorted_summary (summarize items)))
                            (map exact_int (map zgroup ks))).
    { rewrite (Permutation_map snd (summary_groups items)).
      rewrite !map_map. cbn [snd]. fold ks.
      erewrite map_ext; [reflexivity|].
      intros k. unfold line_total_of, group_total.
      rewrite Hval by (intros it Hit; now apply filter_In in Hit).
      change Float64.zero with (exact_int 0).
      apply fold_add_exact; [lia| |].
      - apply Hnn. rewrite Forall_forall in *. intros it Hit.
        apply filter_In in Hit. now apply Hpos.
      - specialize (Hz k). unfold zgroup, group_total in Hz. lia. }
    apply Permutation_map_inv in P as (zs & -> & P).
    assert (Ezs : fold_left Z.add zs 0%Z
                  = fold_left Z.add (map w items) 0%Z).
    { rewrite <- (fold_add_perm Z.add Z.add_assoc Z.add_comm P).
      rewrite <- (group_sums_total GL_Description w Z.add 0%Z
                                   Z.add_assoc Z.add_comm Z.add_0_l items).
      rewrite group_sums_closed, map_map. reflexivity. }
    change Float64.zero with (exact_int 0).
    rewrite fold_add_exact; [now rewrite Ezs|lia| |lia].
    rewrite Forall_forall. intros n Hn.
    apply (Permutation_in _ (Permutation_sym P)) in Hn.
    apply in_map_iff in Hn as (k & <- & _). apply Hz.
  - rewrite (Hval items) by (intros it Hit; exact Hit).
    change Float64.zero with (exact_int 0).
    apply fold_add_exact; [lia|now apply Hnn|assumption].
Qed.

Lemma first_seen_const k l :
  l <> [] -> Forall (fun x => x = k) l -> first_seen l = [k].
Proof.
  induction l as [|x l IH] using rev_ind; [congruence|].
  intros _ H. apply Forall_app in H as [Hl Hx].
  inversion Hx; subst.
  rewrite first_seen_snoc.
  destruct l as [|y l]; [reflexivity|].
  rewrite IH by (assumption || discriminate).
  simpl. now rewrite str_eqb_refl.
Qed.

(** With one GL description the total is the sum of the line totals in
    item order. *)
Lemma single_total k items :
  Forall (fun it => nonneg_or_nan (Line_Total it)) items ->
  Forall (fun it => GL_Description it = k) items ->
  total_of Float64.add Float64.zero (sorted_summary (summarize items))
  = fold_left Float64.add (map Line_Total items) Float64.zero.
Proof.
  intros Hwf Hk.
  destruct items as [|it0 items0] eqn:E; [reflexivity|].
  rewrite <- E in *.
  assert (Hks : first_seen (map GL_Description items) = [k]).
  { apply first_seen_const; [subst; discriminate|].
    rewrite Forall_forall in *. intros x Hx.
    apply in_map_iff in Hx as (it & <- & Hit). auto. }
  pose proof (summary_groups items) as P. rewrite Hks in P. cbn [map] in P.
  apply Permutation_sym, Permutation_length_1_inv in P.
  rewrite P. cbn [total_of fold_left snd].
  assert (Hall : filter (fun it => Str.eqb (GL_Description it) k) items
                 = items).
  { clear - Hk. induction Hk as [|it l Hit _ IH]; simpl; [reflexivity|].
    rewrite Hit, str_eqb_refl. now f_equal. }
  unfold line_total_of, group_total. rewrite Hall.
  assert (Hs : nonneg_or_nan
                 (fold_left Float64.add (map Line_Total items) Float64.zero)).
  { apply (fold_add_closed add_nonneg_or_nan).
    - right. exact I.
    - rewrite Forall_forall in *. intros x Hx.
      apply in_map_iff in Hx as (it & <- & Hit). auto. }
  destruct Hs as [->|Hs]; [reflexivity|now apply add_zero_l].
Qed.

(** C10. The "Total Amount" of a report is the binary64 sum of the
    amounts of the summary, added in the printed order from 0.0; each of
    these amounts is the sum of the line totals of its group, added in
    item order; the "Grand Total" is that total plus the tariff amount,
    plus the fuel surcharge, plus the tax amount.  The total is the sum
    of the line totals in item order when all the items have one GL
    Description, and when the line totals are whole numbers whose sum is
    below 2^53: it is then that sum, without rounding.  Without pages
    both totals are 0.0. *)
Theorem C10_totals :
  (forall db pages r,
      process_tdl_invoice db pages = Ok r ->
      Total_Amount r
      = fold_left Float64.add (map snd (Summary r)) Float64.zero
      /\ Permutation
           (Summary r)
           (map (fun k => (k, line_total_of k (rep_items r)))
                (first_seen (map GL_Description (rep_items r))))
      /\ Grand_Total r
         = Float64.add
             (Float64.add
                (Float64.add (Total_Amount r) (rep_tariff_amount r))
                (rep_fuel_surcharge r))
             (rep_gst_hst_vat r)
      /\ (forall k,
             Forall (fun it => GL_Description it = k) (rep_items r) ->
             Total_Amount r
             = fold_left Float64.add (map Line_Total (rep_items r))
                         Float64.zero)
      /\ (forall w : item -> Z,
             Forall (fun it => (0 <= w it)%Z
                               /\ Float64.of_int (w it) = Ok (Line_Total it))
                    (rep_items r) ->
             (fold_left Z.add (map w (rep_items r)) 0 < 2 ^ 53)%Z ->
             Total_Amount r
             = fold_left Float64.add (map Line_Total (rep_items r))
                         Float64.zero
             /\ Float64.of_int (fold_left Z.add (map w (rep_items r)) 0%Z)
                = Ok (Total_Amount r)))
  /\ (forall db, exists r,
         process_tdl_invoice db [] = Ok r
         /\ Total_Amount r = Float64.zero
         /\ Grand_Total r = Float64.zero).
Proof.
  split.
  - intros db pages r Hr.
    pose proof (report_items_wf _ _ Hr) as Hwf.
    destruct (report_of_items _ _ Hr) as [Hs Ht].
    split; [rewrite Ht; apply total_of_values|].
    split; [rewrite Hs; apply summary_groups|].
    split.
    { apply report_state in Hr as (st & _ & ->). reflexivity. }
    split.
    + intros k Hk. rewrite Ht, Hs. apply single_total with (k := k).
      * rewrite Forall_forall in *. intros it Hit.
        apply item_wf_total. auto.
      * exact Hk.
    + intros w Hw Hsum. rewrite Ht, Hs.
      destruct (whole_totals w Hw Hsum) as [E1 E2].
      rewrite E1, E2. split; [reflexivity|].
      apply of_int_exact_int. split; [|assumption].
      apply (Z.le_trans _ _ _ (Z.le_refl 0)), fold_zadd_ge.
      rewrite Forall_forall in *. intros n Hn.
      apply in_map_iff in Hn as (it & <- & Hit). now apply Hw.
  - intros db. exists (summary_report initial).
    split; [apply process_empty|]. split; reflexivity.
Qed.

Lemma C10_witness :
  (exists r,
      process_tdl_invoice ledger_db [whole_page] = Ok r
      /\ map Line_Total (rep_items r) = [f_25_00; f_12_00; f_3_00]
      /\ Total_Amount r
         = fold_left Float64.add (map Line_Total (rep_items r)) Float64.zero
      /\ Float64.of_int 40 = Ok (Total_Amount r))
  /\ (exists r,
         process_tdl_invoice ledger_db [food_page] = Ok r
         /\ Total_Amount r
            = fold_left Float64.add (map Line_Total (rep_items r))
                        Float64.zero).
Proof.
  split.
  - assert (Hrun : exists r,
               process_tdl_invoice ledger_db [whole_page] = Ok r
               /\ map Line_Total (rep_items r)
                  = [f_25_00; f_12_00; f_3_00]).
    { eexists. split; vm_compute; reflexivity. }
    destruct Hrun as (r & Hr & Hits).
    exists r. split; [exact Hr|]. split; [exact Hits|].
    destruct (proj1 C10_totals ledger_db [whole_page] r Hr)
      as (_ & _ & _ & _ & Hwhole).
    set (w := fun it : item =>
                match Float64.to_int (Line_Total it) with
                | Ok n => n
                | Raise _ => 0%Z
                end).
    assert (Hw : map w (rep_items r) = [25; 12; 3]%Z).
    { rewrite <- (map_map Line_Total
                          (fun x => match Float64.to_int x with
                                    | Ok n => n
                                    | Raise _ => 0%Z
                                    end)), Hits.
      reflexivity. }
    destruct (Hwhole w) as [E1 E2].
    + apply Forall_forall. intros it Hit.
      assert (Hx : In (Line_Total it) [f_25_00; f_12_00; f_3_00])
        by (rewrite <- Hits; now apply in_map).
      unfold w.
      destruct Hx as [<-|[<-|[<-|[]]]]; split;
        solve [vm_compute; discriminate | vm_compute; reflexivity].
    + rewrite Hw. reflexivity.
    + split; [exact E1|]. rewrite Hw in E2. exact E2.
  - assert (Hrun : exists r,
               process_tdl_invoice ledger_db [food_page] = Ok r
               /\ forallb (fun it => Str.eqb (GL_Description it)
                                             (chars "Food"))
                          (rep_items r) = true).
    { eexists. split; vm_compute; reflexivity. }
    destruct Hrun as (r & Hr & Hk).
    exists r. split; [exact Hr|].
    destruct (proj1 C10_totals ledger_db [food_page] r Hr)
      as (_ & _ & _ & Hsingle & _).
    apply (Hsingle (chars "Food")).
    apply Forall_forall. intros it Hit.
    apply str_eqb_eq. exact (proj1 (forallb_forall _ _) Hk it Hit).
Defined.

(** The total is not the sum of the line totals in item order.  With
    0.10, 0.20 and 0.30 in three groups the program adds 0.30 + 0.20 +
    0.10 and prints 0.6, the line totals in item order give
    0.6000000000000001.  With 1.00, 10^16 and 1.00, the two small items in
    one group, the total is 10^16 + 2 and the line totals in item order
    give 10^16: each 1.00 is lost on its own.  With the largest binary64
    number between two items of one group, each below the half of its
    last place and the two together above, the total is infinite and the
    sum of the line totals in item order is that largest number; with
    the two small items in two groups and before the largest number, the
    total is the largest number and the sum of the line totals in item
    order is infinite. *)
Lemma C10_counterexample :
  (exists r,
      process_tdl_invoice ledger_db [drift_page] = Ok r
      /\ Total_Amount r
         <> fold_left Float64.add (map Line_Total (rep_items r))
                      Float64.zero
      /\ Float64.of_str (chars "0.6") = Ok (Total_Amount r)
      /\ Float64.of_str (chars "0.6000000000000001")
         = Ok (fold_left Float64.add (map Line_Total (rep_items r))
                         Float64.zero))
  /\ (exists r,
         process_tdl_invoice ledger_db [absorb_page] = Ok r
         /\ Total_Amount r
            <> fold_left Float64.add (map Line_Total (rep_items r))
                         Float64.zero
         /\ Float64.of_int 10000000000000002 = Ok (Total_Amount r)
         /\ Float64.of_int 10000000000000000
            = Ok (fold_left Float64.add (map Line_Total (rep_items r))
                            Float64.zero))
  /\ (exists r,
         process_tdl_invoice ledger_db [overflow_page] = Ok r
         /\ Total_Amount r
            <> fold_left Float64.add (map Line_Total (rep_items r))
                         Float64.zero
         /\ Total_Amount r = S754_infinity false
         /\ Float64.of_int max_float
            = Ok (fold_left Float64.add (map Line_Total (rep_items r))
                            Float64.zero))
  /\ (exists r,
         process_tdl_invoice ledger_db [overflow_items_page] = Ok r
         /\ Total_Amount r
            <> fold_left Float64.add (map Line_Total (rep_items r))
                         Float64.zero
         /\ Float64.of_int max_float = Ok (Total_Amount r)
         /\ fold_left Float64.add (map Line_Total (rep_items r))
                      Float64.zero
            = S754_infinity false).
Proof.
  split; [|split; [|split]]; eexists;
    (split; [vm_compute; reflexivity|]);
    (split; [vm_compute; discriminate|]);
    split; vm_compute; reflexivity.
Qed.
